(** * useAudioRecorder: the recording session of apps/web/hooks/useAudioRec.ts

    A shallow embedding of the React hook [useAudioRecorder] and of the part
    of the browser it talks to (MediaRecorder, MediaStream tracks, object
    URLs, Blob, intervals, getUserMedia), followed by the properties of
    the session state machine.

    Conventions of the embedding.
    - The hook's React state and its five refs are fields of one [World],
      next to the browser objects the hook holds references to.  Objects
      with identity (recorders, streams) live in stores indexed by their
      position; a ref or a closure holds the index.
    - [setState] applies its updater at once.  A function of the hook
      reads [state] as of the render it was made in: the call of
      togglePauseResume takes that state as an argument.
    - stop(), pause() and resume() change the state of the recorder at the
      call and queue their events; the listeners run when the events are
      dispatched ([dispatch]).  The functions of the hook are modelled as
      calls (module [Call]) that return the events they have queued.
      [handler cs] is an event handler that makes the calls [cs] one after
      the other, followed by the events they queued; [stopRecording],
      [togglePauseResume] and [cleanup] are the handlers that make one
      call.
    - An [Action] is one task: a handler that makes one call, together
      with the events the call queued, or one callback of the browser (a
      resolution, a rejection, a fragment, a tick).  [reachable] is where
      sequences of such tasks lead: nothing runs between a call and the
      events it queued.  Handlers that make several calls are no steps of
      [reachable]; what they do is stated apart.
    - What the environment decides comes with the action: the granted
      stream, whether [getBestSupportedMimeType()] returns a string or
      throws, whether [new MediaRecorder] accepts that string, the data of
      a fragment, the data the encoder still holds when the recorder is
      stopped.
    - Ending the tracks of a recorder that is not inactive makes the
      browser stop that recorder, with the events of stop().  The cleanup
      of the effect runs when React unmounts or hides the component; the
      listeners it triggers run all the same, and the world keeps the
      state their updaters give, which nobody reads once the component is
      unmounted.
    - The dataavailable listener runs whenever the environment delivers a
      fragment to a recorder of the store; the browser delivers them only
      while that recorder records and once more when it is stopped, so
      every execution of the browser is one of the model.
    - A JavaScript exception is the [Throw] result of the error monad; it
      carries the world the code had reached, and the hook goes on from
      that world.  startRecording is modelled in a browser that has
      [navigator.mediaDevices].  console.log has no effect on the
      model. *)

From Stdlib Require Import ZArith Ascii String List Lia Bool.
From stdpp Require Import base list.
Import ListNotations.

(** ** Values *)

(** status: 'idle' | 'recording' | 'paused' | 'stopped' *)
Inductive Status : Set := Idle | Recording | Paused | Stopped.

(** MediaRecorder.state: 'inactive' | 'recording' | 'paused' *)
Inductive RecordingState : Set := RInactive | RRecording | RPaused.

(** MediaStreamTrack.readyState: 'live' | 'ended' *)
Inductive TrackState : Set := Live | Ended.

#[global] Instance Status_eq_dec : EqDecision Status.
Proof. solve_decision. Defined.
#[global] Instance RecordingState_eq_dec : EqDecision RecordingState.
Proof. solve_decision. Defined.
#[global] Instance TrackState_eq_dec : EqDecision TrackState.
Proof. solve_decision. Defined.

(** A Blob: its bytes and its type tag. *)
Record Blob : Set := mkBlob { blobData : list Byte.byte; blobType : string }.

(** blob.size *)
Definition blobSize (b : Blob) : Z := Z.of_nat (length (blobData b)).

(** A character in the range U+0020 to U+007E. *)
Definition isPrintable (c : ascii) : bool :=
  Nat.leb 32 (nat_of_ascii c) && Nat.leb (nat_of_ascii c) 126.

(** ASCII lower case of one character. *)
Definition toLower (c : ascii) : ascii :=
  if Nat.leb 65 (nat_of_ascii c) && Nat.leb (nat_of_ascii c) 90
  then ascii_of_nat (nat_of_ascii c + 32)
  else c.

Fixpoint allPrintable (s : string) : bool :=
  match s with
  | EmptyString => true
  | String c s => isPrintable c && allPrintable s
  end.

Fixpoint lowerCase (s : string) : string :=
  match s with
  | EmptyString => EmptyString
  | String c s => String (toLower c) (lowerCase s)
  end.

(** The type a Blob gets from the type option of its constructor: the
    empty string when the option has a character outside U+0020 to U+007E,
    and the option in ASCII lower case otherwise. *)
Definition normalizeType (type : string) : string :=
  if allPrintable type then lowerCase type else EmptyString.

(** new Blob(parts, { type }): the parts' bytes in order, under the
    normalized tag. *)
Definition newBlob (parts : list Blob) (type : string) : Blob :=
  {| blobData := List.concat (List.map blobData parts);
     blobType := normalizeType type |}.

(** An Error object (its message). *)
Definition JsError : Set := string.

(** The string URL.createObjectURL returns, named by its serial number. *)
Definition ObjectURL : Set := nat.
Definition RecorderId : Set := nat.
Definition StreamId : Set := nat.
Definition TimerId : Set := nat.
Definition RequestId : Set := nat.

(** interface AudioRecorderState *)
Record AudioRecorderState : Set := mkState {
  status : Status;
  recordingTime : Z;
  recordingBlob : option Blob;
  blobUrl : option ObjectURL;
  error : option JsError
}.

Definition INITIAL_STATE : AudioRecorderState :=
  {| status := Idle;
     recordingTime := 0%Z;
     recordingBlob := None;
     blobUrl := None;
     error := None |}.

(** RECORDER_OPTIONS *)
Definition audioBitsPerSecond : Z := 24000%Z.
Definition timeslice : Z := 100%Z.

(** ** The browser objects *)

(** A MediaStream: the readyState of each of its tracks. *)
Definition MediaStream : Set := list TrackState.

(** A MediaRecorder made by the hook.  Its dataavailable, stop and pause
    listeners are those of [startRecording]; [resumeListeners] counts the
    resume listeners, one more after every run of the pause listener. *)
Record MediaRecorder : Set := mkRecorder {
  rstate : RecordingState;
  rstream : StreamId;
  rmimeType : string;
  rbitsPerSecond : Z;
  rtimeslice : option Z;
  resumeListeners : nat
}.

Record Browser : Set := mkBrowser {
  recorders : list MediaRecorder;
  streams : list MediaStream;
  intervals : list TimerId;            (* the intervals that still fire *)
  nextInterval : TimerId;
  objectUrls : list (ObjectURL * Blob);  (* issued and not revoked *)
  nextUrl : ObjectURL;
  pendingRequests : list RequestId;    (* getUserMedia promises not settled *)
  nextRequest : RequestId;
  mimeCalls : nat                      (* calls of getBestSupportedMimeType *)
}.

(** The useRef cells of the hook. *)
Record Refs : Set := mkRefs {
  mediaRecorderRef : option RecorderId;
  mediaStreamRef : option StreamId;
  chunksRef : list Blob;
  timerIntervalRef : option TimerId;
  mimeTypeRef : option string
}.

Record World : Set := mkWorld {
  state : AudioRecorderState;
  refs : Refs;
  browser : Browser
}.

Definition initial_browser : Browser :=
  {| recorders := []; streams := []; intervals := []; nextInterval := 0;
     objectUrls := []; nextUrl := 0; pendingRequests := [];
     nextRequest := 0; mimeCalls := 0 |}.

Definition initial_refs : Refs :=
  {| mediaRecorderRef := None; mediaStreamRef := None; chunksRef := [];
     timerIntervalRef := None; mimeTypeRef := None |}.

(** The hook right after its first render. *)
Definition initial_world : World :=
  {| state := INITIAL_STATE; refs := initial_refs; browser := initial_browser |}.

(** ** Exceptions *)

Inductive Exn : Set :=
| InvalidStateError    (* a MediaRecorder method called in the wrong state *)
| TypeError            (* a property of null or undefined is read *)
| NotSupportedError    (* new MediaRecorder with a mimeType it cannot record *)
| CollaboratorError.   (* what getBestSupportedMimeType throws *)

(** The outcome of running code: a value, or an exception together with
    the world that the effects made before it have left. *)
Inductive result (A : Type) : Type :=
| Ok (a : A)
| Throw (e : Exn) (w : World).
Arguments Ok {A} a.
Arguments Throw {A} e w.

#[global] Instance result_ret : MRet result := fun A a => Ok a.
#[global] Instance result_bind : MBind result := fun A B f r =>
  match r with
  | Ok a => f a
  | Throw e w => Throw e w
  end.

(** ** Field updates *)

Definition setState (f : AudioRecorderState -> AudioRecorderState) (w : World) : World :=
  {| state := f (state w); refs := refs w; browser := browser w |}.

Definition with_refs (f : Refs -> Refs) (w : World) : World :=
  {| state := state w; refs := f (refs w); browser := browser w |}.

Definition with_browser (f : Browser -> Browser) (w : World) : World :=
  {| state := state w; refs := refs w; browser := f (browser w) |}.

Definition set_mediaRecorderRef (v : option RecorderId) (w : World) : World :=
  with_refs (fun r =>
    {| mediaRecorderRef := v; mediaStreamRef := mediaStreamRef r;
       chunksRef := chunksRef r; timerIntervalRef := timerIntervalRef r;
       mimeTypeRef := mimeTypeRef r |}) w.

Definition set_mediaStreamRef (v : option StreamId) (w : World) : World :=
  with_refs (fun r =>
    {| mediaRecorderRef := mediaRecorderRef r; mediaStreamRef := v;
       chunksRef := chunksRef r; timerIntervalRef := timerIntervalRef r;
       mimeTypeRef := mimeTypeRef r |}) w.

Definition set_chunksRef (v : list Blob) (w : World) : World :=
  with_refs (fun r =>
    {| mediaRecorderRef := mediaRecorderRef r;
       mediaStreamRef := mediaStreamRef r; chunksRef := v;
       timerIntervalRef := timerIntervalRef r; mimeTypeRef := mimeTypeRef r |}) w.

Definition set_timerIntervalRef (v : option TimerId) (w : World) : World :=
  with_refs (fun r =>
    {| mediaRecorderRef := mediaRecorderRef r;
       mediaStreamRef := mediaStreamRef r; chunksRef := chunksRef r;
       timerIntervalRef := v; mimeTypeRef := mimeTypeRef r |}) w.

Definition set_mimeTypeRef (v : option string) (w : World) : World :=
  with_refs (fun r =>
    {| mediaRecorderRef := mediaRecorderRef r;
       mediaStreamRef := mediaStreamRef r; chunksRef := chunksRef r;
       timerIntervalRef := timerIntervalRef r; mimeTypeRef := v |}) w.

Definition set_recorders (v : list MediaRecorder) (w : World) : World :=
  with_browser (fun b =>
    {| recorders := v; streams := streams b; intervals := intervals b;
       nextInterval := nextInterval b; objectUrls := objectUrls b;
       nextUrl := nextUrl b; pendingRequests := pendingRequests b;
       nextRequest := nextRequest b; mimeCalls := mimeCalls b |}) w.

Definition set_streams (v : list MediaStream) (w : World) : World :=
  with_browser (fun b =>
    {| recorders := recorders b; streams := v; intervals := intervals b;
       nextInterval := nextInterval b; objectUrls := objectUrls b;
       nextUrl := nextUrl b; pendingRequests := pendingRequests b;
       nextRequest := nextRequest b; mimeCalls := mimeCalls b |}) w.

Definition set_intervals (v : list TimerId) (n : TimerId) (w : World) : World :=
  with_browser (fun b =>
    {| recorders := recorders b; streams := streams b; intervals := v;
       nextInterval := n; objectUrls := objectUrls b; nextUrl := nextUrl b;
       pendingRequests := pendingRequests b; nextRequest := nextRequest b;
       mimeCalls := mimeCalls b |}) w.

Definition set_objectUrls (v : list (ObjectURL * Blob)) (n : ObjectURL) (w : World) : World :=
  with_browser (fun b =>
    {| recorders := recorders b; streams := streams b;
       intervals := intervals b; nextInterval := nextInterval b;
       objectUrls := v; nextUrl := n; pendingRequests := pendingRequests b;
       nextRequest := nextRequest b; mimeCalls := mimeCalls b |}) w.

Definition set_pendingRequests (v : list RequestId) (n : RequestId) (w : World) : World :=
  with_browser (fun b =>
    {| recorders := recorders b; streams := streams b;
       intervals := intervals b; nextInterval := nextInterval b;
       objectUrls := objectUrls b; nextUrl := nextUrl b; pendingRequests := v;
       nextRequest := n; mimeCalls := mimeCalls b |}) w.

Definition set_mimeCalls (v : nat) (w : World) : World :=
  with_browser (fun b =>
    {| recorders := recorders b; streams := streams b;
       intervals := intervals b; nextInterval := nextInterval b;
       objectUrls := objectUrls b; nextUrl := nextUrl b;
       pendingRequests := pendingRequests b; nextRequest := nextRequest b;
       mimeCalls := v |}) w.

(** ** Browser operations *)

(** setInterval(callback, 1000): a fresh interval that fires from now on. *)
Definition setInterval (w : World) : TimerId * World :=
  let t := nextInterval (browser w) in
  (t, set_intervals (intervals (browser w) ++ [t]) (S t) w).

(** clearInterval(t): the interval fires no more; unknown ids are ignored. *)
Definition clearInterval (t : TimerId) (w : World) : World :=
  set_intervals (List.filter (fun x => negb (Nat.eqb x t)) (intervals (browser w)))
                (nextInterval (browser w)) w.

(** URL.createObjectURL(blob): a fresh URL that resolves to the blob. *)
Definition createObjectURL (b : Blob) (w : World) : ObjectURL * World :=
  let u := nextUrl (browser w) in
  (u, set_objectUrls (objectUrls (browser w) ++ [(u, b)]) (S u) w).

(** URL.revokeObjectURL(u): the URL resolves no more; unknown URLs are
    ignored. *)
Definition revokeObjectURL (u : ObjectURL) (w : World) : World :=
  set_objectUrls (List.filter (fun p => negb (Nat.eqb (fst p) u)) (objectUrls (browser w)))
                 (nextUrl (browser w)) w.

(** track.stop() on every track of a stream; an ended track stays ended. *)
Definition stopTracks (s : MediaStream) : MediaStream :=
  List.map (fun _ => Ended) s.

(** new MediaRecorder(stream, { mimeType, audioBitsPerSecond }).  The
    constructor throws NotSupportedError when the browser cannot record
    the mimeType; [supported] is what this browser decides for [mime]. *)
Definition MediaRecorder_new (supported : bool) (sid : StreamId) (mime : string)
    (bits : Z) (w : World) : result (RecorderId * World) :=
  if supported then
    let rid := length (recorders (browser w)) in
    Ok (rid,
        set_recorders
          (recorders (browser w) ++
           [{| rstate := RInactive; rstream := sid; rmimeType := mime;
               rbitsPerSecond := bits; rtimeslice := None; resumeListeners := 0 |}])
          w)
  else Throw NotSupportedError w.

Definition lookupRecorder (rid : RecorderId) (w : World) : result MediaRecorder :=
  match recorders (browser w) !! rid with
  | Some r => Ok r
  | None => Throw TypeError w
  end.

Definition updateRecorder (rid : RecorderId) (r : MediaRecorder) (w : World) : World :=
  set_recorders (<[rid := r]> (recorders (browser w))) w.

Definition with_rstate (s : RecordingState) (r : MediaRecorder) : MediaRecorder :=
  {| rstate := s; rstream := rstream r; rmimeType := rmimeType r;
     rbitsPerSecond := rbitsPerSecond r; rtimeslice := rtimeslice r;
     resumeListeners := resumeListeners r |}.

Definition modifyRecorder (rid : RecorderId) (f : MediaRecorder -> MediaRecorder)
    (w : World) : World :=
  set_recorders (alter f rid (recorders (browser w))) w.

Definition add_resumeListener (r : MediaRecorder) : MediaRecorder :=
  {| rstate := rstate r; rstream := rstream r; rmimeType := rmimeType r;
     rbitsPerSecond := rbitsPerSecond r; rtimeslice := rtimeslice r;
     resumeListeners := S (resumeListeners r) |}.

(** navigator.mediaDevices.getUserMedia(...): one more pending promise. *)
Definition getUserMedia (w : World) : RequestId * World :=
  let q := nextRequest (browser w) in
  (q, set_pendingRequests (pendingRequests (browser w) ++ [q]) (S q) w).

Definition settleRequest (q : RequestId) (w : World) : World :=
  set_pendingRequests
    (List.filter (fun x => negb (Nat.eqb x q)) (pendingRequests (browser w)))
    (nextRequest (browser w)) w.

Definition isPending (q : RequestId) (w : World) : bool :=
  existsb (Nat.eqb q) (pendingRequests (browser w)).

Definition isFiring (t : TimerId) (w : World) : bool :=
  existsb (Nat.eqb t) (intervals (browser w)).

(** getBestSupportedMimeType() of @/hooks/audioConst, an imported
    collaborator: what it does is a parameter, the string it returns or
    [None] when it throws, and the world counts its calls. *)
Definition getBestSupportedMimeType (answer : option string) (w : World) :
    result (string * World) :=
  let w := set_mimeCalls (S (mimeCalls (browser w))) w in
  match answer with
  | Some mime => Ok (mime, w)
  | None => Throw CollaboratorError w
  end.

(** The stream object a granted request resolves with. *)
Definition newStream (s : MediaStream) (w : World) : StreamId * World :=
  let sid := length (streams (browser w)) in
  (sid, set_streams (streams (browser w) ++ [s]) w).

(** ** The hook *)

(** _clearTimer (lines 52-56).  Does not touch recordingTime. *)
Definition _clearTimer (w : World) : World :=
  match timerIntervalRef (refs w) with
  | None => w
  | Some t => set_timerIntervalRef None (clearInterval t w)
  end.

(** The interval callback (lines 62-65). *)
Definition onTick (w : World) : World :=
  setState (fun prev =>
    {| status := status prev;
       recordingTime := (recordingTime prev + 1)%Z;
       recordingBlob := recordingBlob prev;
       blobUrl := blobUrl prev;
       error := error prev |}) w.

(** _startTimer (lines 59-67) *)
Definition _startTimer (w : World) : World :=
  let w := _clearTimer w in
  let '(t, w) := setInterval w in
  set_timerIntervalRef (Some t) w.

(** _cleanTracks (lines 69-72) *)
Definition _cleanTracks (recorder : option RecorderId) (w : World) : result World :=
  match recorder with
  | None => Ok w
  | Some rid =>
      r ← lookupRecorder rid w;
      match streams (browser w) !! rstream r with
      | Some s => Ok (set_streams (<[rstream r := stopTracks s]> (streams (browser w))) w)
      | None => Throw TypeError w
      end
  end.

(** reset (lines 75-81) *)
Definition reset (w : World) : World :=
  let w := setState (fun _ => INITIAL_STATE) w in
  let w := set_mediaRecorderRef None w in
  let w := set_mediaStreamRef None w in
  let w := set_chunksRef [] w in
  _clearTimer w.

(** mimeTypeRef.current! as the type option of new Blob: a null converts
    to the string null. *)
Definition currentMimeType (w : World) : string :=
  match mimeTypeRef (refs w) with
  | Some m => m
  | None => "null"%string
  end.

(** The dataavailable listener (lines 107-116). *)
Definition onDataAvailable (data : Blob) (w : World) : World :=
  if (0 <? blobSize data)%Z
  then set_chunksRef (chunksRef (refs w) ++ [data]) w
  else w.

(** The stop listener (lines 118-135); [recorder] is the recorder the
    closure was made for. *)
Definition onStop (recorder : RecorderId) (w : World) : result World :=
  let audioBlob := newBlob (chunksRef (refs w)) (currentMimeType w) in
  let '(url, w) := createObjectURL audioBlob w in
  let w := _clearTimer w in
  let w := setState (fun prev =>
    {| status := Stopped;
       recordingTime := recordingTime prev;
       recordingBlob := Some audioBlob;
       blobUrl := Some url;
       error := error prev |}) w in
  _cleanTracks (Some recorder) w.

(** A resume listener (lines 158-161). *)
Definition onResume (w : World) : World :=
  setState (fun prev =>
    {| status := Recording;
       recordingTime := recordingTime prev;
       recordingBlob := recordingBlob prev;
       blobUrl := blobUrl prev;
       error := error prev |}) w.

(** The pause listener (lines 137-162); it ends by adding one more resume
    listener to its recorder. *)
Definition onPause (recorder : RecorderId) (w : World) : World :=
  let audioBlob := newBlob (chunksRef (refs w)) (currentMimeType w) in
  let '(url, w) := createObjectURL audioBlob w in
  let w := _clearTimer w in
  let w := setState (fun prev =>
    {| status := Paused;
       recordingTime := recordingTime prev;
       recordingBlob := Some audioBlob;
       blobUrl := Some url;
       error := error prev |}) w in
  modifyRecorder recorder add_resumeListener w.

(** ** Recorder events *)

(** An event a MediaRecorder fires at its listeners.  The methods stop(),
    pause() and resume() change the state of the recorder at the call and
    queue their events; the listeners run later, in a task of their own. *)
Inductive RecorderEvent : Set :=
| EDataAvailable (rid : RecorderId) (data : Blob)
| EStop (rid : RecorderId)
| EPause (rid : RecorderId)
| EResume (rid : RecorderId).

(** The listeners of the hook for one event.  The resume listeners are
    those the recorder has when the event is dispatched. *)
Definition dispatch (e : RecorderEvent) (w : World) : result World :=
  match e with
  | EDataAvailable _ data => Ok (onDataAvailable data w)
  | EStop rid => onStop rid w
  | EPause rid => Ok (onPause rid w)
  | EResume rid =>
      r ← lookupRecorder rid w;
      Ok (Nat.iter (resumeListeners r) onResume w)
  end.

Fixpoint dispatchAll (evs : list RecorderEvent) (w : World) : result World :=
  match evs with
  | [] => Ok w
  | e :: evs => w ← dispatch e w; dispatchAll evs w
  end.

(** ** MediaRecorder methods: the new state, and the events queued *)

(** recorder.start(timeslice) *)
Definition MediaRecorder_start (rid : RecorderId) (ts : Z) (w : World) : result World :=
  r ← lookupRecorder rid w;
  match rstate r with
  | RInactive =>
      Ok (updateRecorder rid
            {| rstate := RRecording; rstream := rstream r; rmimeType := rmimeType r;
               rbitsPerSecond := rbitsPerSecond r; rtimeslice := Some ts;
               resumeListeners := resumeListeners r |} w)
  | _ => Throw InvalidStateError w
  end.

(** recorder.stop(): the recorder becomes inactive; a dataavailable event
    with the data gathered since the last flush ([final]) and a stop event
    are queued. *)
Definition MediaRecorder_stop (rid : RecorderId) (final : Blob) (w : World) :
    result (World * list RecorderEvent) :=
  r ← lookupRecorder rid w;
  match rstate r with
  | RInactive => Throw InvalidStateError w
  | _ => Ok (updateRecorder rid (with_rstate RInactive r) w,
             [EDataAvailable rid final; EStop rid])
  end.

(** recorder.pause() *)
Definition MediaRecorder_pause (rid : RecorderId) (w : World) :
    result (World * list RecorderEvent) :=
  r ← lookupRecorder rid w;
  match rstate r with
  | RInactive => Throw InvalidStateError w
  | RPaused => Ok (w, [])
  | RRecording => Ok (updateRecorder rid (with_rstate RPaused r) w, [EPause rid])
  end.

(** recorder.resume() *)
Definition MediaRecorder_resume (rid : RecorderId) (w : World) :
    result (World * list RecorderEvent) :=
  r ← lookupRecorder rid w;
  match rstate r with
  | RInactive => Throw InvalidStateError w
  | RRecording => Ok (w, [])
  | RPaused => Ok (updateRecorder rid (with_rstate RRecording r) w, [EResume rid])
  end.

(** The stream is there and has a track. *)
Definition hasTracks (o : option MediaStream) : bool :=
  match o with
  | Some (_ :: _) => true
  | _ => false
  end.

(** What the browser does to a recorder once track.stop() has ended the
    tracks of the stream it records: a recorder that is not inactive is
    stopped, with the same two events as stop(); a stream without tracks
    has no track to end. *)
Definition MediaRecorder_tracksEnded (rid : RecorderId) (final : Blob) (w : World) :
    result (World * list RecorderEvent) :=
  r ← lookupRecorder rid w;
  match rstate r with
  | RInactive => Ok (w, [])
  | _ =>
      if hasTracks (streams (browser w) !! rstream r)
      then Ok (updateRecorder rid (with_rstate RInactive r) w,
               [EDataAvailable rid final; EStop rid])
      else Ok (w, [])
  end.

(** ** The hook, continued *)

(** The callback of getUserMedia(...).then (lines 94-172); [stream] is the
    granted stream, [answer] what getBestSupportedMimeType() does and
    [supported] whether new MediaRecorder accepts the format.  An
    exception leaves the refs written before it as they are. *)
Definition onGranted (stream : StreamId) (answer : option string) (supported : bool)
    (w : World) : result World :=
  let w := set_mediaStreamRef (Some stream) w in
  '(mimeType, w) ← getBestSupportedMimeType answer w;
  let w := set_mimeTypeRef (Some mimeType) w in
  '(recorder, w) ← MediaRecorder_new supported stream mimeType audioBitsPerSecond w;
  let w := set_mediaRecorderRef (Some recorder) w in
  w ← MediaRecorder_start recorder timeslice w;
  let w := _startTimer w in
  Ok (setState (fun prev =>
        {| status := Recording;
           recordingTime := recordingTime prev;
           recordingBlob := None;
           blobUrl := blobUrl prev;
           error := error prev |}) w).

(** startRecording (lines 83-173), up to the request; the promise has a
    then-callback and no rejection handler. *)
Definition startRecording (w : World) : World :=
  let w := reset w in
  snd (getUserMedia w).

(** The functions of the hook as calls: the effects made before the call
    returns, and the recorder events the call has queued. *)
Module Call.

(** stopRecording (lines 176-185) *)
Definition stopRecording (final : Blob) (w : World) :
    result (World * list RecorderEvent) :=
  match mediaRecorderRef (refs w) with
  | None => Ok (w, [])
  | Some rid =>
      r ← lookupRecorder rid w;
      match rstate r with
      | RInactive => Ok (w, [])
      | _ =>
          let w := _clearTimer w in
          MediaRecorder_stop rid final w
      end
  end.

(** togglePauseResume (lines 187-205); [rendered] is the state of the
    render the function was made in, which is what [state.status] and
    [state.blobUrl] read. *)
Definition togglePauseResume (rendered : AudioRecorderState) (w : World) :
    result (World * list RecorderEvent) :=
  match mediaRecorderRef (refs w) with
  | None => Ok (w, [])
  | Some rid =>
      r ← lookupRecorder rid w;
      match rstate r with
      | RInactive => Ok (w, [])
      | _ =>
          match status rendered with
          | Paused =>
              '(w, evs) ← MediaRecorder_resume rid w;
              Ok (_startTimer w, evs)
          | _ =>
              let w := _clearTimer w in
              let w := match blobUrl rendered with
                       | Some url => revokeObjectURL url w
                       | None => w
                       end in
              MediaRecorder_pause rid w
          end
      end
  end.

(** The cleanup of the effect (lines 208-213); the tracks it ends may make
    the browser stop the recorder. *)
Definition cleanup (final : Blob) (w : World) : result (World * list RecorderEvent) :=
  let recorder := mediaRecorderRef (refs w) in
  w ← _cleanTracks recorder w;
  let w := _clearTimer w in
  match recorder with
  | None => Ok (w, [])
  | Some rid => MediaRecorder_tracksEnded rid final w
  end.

End Call.

(** A function of the hook called from an event handler. *)
Inductive HookCall : Set :=
| CallStartRecording
| CallStopRecording (final : Blob)
| CallTogglePauseResume
| CallReleaseResources.

(** One call made by a handler of the render with state [rendered]. *)
Definition call (rendered : AudioRecorderState) (c : HookCall) (w : World) :
    result (World * list RecorderEvent) :=
  match c with
  | CallStartRecording => Ok (startRecording w, [])
  | CallStopRecording final => Call.stopRecording final w
  | CallTogglePauseResume => Call.togglePauseResume rendered w
  | CallReleaseResources => Ok (reset w, [])
  end.

(** The calls of one handler, in order; the events they queue pile up. *)
Fixpoint calls (rendered : AudioRecorderState) (cs : list HookCall) (w : World) :
    result (World * list RecorderEvent) :=
  match cs with
  | [] => Ok (w, [])
  | c :: cs =>
      '(w, evs) ← call rendered c w;
      '(w, evs') ← calls rendered cs w;
      Ok (w, evs ++ evs')
  end.

(** The end of a task: the events it queued are dispatched, in order,
    before any other call or callback runs. *)
Definition settle (r : result (World * list RecorderEvent)) : result World :=
  '(w, evs) ← r; dispatchAll evs w.

(** A handler that makes the calls [cs], followed by the events they
    queued. *)
Definition handler (cs : list HookCall) (w : World) : result World :=
  settle (calls (state w) cs w).

(** stopRecording, togglePauseResume and the cleanup, each called alone in
    a task and followed by the events it queued. *)
Definition stopRecording (final : Blob) (w : World) : result World :=
  settle (Call.stopRecording final w).

Definition togglePauseResume (w : World) : result World :=
  settle (Call.togglePauseResume (state w) w).

Definition cleanup (final : Blob) (w : World) : result World :=
  settle (Call.cleanup final w).

(** ** Executions *)

(** What can happen to the hook, one task each: a call of one of its
    functions, followed by the recorder events the call queued, or a
    callback the browser runs.  [GrantedUnsupported] is a granted request
    whose callback throws: the collaborator throws ([None]), or it returns
    a format that new MediaRecorder rejects. *)
Inductive Action : Set :=
| StartRecording
| StopRecording (final : Blob)
| TogglePauseResume
| ReleaseResources
| Unmount (final : Blob)
| Granted (q : RequestId) (stream : MediaStream) (mime : string)
| Denied (q : RequestId)
| DataAvailable (rid : RecorderId) (data : Blob)
| Tick (t : TimerId)
| GrantedUnsupported (q : RequestId) (stream : MediaStream) (answer : option string).

Definition step (a : Action) (w : World) : result World :=
  match a with
  | StartRecording => Ok (startRecording w)
  | StopRecording final => stopRecording final w
  | TogglePauseResume => togglePauseResume w
  | ReleaseResources => Ok (reset w)
  | Unmount final => cleanup final w
  | Granted q stream mime =>
      if isPending q w then
        let '(sid, w) := newStream stream (settleRequest q w) in
        onGranted sid (Some mime) true w
      else Ok w
  | Denied q =>
      if isPending q w then Ok (settleRequest q w) else Ok w
  | DataAvailable rid data =>
      match recorders (browser w) !! rid with
      | Some _ => Ok (onDataAvailable data w)
      | None => Ok w
      end
  | Tick t =>
      if isFiring t w then Ok (onTick w) else Ok w
  | GrantedUnsupported q stream answer =>
      if isPending q w then
        let '(sid, w) := newStream stream (settleRequest q w) in
        onGranted sid answer false w
      else Ok w
  end.

(** A run stops at the first exception. *)
Fixpoint run (tr : list Action) (w : World) : result World :=
  match tr with
  | [] => Ok w
  | a :: tr => w ← step a w; run tr w
  end.

(** The worlds the hook can be in.  An exception ends the task that threw
    it and nothing more: the hook goes on from the world it left. *)
Inductive reachable : World -> Prop :=
| reachable_initial : reachable initial_world
| reachable_step a w w' : reachable w -> step a w = Ok w' -> reachable w'
| reachable_throw a e w w' : reachable w -> step a w = Throw e w' -> reachable w'.

(** A blob of [n] zero bytes. *)
Definition zeros (n : nat) (type : string) : Blob :=
  {| blobData := repeat Byte.x00 n; blobType := type |}.

(** ** Notions used in the statements *)

(** No recorder is bound, or the bound one is inactive. *)
Definition noActiveRecorder (w : World) : bool :=
  match mediaRecorderRef (refs w) with
  | None => true
  | Some rid =>
      match recorders (browser w) !! rid with
      | Some r => bool_decide (rstate r = RInactive)
      | None => false
      end
  end.

(** The world after a complete session: the bound recorder is inactive. *)
Definition stopped_world : World :=
  match run [StartRecording; Granted 0 [Live] "audio/webm";
             StopRecording (zeros 4 "audio/webm")] initial_world with
  | Ok w => w
  | Throw _ _ => initial_world
  end.

(** The recorder [onGranted] leaves behind: made and started. *)
Definition startedRecorder (sid : StreamId) (mime : string) : MediaRecorder :=
  {| rstate := RRecording; rstream := sid; rmimeType := mime;
     rbitsPerSecond := audioBitsPerSecond; rtimeslice := Some timeslice;
     resumeListeners := 0 |}.

(** The exception of a granted request whose callback throws. *)
Definition grantException (answer : option string) : Exn :=
  match answer with
  | Some _ => NotSupportedError
  | None => CollaboratorError
  end.

(** The world such a callback leaves: the request is settled, the granted
    stream is in mediaStreamRef, the collaborator has been called, and the
    format it returned, when it returned, is in mimeTypeRef; no recorder
    is made and the status is as it was. *)
Definition failedGrant (q : RequestId) (s : MediaStream) (answer : option string)
    (w : World) : World :=
  let stored :=
    set_mimeCalls (S (mimeCalls (browser w)))
      (set_mediaStreamRef (Some (length (streams (browser w))))
         (set_streams (streams (browser w) ++ [s]) (settleRequest q w))) in
  match answer with
  | Some mime => set_mimeTypeRef (Some mime) stored
  | None => stored
  end.

(** The hook after a start whose request is still pending, followed by
    reset ([false]) or by a second startRecording ([true]). *)
Definition moved_on (again : bool) (w : World) : World :=
  if again then startRecording (startRecording w) else reset (startRecording w).

(** The chunks kept by the dataavailable listener. *)
Definition keepNonEmpty (l : list Blob) : list Blob :=
  List.filter (fun b => (0 <? blobSize b)%Z) l.

(** The recorder the hook is bound to, with its current fields. *)
Definition boundRecorder (w : World) : option (RecorderId * MediaRecorder) :=
  match mediaRecorderRef (refs w) with
  | Some rid =>
      match recorders (browser w) !! rid with
      | Some r => Some (rid, r)
      | None => None
      end
  | None => None
  end.

(** The object URLs left by revoking [o], when it is a URL. *)
Definition revoked (o : option ObjectURL) (ou : list (ObjectURL * Blob)) :
    list (ObjectURL * Blob) :=
  match o with
  | Some u => List.filter (fun p => negb (Nat.eqb (fst p) u)) ou
  | None => ou
  end.
Arguments revoked !o ou /.

(** The object URLs after revoking the one in the state, if any. *)
Definition afterRevoke (w : World) : list (ObjectURL * Blob) :=
  revoked (blobUrl (state w)) (objectUrls (browser w)).

(** The world the stop listener builds before it releases the tracks. *)
Definition stoppedBy (w : World) : World :=
  let audioBlob := newBlob (chunksRef (refs w)) (currentMimeType w) in
  setState (fun prev =>
    {| status := Stopped;
       recordingTime := recordingTime prev;
       recordingBlob := Some audioBlob;
       blobUrl := Some (nextUrl (browser w));
       error := error prev |})
    (_clearTimer (snd (createObjectURL audioBlob w))).

(** The hook revokes the URL of the state, when there is one. *)
Definition revokeCurrent (w : World) : World :=
  match blobUrl (state w) with
  | Some url => revokeObjectURL url w
  | None => w
  end.

(** The five ways a call of togglePauseResume ends normally. *)
Inductive toggle_outcome (w w' : World) : Prop :=
| toggle_ignored :
    noActiveRecorder w = true -> w' = w -> toggle_outcome w w'
| toggle_resumed rid r :
    boundRecorder w = Some (rid, r) -> rstate r = RPaused ->
    status (state w) = Paused ->
    w' = _startTimer (Nat.iter (resumeListeners r) onResume
                        (updateRecorder rid (with_rstate RRecording r) w)) ->
    toggle_outcome w w'
| toggle_resume_of_recording rid r :
    boundRecorder w = Some (rid, r) -> rstate r = RRecording ->
    status (state w) = Paused ->
    w' = _startTimer w ->
    toggle_outcome w w'
| toggle_paused rid r :
    boundRecorder w = Some (rid, r) -> rstate r = RRecording ->
    status (state w) <> Paused ->
    w' = onPause rid (updateRecorder rid (with_rstate RPaused r)
                        (revokeCurrent (_clearTimer w))) ->
    toggle_outcome w w'
| toggle_pause_of_paused rid r :
    boundRecorder w = Some (rid, r) -> rstate r = RPaused ->
    status (state w) <> Paused ->
    w' = revokeCurrent (_clearTimer w) ->
    toggle_outcome w w'.

(** The two ways a call of stopRecording ends normally; [ss] are the
    streams once the tracks are stopped. *)
Inductive stop_outcome (final : Blob) (w w' : World) : Prop :=
| stop_ignored :
    noActiveRecorder w = true -> w' = w -> stop_outcome final w w'
| stop_done rid r ss :
    boundRecorder w = Some (rid, r) -> rstate r <> RInactive ->
    length ss = length (streams (browser w)) ->
    w' = set_streams ss
           (stoppedBy (onDataAvailable final
              (updateRecorder rid (with_rstate RInactive r) (_clearTimer w)))) ->
    stop_outcome final w w'.

(** The two ways the unmount cleanup ends normally: the tracks are ended
    and the timer cleared, and when that ended the tracks of a bound
    recorder that was not inactive, the browser has stopped it and the
    stop listener has run.  [ss] are the streams after the cleanup, [ss']
    those after the stop listener. *)
Inductive unmount_outcome (final : Blob) (w w' : World) : Prop :=
| unmount_cleaned ss :
    length ss = length (streams (browser w)) ->
    w' = _clearTimer (set_streams ss w) -> unmount_outcome final w w'
| unmount_stopped rid r ss ss' :
    boundRecorder w = Some (rid, r) -> rstate r <> RInactive ->
    length ss = length (streams (browser w)) ->
    length ss' = length (streams (browser w)) ->
    w' = set_streams ss'
           (stoppedBy (onDataAvailable final
              (updateRecorder rid (with_rstate RInactive r)
                 (_clearTimer (set_streams ss w))))) ->
    unmount_outcome final w w'.

(** The intervals left by clearing [o], when it is an interval. *)
Definition cleared (o : option TimerId) (iv : list TimerId) : list TimerId :=
  match o with
  | Some t => List.filter (fun x => negb (Nat.eqb x t)) iv
  | None => iv
  end.
Arguments cleared !o iv /.

(** The intervals that still fire once the hook's timer is cleared. *)
Definition clearedIntervals (w : World) : list TimerId :=
  cleared (timerIntervalRef (refs w)) (intervals (browser w)).

(** The blob [new Blob(chunksRef.current, { type: mimeTypeRef.current })]
    would be in a given world. *)
Definition assembled (w : World) : Blob :=
  newBlob (chunksRef (refs w)) (currentMimeType w).



(** What happens between the grant and the stop of one session. *)
Inductive SessionEvent : Set :=
| SToggle                      (* a call of togglePauseResume *)
| SFragment (data : Blob)      (* the recorder fires dataavailable *)
| STick (t : TimerId).         (* an interval elapses *)

(** The action a session event is, for the session of recorder [rid]. *)
Definition sessionAction (rid : RecorderId) (e : SessionEvent) : Action :=
  match e with
  | SToggle => TogglePauseResume
  | SFragment data => DataAvailable rid data
  | STick t => Tick t
  end.

(** The fragments delivered, in arrival order. *)
Definition fragmentsOf (evs : list SessionEvent) : list Blob :=
  flat_map (fun e => match e with SFragment data => [data] | _ => [] end) evs.

(** The script of a whole session on recorder [rid]. *)
Definition session (q : RequestId) (s : MediaStream) (mime : string)
    (rid : RecorderId) (evs : list SessionEvent) (final : Blob) : list Action :=
  StartRecording :: Granted q s mime ::
  List.map (sessionAction rid) evs ++ [StopRecording final].

(** The hook is bound to recorder [rid], which is not inactive and records
    a stream of the store, and holds format [mime]. *)
Definition inSession (rid : RecorderId) (mime : string) (w : World) : Prop :=
  mediaRecorderRef (refs w) = Some rid /\
  mimeTypeRef (refs w) = Some mime /\
  exists r, recorders (browser w) !! rid = Some r /\ rstate r <> RInactive /\
            is_Some (streams (browser w) !! rstream r).

(** The sum of the sizes of a list of blobs. *)
Definition totalSize (l : list Blob) : Z :=
  fold_right Z.add 0%Z (List.map blobSize l).

(** The fragment an action delivers to the dataavailable listener: the
    data of a dataavailable event, or the final flush of stopRecording. *)
Definition deliveredBy (a : Action) : list Blob :=
  match a with
  | DataAvailable _ data => [data]
  | StopRecording final => [final]
  | _ => []
  end.

(** The fragments of a run that are delivered while status is recording,
    in arrival order, as the specification words it. *)
Fixpoint deliveredWhileRecording (tr : list Action) (w : World) : list Blob :=
  match tr with
  | [] => []
  | a :: tr =>
      (if bool_decide (status (state w) = Recording) then deliveredBy a else [])
      ++ match step a w with
         | Ok w' => deliveredWhileRecording tr w'
         | Throw _ _ => []
         end
  end.

(** A session paused after one fragment of 120 bytes. *)
Definition paused_after_one_fragment : list Action :=
  [StartRecording; Granted 0 [Live] "audio/webm";
   DataAvailable 0 (zeros 120 "audio/webm"); TogglePauseResume].

(** The only interval that fires is the one in timerIntervalRef. *)
Definition timerInv (w : World) : Prop :=
  intervals (browser w) =
  match timerIntervalRef (refs w) with Some t => [t] | None => [] end.

(** While status is paused no timer is set, and the bound recorder is
    paused and has a resume listener. *)
Definition pausedInv (w : World) : Prop :=
  status (state w) = Paused ->
  timerIntervalRef (refs w) = None /\
  exists rid r, boundRecorder w = Some (rid, r) /\ rstate r = RPaused /\
                0 < resumeListeners r.


(** Two seconds of recording, then a pause. *)
Definition two_seconds_then_pause : list Action :=
  [StartRecording; Granted 0 [Live] "audio/webm"; Tick 0;
   DataAvailable 0 (zeros 5 "audio/webm"); Tick 0; TogglePauseResume].

(** The world that script leads to. *)
Definition paused_after_two_seconds : World :=
  match run two_seconds_then_pause initial_world with
  | Ok w => w
  | Throw _ _ => initial_world
  end.

(** The recorder ref names a recorder of the store, and every recorder
    records a stream of the store. *)
Definition storeInv (w : World) : Prop :=
  (forall rid, mediaRecorderRef (refs w) = Some rid ->
               rid < length (List.map rstream (recorders (browser w)))) /\
  Forall (fun sid => sid < length (streams (browser w)))
         (List.map rstream (recorders (browser w))).

(** ** What the hook returns *)

(** interface AudioRecorderHook, the observable part (lines 26-39); the
    functions it also holds are the actions of [step]. *)
Module AudioRecorderHook.
Record t : Set := mk {
  audioUrl : option ObjectURL;
  status : Status;
  isPaused : bool;
  isRecording : bool;
  isStopped : bool;
  recordingTime : Z;
  mediaRecorder : option RecorderId;
  recordingBlob : option Blob
}.
End AudioRecorderHook.

(** The object useAudioRecorder returns (lines 215-228). *)
Definition useAudioRecorder (w : World) : AudioRecorderHook.t :=
  {| AudioRecorderHook.audioUrl := blobUrl (state w);
     AudioRecorderHook.status := status (state w);
     AudioRecorderHook.isPaused := bool_decide (status (state w) = Paused);
     AudioRecorderHook.isRecording := bool_decide (status (state w) = Recording);
     AudioRecorderHook.isStopped := bool_decide (status (state w) = Stopped);
     AudioRecorderHook.recordingTime := recordingTime (state w);
     AudioRecorderHook.mediaRecorder := mediaRecorderRef (refs w);
     AudioRecorderHook.recordingBlob := recordingBlob (state w) |}.

(** ** Further notions: what the reachable worlds keep *)

(** The status that goes with a recorder state. *)
Definition statusOfRecorder (s : RecordingState) : Status :=
  match s with
  | RInactive => Stopped
  | RRecording => Recording
  | RPaused => Paused
  end.

(** The status that goes with the bound recorder: idle without one. *)
Definition expectedStatus (w : World) : Status :=
  match boundRecorder w with
  | Some (_, r) => statusOfRecorder (rstate r)
  | None => Idle
  end.

(** The status mirrors the bound recorder. *)
Definition statusInv (w : World) : Prop :=
  status (state w) = expectedStatus w.


(** What a URL resolves to: the blob it was issued for, while not revoked. *)
Definition resolveURL (u : ObjectURL) (w : World) : option Blob :=
  option_map snd (List.find (fun p => Nat.eqb (fst p) u) (objectUrls (browser w))).

(** Issued URLs are older than the next one, and the URL of the state
    resolves, to the blob of the state when there is one. *)
Definition urlInv (w : World) : Prop :=
  Forall (fun p => fst p < nextUrl (browser w)) (objectUrls (browser w)) /\
  forall u, blobUrl (state w) = Some u ->
    exists b, resolveURL u w = Some b /\
              forall b', recordingBlob (state w) = Some b' -> b' = b.

(** No chunk is empty. *)
Definition chunksInv (w : World) : Prop :=
  Forall (fun b => (0 < blobSize b)%Z) (chunksRef (refs w)).

(** The blob of the state has the bytes of the first chunks. *)
Definition artifactInv (w : World) : Prop :=
  forall b, recordingBlob (state w) = Some b ->
    exists rest,
      List.concat (List.map blobData (chunksRef (refs w))) = blobData b ++ rest.

(** What a recorder was made and started with. *)
Definition recorderMade (r : MediaRecorder) : StreamId * Z * option Z :=
  (rstream r, rbitsPerSecond r, rtimeslice r).

(** One call of the collaborator per granted stream; every recorder
    records a stream of the store with the options of RECORDER_OPTIONS,
    and a later recorder records a later stream. *)
Definition bookInv (w : World) : Prop :=
  mimeCalls (browser w) = length (streams (browser w)) /\
  (forall (i : RecorderId) r, recorders (browser w) !! i = Some r ->
     rstream r < length (streams (browser w)) /\
     rbitsPerSecond r = audioBitsPerSecond /\
     rtimeslice r = Some timeslice) /\
  (forall (i j : RecorderId) ri rj, i < j ->
     recorders (browser w) !! i = Some ri ->
     recorders (browser w) !! j = Some rj ->
     rstream ri < rstream rj).

(** While status is idle the state is the initial one, and no recorder and
    no timer is bound. *)
Definition idleInv (w : World) : Prop :=
  status (state w) = Idle ->
  state w = INITIAL_STATE /\
  mediaRecorderRef (refs w) = None /\
  timerIntervalRef (refs w) = None.

(** While status is paused or stopped the state holds a blob and a URL. *)
Definition producedInv (w : World) : Prop :=
  status (state w) = Paused \/ status (state w) = Stopped ->
  exists b u, recordingBlob (state w) = Some b /\ blobUrl (state w) = Some u.

(** Every track of the stream has ended. *)
Definition allEnded (s : MediaStream) : Prop := Forall (fun t => t = Ended) s.


(** Two sessions started one after the other from [w], the first never
    stopped, then a fragment of the first recorder and the stop of the
    second. *)
Definition abandoned_then_stopped (w : World) (s1 s2 : MediaStream)
    (mime1 mime2 : string) (data final : Blob) : list Action :=
  [StartRecording;
   Granted (nextRequest (browser w)) s1 mime1;
   StartRecording;
   Granted (S (nextRequest (browser w))) s2 mime2;
   DataAvailable (length (recorders (browser w))) data;
   StopRecording final].

(** A recording session one second old with one chunk. *)
Definition one_second_in : list Action :=
  [StartRecording; Granted 0 [Live; Live] "audio/webm"; Tick 0;
   DataAvailable 0 (zeros 6 "audio/webm")].

Definition recording_after_one_second : World :=
  match run one_second_in initial_world with
  | Ok w => w
  | Throw _ _ => initial_world
  end.

(** The same session stopped with a final flush of two bytes. *)
Definition stopped_after_one_second : World :=
  match run (one_second_in ++ [StopRecording (zeros 2 "audio/webm")]) initial_world with
  | Ok w => w
  | Throw _ _ => initial_world
  end.

(** ** Notions for handlers that make any number of calls *)

(** What every call and every listener keeps, whatever the order of the
    calls: the refs name objects of the stores, the only interval that
    fires is the one in timerIntervalRef, no chunk is empty, and the
    streams, recorders and collaborator calls are in step. *)
Definition soundInv (w : World) : Prop :=
  storeInv w /\ timerInv w /\ chunksInv w /\ bookInv w.

(** An update of the world that keeps [soundInv] and makes no recorder. *)
Definition keepsSound (f : World -> World) : Prop :=
  forall w, soundInv w ->
    soundInv (f w) /\
    length (recorders (browser (f w))) = length (recorders (browser w)).

(** The recorder an event is fired at. *)
Definition eventRecorder (e : RecorderEvent) : RecorderId :=
  match e with
  | EDataAvailable rid _ => rid
  | EStop rid => rid
  | EPause rid => rid
  | EResume rid => rid
  end.

(** The events are fired at recorders of the store. *)
Definition eventsFor (w : World) (evs : list RecorderEvent) : Prop :=
  Forall (fun e => eventRecorder e < length (recorders (browser w))) evs.

(** A call returns, in a world that is sound again, with events for
    recorders of the store. *)
Definition callSound (w : World) (r : result (World * list RecorderEvent)) : Prop :=
  exists w' evs, r = Ok (w', evs) /\ soundInv w' /\
    length (recorders (browser w')) = length (recorders (browser w)) /\
    eventsFor w evs.

(** A task of the page: an event handler that makes any calls of the
    hook, in any order, or one of the actions of [step]. *)
Inductive Task : Set :=
| THandler (cs : list HookCall)
| TAction (a : Action).

Definition perform (t : Task) (w : World) : result World :=
  match t with
  | THandler cs => handler cs w
  | TAction a => step a w
  end.

(** The worlds the hook can be in when handlers may make several calls. *)
Inductive reachableByHandlers : World -> Prop :=
| byHandlers_initial : reachableByHandlers initial_world
| byHandlers_step t w w' :
    reachableByHandlers w -> perform t w = Ok w' -> reachableByHandlers w'
| byHandlers_throw t e w w' :
    reachableByHandlers w -> perform t w = Throw e w' -> reachableByHandlers w'.

(** The session of [recording_after_one_second] after a handler that calls
    stopRecording and then reset. *)
Definition stopped_and_reset_at_once : World :=
  match handler [CallStopRecording (zeros 2 "audio/webm"); CallReleaseResources]
                recording_after_one_second with
  | Ok w => w
  | Throw _ _ => initial_world
  end.

(** ** Basic facts about the browser operations *)

Lemma existsb_eqb_filter_ne (t : nat) (l : list nat) :
  existsb (Nat.eqb t) (List.filter (fun x => negb (Nat.eqb x t)) l) = false.
Proof.
  induction l as [|x l IH]; simpl; [reflexivity|].
  destruct (Nat.eqb x t) eqn:E; simpl; [exact IH|].
  rewrite Nat.eqb_sym, E. exact IH.
Qed.

Lemma existsb_eqb_app_last (t : nat) (l : list nat) :
  existsb (Nat.eqb t) (l ++ [t]) = true.
Proof.
  rewrite existsb_app. simpl. rewrite Nat.eqb_refl.
  destruct (existsb (Nat.eqb t) l); reflexivity.
Qed.

Lemma blobSize_newBlob (parts : list Blob) (type : string) :
  blobSize (newBlob parts type) = fold_right Z.add 0%Z (List.map blobSize parts).
Proof.
  unfold blobSize, newBlob; simpl.
  induction parts as [|p parts IH]; simpl; [reflexivity|].
  rewrite length_app, Nat2Z.inj_add, IH. reflexivity.
Qed.

Lemma stopTracks_idempotent (s : MediaStream) :
  stopTracks (stopTracks s) = stopTracks s.
Proof. unfold stopTracks. rewrite List.map_map. reflexivity. Qed.

Lemma stopTracks_all_ended (s : MediaStream) :
  Forall (fun t => t = Ended) (stopTracks s).
Proof. unfold stopTracks. induction s; simpl; constructor; auto. Qed.

(** Splitting a world into its fields, for proofs by computation. *)
Ltac world w :=
  let st := fresh "st" in let tm := fresh "tm" in let bl := fresh "bl" in
  let url := fresh "url" in let er := fresh "er" in
  let mr := fresh "mr" in let ms := fresh "ms" in let ch := fresh "ch" in
  let ti := fresh "ti" in let mt := fresh "mt" in
  let rs := fresh "rs" in let ss := fresh "ss" in let iv := fresh "iv" in
  let ni := fresh "ni" in let ou := fresh "ou" in let nu := fresh "nu" in
  let pr := fresh "pr" in let nr := fresh "nr" in let mc := fresh "mc" in
  destruct w as [[st tm bl url er] [mr ms ch ti mt] [rs ss iv ni ou nu pr nr mc]].

(** Running the model on a concrete input. *)
Ltac evaluate := vm_compute; reflexivity.

(** ** reset and the guards: idempotence *)

Lemma clearTimer_idempotent (w : World) : _clearTimer (_clearTimer w) = _clearTimer w.
Proof. world w. destruct ti; reflexivity. Qed.

Lemma reset_reset (w : World) : reset (reset w) = reset w.
Proof. world w. destruct ti; reflexivity. Qed.

(** ** A call followed by the events it queued *)

Lemma clearTimer_recorders (w : World) :
  recorders (browser (_clearTimer w)) = recorders (browser w).
Proof. world w. destruct ti; reflexivity. Qed.

Lemma clearTimer_streams (w : World) :
  streams (browser (_clearTimer w)) = streams (browser w).
Proof. world w. destruct ti; reflexivity. Qed.

Lemma startTimer_recorders (w : World) :
  recorders (browser (_startTimer w)) = recorders (browser w).
Proof. world w. destruct ti; reflexivity. Qed.

Lemma revokeCurrent_recorders (w : World) :
  recorders (browser (revokeCurrent w)) = recorders (browser w).
Proof. world w. destruct url; reflexivity. Qed.

Lemma onStop_unfold (rid : RecorderId) (w : World) :
  onStop rid w = _cleanTracks (Some rid) (stoppedBy w).
Proof. reflexivity. Qed.

Lemma bind_Ok (r : result World) : (w ← r; Ok w) = r.
Proof. destruct r; reflexivity. Qed.

Lemma lookup_insert_same {A} (l : list A) (i : nat) (x y : A) :
  l !! i = Some x -> <[i := y]> l !! i = Some y.
Proof. intros H. apply list_lookup_insert_eq. eapply lookup_lt_Some; eauto. Qed.

Lemma startTimer_iter_onResume (n : nat) (w : World) :
  Nat.iter n onResume (_startTimer w) = _startTimer (Nat.iter n onResume w).
Proof.
  induction n as [|n IH]; [reflexivity|].
  change (Nat.iter (S n) onResume (_startTimer w))
    with (onResume (Nat.iter n onResume (_startTimer w))).
  change (Nat.iter (S n) onResume w) with (onResume (Nat.iter n onResume w)).
  rewrite IH. generalize (Nat.iter n onResume w). intros w0.
  world w0. destruct ti; reflexivity.
Qed.

(** stopRecording called alone: the stop listener finds the chunks with
    the final flush appended. *)
Lemma stopRecording_eq (final : Blob) (w : World) :
  stopRecording final w =
  match mediaRecorderRef (refs w) with
  | None => Ok w
  | Some rid =>
      r ← lookupRecorder rid w;
      match rstate r with
      | RInactive => Ok w
      | _ => onStop rid (onDataAvailable final
               (updateRecorder rid (with_rstate RInactive r) (_clearTimer w)))
      end
  end.
Proof.
  unfold stopRecording, settle, Call.stopRecording, MediaRecorder_stop, lookupRecorder.
  destruct (mediaRecorderRef (refs w)) as [rid|]; [|reflexivity].
  destruct (recorders (browser w) !! rid) as [r|] eqn:Hr; [|reflexivity].
  cbn [mbind result_bind]. rewrite clearTimer_recorders, Hr.
  cbn [mbind result_bind].
  destruct (rstate r); cbn [mbind result_bind dispatchAll dispatch];
    try reflexivity; apply bind_Ok.
Qed.

(** togglePauseResume called alone, from the render of the current
    state. *)
Lemma togglePauseResume_eq (w : World) :
  togglePauseResume w =
  match mediaRecorderRef (refs w) with
  | None => Ok w
  | Some rid =>
      r ← lookupRecorder rid w;
      match rstate r with
      | RInactive => Ok w
      | RRecording =>
          match status (state w) with
          | Paused => Ok (_startTimer w)
          | _ => Ok (onPause rid (updateRecorder rid (with_rstate RPaused r)
                                    (revokeCurrent (_clearTimer w))))
          end
      | RPaused =>
          match status (state w) with
          | Paused => Ok (_startTimer (Nat.iter (resumeListeners r) onResume
                                         (updateRecorder rid (with_rstate RRecording r) w)))
          | _ => Ok (revokeCurrent (_clearTimer w))
          end
      end
  end.
Proof.
  unfold togglePauseResume, settle, Call.togglePauseResume, lookupRecorder.
  destruct (mediaRecorderRef (refs w)) as [rid|]; [|reflexivity].
  destruct (recorders (browser w) !! rid) as [r|] eqn:Hr; [|reflexivity].
  cbn [mbind result_bind].
  assert (Hrev : match blobUrl (state w) with
                 | Some url => revokeObjectURL url (_clearTimer w)
                 | None => _clearTimer w
                 end = revokeCurrent (_clearTimer w)).
  { world w. destruct ti; reflexivity. }
  destruct (rstate r) eqn:Hst; [reflexivity|..].
  - destruct (decide (status (state w) = Paused)) as [Hp|Hp].
    + rewrite Hp. unfold MediaRecorder_resume, lookupRecorder. rewrite Hr.
      cbn [mbind result_bind]. rewrite Hst. reflexivity.
    + assert (E : forall A (x y : A), match status (state w) with Paused => x | _ => y end = y)
        by (intros; destruct (status (state w)); congruence).
      rewrite !E, Hrev. unfold MediaRecorder_pause, lookupRecorder.
      rewrite revokeCurrent_recorders, clearTimer_recorders, Hr.
      cbn [mbind result_bind]. rewrite Hst. reflexivity.
  - destruct (decide (status (state w) = Paused)) as [Hp|Hp].
    + rewrite Hp. unfold MediaRecorder_resume, lookupRecorder. rewrite Hr.
      cbn [mbind result_bind]. rewrite Hst.
      cbn [mbind result_bind dispatchAll dispatch]. unfold lookupRecorder.
      assert (Hl : recorders (browser (_startTimer
                     (updateRecorder rid (with_rstate RRecording r) w))) !! rid
                   = Some (with_rstate RRecording r)).
      { rewrite startTimer_recorders. unfold updateRecorder. cbn -[lookup insert].
        eapply lookup_insert_same; eauto. }
      rewrite Hl. cbn [mbind result_bind with_rstate resumeListeners].
      rewrite startTimer_iter_onResume. reflexivity.
    + assert (E : forall A (x y : A), match status (state w) with Paused => x | _ => y end = y)
        by (intros; destruct (status (state w)); congruence).
      rewrite !E, Hrev. unfold MediaRecorder_pause, lookupRecorder.
      rewrite revokeCurrent_recorders, clearTimer_recorders, Hr.
      cbn [mbind result_bind]. rewrite Hst. reflexivity.
Qed.

Lemma stopRecording_unbound (final : Blob) (w : World) :
  noActiveRecorder w = true -> stopRecording final w = Ok w.
Proof.
  rewrite stopRecording_eq. unfold noActiveRecorder, lookupRecorder.
  destruct (mediaRecorderRef (refs w)) as [rid|]; [|reflexivity].
  destruct (recorders (browser w) !! rid) as [r|]; [|discriminate].
  intros H%bool_decide_eq_true. simpl. rewrite H. reflexivity.
Qed.

Lemma togglePauseResume_unbound (w : World) :
  noActiveRecorder w = true -> togglePauseResume w = Ok w.
Proof.
  rewrite togglePauseResume_eq. unfold noActiveRecorder, lookupRecorder.
  destruct (mediaRecorderRef (refs w)) as [rid|]; [|reflexivity].
  destruct (recorders (browser w) !! rid) as [r|]; [|discriminate].
  intros H%bool_decide_eq_true. simpl. rewrite H. reflexivity.
Qed.

(** C6.  Calling reset twice in a row gives the state one call gives;
    stopRecording and togglePauseResume, called when no recorder is bound
    or the bound recorder is inactive, return normally and leave the whole
    world (state, refs and browser objects) as it was. *)
Theorem reset_idempotent_and_unbound_calls_are_noops (w : World) (final : Blob) :
  reset (reset w) = reset w /\
  step ReleaseResources (reset w) = Ok (reset w) /\
  (noActiveRecorder w = true ->
   stopRecording final w = Ok w /\ togglePauseResume w = Ok w).
Proof.
  split; [apply reset_reset|]. split.
  - simpl. f_equal. apply reset_reset.
  - intros H. split.
    + apply stopRecording_unbound, H.
    + apply togglePauseResume_unbound, H.
Qed.

Lemma reset_idempotent_and_unbound_calls_are_noops_witness :
  noActiveRecorder stopped_world = true /\
  mediaRecorderRef (refs stopped_world) = Some 0 /\
  stopRecording (zeros 2 "audio/webm") stopped_world = Ok stopped_world /\
  togglePauseResume stopped_world = Ok stopped_world.
Proof.
  split; [evaluate|]. split; [evaluate|].
  apply (reset_idempotent_and_unbound_calls_are_noops stopped_world
           (zeros 2 "audio/webm")).
  evaluate.
Defined.

(** ** Starting *)

Lemma clearTimer_not_firing (w : World) (t : TimerId) :
  timerIntervalRef (refs w) = Some t -> isFiring t (_clearTimer w) = false.
Proof.
  world w. simpl. intros ->. unfold isFiring; simpl.
  apply existsb_eqb_filter_ne.
Qed.

Lemma startRecording_state (w : World) : state (startRecording w) = INITIAL_STATE.
Proof. world w. destruct ti; reflexivity. Qed.

Lemma startRecording_refs (w : World) :
  refs (startRecording w) =
  {| mediaRecorderRef := None; mediaStreamRef := None; chunksRef := [];
     timerIntervalRef := None; mimeTypeRef := mimeTypeRef (refs w) |}.
Proof. world w. destruct ti; reflexivity. Qed.

(** C10.  startRecording is accepted whatever the status: before it
    requests the device it puts back the initial state (status idle,
    recordingTime 0, no blob, no URL, no error), empties the chunks, drops
    the recorder and stream refs and cancels the timer; the request is the
    only thing it adds. *)
Theorem startRecording_begins_from_initial_state (w : World) :
  step StartRecording w = Ok (startRecording w) /\
  startRecording w = snd (getUserMedia (reset w)) /\
  state (reset w) = INITIAL_STATE /\
  state (startRecording w) = INITIAL_STATE /\
  status (state (startRecording w)) = Idle /\
  recordingTime (state (startRecording w)) = 0%Z /\
  recordingBlob (state (startRecording w)) = None /\
  blobUrl (state (startRecording w)) = None /\
  error (state (startRecording w)) = None /\
  chunksRef (refs (startRecording w)) = [] /\
  mediaRecorderRef (refs (startRecording w)) = None /\
  mediaStreamRef (refs (startRecording w)) = None /\
  timerIntervalRef (refs (startRecording w)) = None /\
  (forall t, timerIntervalRef (refs w) = Some t ->
             isFiring t (startRecording w) = false) /\
  pendingRequests (browser (startRecording w)) =
    pendingRequests (browser w) ++ [nextRequest (browser w)].
Proof.
  rewrite !startRecording_state, !startRecording_refs.
  repeat split; try (world w; destruct ti; reflexivity).
  intros t Ht. world w. simpl in Ht. subst ti. unfold isFiring; simpl.
  apply existsb_eqb_filter_ne.
Qed.

(** ** The resolution callback *)

Lemma insert_snoc {A} (l : list A) (x y : A) :
  <[length l := y]> (l ++ [x]) = l ++ [y].
Proof.
  replace (length l) with (length l + 0) by lia.
  rewrite insert_app_r. reflexivity.
Qed.

Lemma lookup_snoc {A} (l : list A) (x : A) : (l ++ [x]) !! length l = Some x.
Proof. apply list_lookup_middle. reflexivity. Qed.

(** What the resolution callback does, field by field; it reads neither
    the status nor any other mark of the session it was requested for. *)
Lemma onGranted_spec (sid : StreamId) (mime : string) (w : World) :
  exists w',
    onGranted sid (Some mime) true w = Ok w' /\
    state w' = {| status := Recording;
                  recordingTime := recordingTime (state w);
                  recordingBlob := None;
                  blobUrl := blobUrl (state w);
                  error := error (state w) |} /\
    refs w' = {| mediaRecorderRef := Some (length (recorders (browser w)));
                 mediaStreamRef := Some sid;
                 chunksRef := chunksRef (refs w);
                 timerIntervalRef := Some (nextInterval (browser w));
                 mimeTypeRef := Some mime |} /\
    recorders (browser w') = recorders (browser w) ++ [startedRecorder sid mime] /\
    streams (browser w') = streams (browser w) /\
    intervals (browser w') = intervals (browser (_clearTimer w)) ++ [nextInterval (browser w)] /\
    objectUrls (browser w') = objectUrls (browser w) /\
    nextUrl (browser w') = nextUrl (browser w) /\
    pendingRequests (browser w') = pendingRequests (browser w) /\
    mimeCalls (browser w') = S (mimeCalls (browser w)).
Proof.
  world w. unfold onGranted, getBestSupportedMimeType, MediaRecorder_new,
    MediaRecorder_start, lookupRecorder.
  cbn -[lookup insert]. rewrite lookup_snoc.
  cbn -[insert]. unfold updateRecorder. cbn -[insert]. rewrite insert_snoc.
  destruct ti; eexists; (split; [reflexivity|]); repeat split; reflexivity.
Qed.

Lemma step_Granted_spec (q : RequestId) (s : MediaStream) (mime : string) (w : World) :
  isPending q w = true ->
  exists w',
    step (Granted q s mime) w = Ok w' /\
    state w' = {| status := Recording;
                  recordingTime := recordingTime (state w);
                  recordingBlob := None;
                  blobUrl := blobUrl (state w);
                  error := error (state w) |} /\
    refs w' = {| mediaRecorderRef := Some (length (recorders (browser w)));
                 mediaStreamRef := Some (length (streams (browser w)));
                 chunksRef := chunksRef (refs w);
                 timerIntervalRef := Some (nextInterval (browser w));
                 mimeTypeRef := Some mime |} /\
    recorders (browser w') =
      recorders (browser w) ++ [startedRecorder (length (streams (browser w))) mime] /\
    streams (browser w') = streams (browser w) ++ [s] /\
    objectUrls (browser w') = objectUrls (browser w) /\
    isPending q w' = false /\
    mimeCalls (browser w') = S (mimeCalls (browser w)).
Proof.
  intros Hp. unfold step. rewrite Hp.
  destruct (newStream s (settleRequest q w)) as [sid w1] eqn:E.
  unfold newStream in E. injection E as <- <-.
  match goal with |- context [onGranted ?a (Some ?b) true ?c] =>
    destruct (onGranted_spec a b c) as (w' & -> & Hs & Hr & Hrec & Hst & _ & Hou & _ & Hpr & Hmc)
  end.
  exists w'. split; [reflexivity|].
  rewrite Hs, Hr, Hrec, Hst, Hou, Hmc. unfold isPending. rewrite Hpr.
  world w. cbn. repeat split. apply existsb_eqb_filter_ne.
Qed.

(** A granted request whose callback throws: the exception, and the world
    it leaves. *)
Lemma step_GrantedUnsupported_spec (q : RequestId) (s : MediaStream)
    (answer : option string) (w : World) :
  isPending q w = true ->
  step (GrantedUnsupported q s answer) w
  = Throw (grantException answer) (failedGrant q s answer w).
Proof.
  intros Hp. unfold step. rewrite Hp. world w. destruct answer; reflexivity.
Qed.

Lemma step_GrantedUnsupported_inv (q : RequestId) (s : MediaStream)
    (answer : option string) (w w' : World) :
  step (GrantedUnsupported q s answer) w = Ok w' -> isPending q w = false /\ w' = w.
Proof.
  destruct (isPending q w) eqn:Hp.
  - rewrite (step_GrantedUnsupported_spec q s answer w Hp). discriminate.
  - unfold step. rewrite Hp. intros [= <-]. auto.
Qed.

Lemma isPending_startRecording (w : World) :
  isPending (nextRequest (browser w)) (startRecording w) = true.
Proof. world w. destruct ti; apply existsb_eqb_app_last. Qed.

Lemma isPending_reset (q : RequestId) (w : World) :
  isPending q (reset w) = isPending q w.
Proof. world w. destruct ti; reflexivity. Qed.

Lemma isPending_later_start (w : World) :
  isPending (nextRequest (browser w)) (startRecording (startRecording w)) = true.
Proof.
  world w. destruct ti; unfold isPending; cbn;
    rewrite existsb_app, existsb_eqb_app_last; reflexivity.
Qed.

(** ** A rejected request *)

Lemma step_Denied_frame (q : RequestId) (w : World) :
  exists w', step (Denied q) w = Ok w' /\ state w' = state w /\ refs w' = refs w /\
             isPending q w' = false.
Proof.
  unfold step. destruct (isPending q w) eqn:E.
  - eexists; split; [reflexivity|]. world w. repeat split.
    apply existsb_eqb_filter_ne.
  - eexists; split; [reflexivity|]. auto.
Qed.

(** C2 as specified fails on this run: after one startRecording whose
    request is rejected, [error] is null and not the failure. *)
Lemma rejected_start_records_no_error :
  exists w',
    run [StartRecording; Denied 0] initial_world = Ok w' /\
    status (state w') = Idle /\
    error (state w') = None.
Proof. eexists. split; [evaluate|]. vm_compute. split; reflexivity. Qed.

(** C2, amended.  When the request issued by startRecording is rejected,
    nothing of the hook runs (the promise has no rejection handler): the
    state is the initial one (status idle, error null, no blob, no URL),
    the chunks are empty, no recorder, stream or timer is bound, and a
    later startRecording whose request is granted reaches recording. *)
Theorem rejected_start_stays_idle (w : World) (s : MediaStream) (mime : string) :
  exists w',
    run [StartRecording; Denied (nextRequest (browser w))] w = Ok w' /\
    state w' = INITIAL_STATE /\
    status (state w') = Idle /\
    error (state w') = None /\
    chunksRef (refs w') = [] /\
    mediaRecorderRef (refs w') = None /\
    mediaStreamRef (refs w') = None /\
    timerIntervalRef (refs w') = None /\
    isPending (nextRequest (browser w)) w' = false /\
    exists w'',
      run [StartRecording; Granted (nextRequest (browser w')) s mime] w' = Ok w'' /\
      status (state w'') = Recording /\
      chunksRef (refs w'') = [].
Proof.
  cbn [run mbind result_bind step].
  destruct (step_Denied_frame (nextRequest (browser w)) (startRecording w))
    as (w' & Hd & Hs & Hr & Hp).
  unfold step in Hd. rewrite Hd. exists w'. split; [reflexivity|].
  rewrite Hs, Hr, startRecording_state, startRecording_refs.
  repeat (split; [reflexivity || exact Hp|]).
  destruct (step_Granted_spec (nextRequest (browser w')) s mime (startRecording w')
              (isPending_startRecording w')) as (w'' & Hg & Hs' & Hr' & _).
  exists w''. unfold step in Hg. rewrite Hg. split; [reflexivity|].
  rewrite Hs', Hr', startRecording_refs. split; reflexivity.
Qed.

(** ** A resolution that arrives late *)

(** C3 as specified fails on this run: startRecording, then reset while
    the request is pending, then the resolution.  The callback runs in
    full on the reset hook: status, recorder ref, stream ref and timer all
    change. *)
Lemma stale_resolution_changes_the_session :
  exists w1 w2,
    run [StartRecording; ReleaseResources] initial_world = Ok w1 /\
    step (Granted 0 [Live] "audio/webm") w1 = Ok w2 /\
    status (state w1) = Idle /\ status (state w2) = Recording /\
    mediaRecorderRef (refs w1) = None /\ mediaRecorderRef (refs w2) = Some 0 /\
    mediaStreamRef (refs w1) = None /\ mediaStreamRef (refs w2) = Some 0 /\
    timerIntervalRef (refs w1) = None /\ timerIntervalRef (refs w2) = Some 0.
Proof.
  do 2 eexists. split; [evaluate|]. split; [evaluate|].
  vm_compute. repeat split.
Qed.

(** C3, amended.  When reset or a second startRecording is called while an
    earlier request is pending, the earlier resolution, when it arrives, is
    not ignored (there is no generation or session guard): its callback
    runs as for any resolution.  It binds the late stream and a new
    recorder in the refs, stores the format, starts the timer, sets status
    to recording and recordingBlob to null; the chunks, recordingTime,
    blobUrl and error of the current session are left as they are. *)
Theorem stale_resolution_is_not_ignored
    (again : bool) (w : World) (s : MediaStream) (mime : string) :
  let w1 := moved_on again w in
  exists w2,
    step (Granted (nextRequest (browser w)) s mime) w1 = Ok w2 /\
    status (state w1) = Idle /\
    mediaRecorderRef (refs w1) = None /\
    mediaStreamRef (refs w1) = None /\
    timerIntervalRef (refs w1) = None /\
    status (state w2) = Recording /\
    recordingBlob (state w2) = None /\
    mediaRecorderRef (refs w2) = Some (length (recorders (browser w1))) /\
    mediaStreamRef (refs w2) = Some (length (streams (browser w1))) /\
    streams (browser w2) = streams (browser w1) ++ [s] /\
    timerIntervalRef (refs w2) = Some (nextInterval (browser w1)) /\
    mimeTypeRef (refs w2) = Some mime /\
    chunksRef (refs w2) = chunksRef (refs w1) /\
    recordingTime (state w2) = recordingTime (state w1) /\
    blobUrl (state w2) = blobUrl (state w1) /\
    error (state w2) = error (state w1).
Proof.
  intros w1.
  assert (Hp : isPending (nextRequest (browser w)) w1 = true).
  { subst w1. destruct again; unfold moved_on.
    - apply isPending_later_start.
    - rewrite isPending_reset. apply isPending_startRecording. }
  destruct (step_Granted_spec _ s mime w1 Hp) as (w2 & Hg & Hs & Hr & _ & Hst & _).
  exists w2. split; [exact Hg|]. rewrite Hs, Hr, Hst.
  assert (Hw1 : state w1 = INITIAL_STATE /\ mediaRecorderRef (refs w1) = None /\
                mediaStreamRef (refs w1) = None /\ timerIntervalRef (refs w1) = None).
  { subst w1. destruct again; unfold moved_on.
    - rewrite startRecording_state, startRecording_refs. auto.
    - world w. destruct ti; auto. }
  destruct Hw1 as (E1 & E2 & E3 & E4). rewrite E1, E2, E3, E4.
  repeat split; reflexivity.
Qed.

(** ** reset and the tracks *)

(** reset touches no browser object but the interval: recorders, streams
    and object URLs are as before. *)
Lemma reset_browser_frame (w : World) :
  recorders (browser (reset w)) = recorders (browser w) /\
  streams (browser (reset w)) = streams (browser w) /\
  objectUrls (browser (reset w)) = objectUrls (browser w).
Proof. world w. destruct ti; repeat split. Qed.

Lemma reset_clears (w : World) :
  state (reset w) = INITIAL_STATE /\
  mediaRecorderRef (refs (reset w)) = None /\
  mediaStreamRef (refs (reset w)) = None /\
  chunksRef (refs (reset w)) = [] /\
  timerIntervalRef (refs (reset w)) = None /\
  (forall t, timerIntervalRef (refs w) = Some t -> isFiring t (reset w) = false).
Proof.
  repeat split; try (world w; destruct ti; reflexivity).
  intros t Ht. world w. simpl in Ht. subst ti. apply existsb_eqb_filter_ne.
Qed.

(** _cleanTracks(null) does nothing, and cleaning twice is cleaning once. *)
Lemma cleanTracks_null (w : World) : _cleanTracks None w = Ok w.
Proof. reflexivity. Qed.

Lemma cleanTracks_idempotent (rid : RecorderId) (w w' : World) :
  _cleanTracks (Some rid) w = Ok w' -> _cleanTracks (Some rid) w' = Ok w'.
Proof.
  unfold _cleanTracks, lookupRecorder.
  destruct (recorders (browser w) !! rid) as [r|] eqn:Er; [|discriminate].
  cbn -[lookup insert].
  destruct (streams (browser w) !! rstream r) as [s|] eqn:Es; [|discriminate].
  intros [= <-]. world w. cbn -[lookup insert] in *. rewrite Er.
  cbn -[lookup insert].
  rewrite list_lookup_insert_eq by (eapply lookup_lt_Some; eauto).
  rewrite list_insert_insert_eq, stopTracks_idempotent. reflexivity.
Qed.

(** C4.  reset clears the state, the refs, the chunks and the timer, and
    touches no stream and no recorder: it stops no track.  On the run
    start, grant, reset the stream's track is still live and the recorder
    still recording after reset, and a stopRecording after it does
    nothing. *)
Theorem reset_leaves_the_tracks_live :
  (forall w,
     state (reset w) = INITIAL_STATE /\
     mediaRecorderRef (refs (reset w)) = None /\
     mediaStreamRef (refs (reset w)) = None /\
     chunksRef (refs (reset w)) = [] /\
     timerIntervalRef (refs (reset w)) = None /\
     streams (browser (reset w)) = streams (browser w) /\
     recorders (browser (reset w)) = recorders (browser w)) /\
  (exists w,
     run [StartRecording; Granted 0 [Live] "audio/webm"; ReleaseResources]
         initial_world = Ok w /\
     state w = INITIAL_STATE /\
     mediaRecorderRef (refs w) = None /\
     mediaStreamRef (refs w) = None /\
     streams (browser w) = [[Live]] /\
     recorders (browser w) = [startedRecorder 0 "audio/webm"] /\
     stopRecording (zeros 0 "audio/webm") w = Ok w).
Proof.
  split.
  - intros w. destruct (reset_clears w) as (H1 & H2 & H3 & H4 & H5 & _).
    destruct (reset_browser_frame w) as (H6 & H7 & _). auto 10.
  - eexists. split; [evaluate|]. vm_compute. repeat split.
Qed.

(** ** What a pause, a resume and a stop do *)

Lemma alter_insert_eq {A} (f : A -> A) (l : list A) (i : nat) (x : A) :
  alter f i (<[i := x]> l) = <[i := f x]> l.
Proof.
  revert i; induction l as [|y l IH]; intros [|i]; simpl; try reflexivity.
  f_equal. apply IH.
Qed.

Lemma onDataAvailable_chunks (data : Blob) (w : World) :
  onDataAvailable data w = set_chunksRef (chunksRef (refs w) ++ keepNonEmpty [data]) w.
Proof.
  unfold onDataAvailable, keepNonEmpty. simpl.
  destruct (0 <? blobSize data)%Z; [reflexivity|].
  world w. simpl. rewrite app_nil_r. reflexivity.
Qed.

Lemma boundRecorder_Some (w : World) rid r :
  boundRecorder w = Some (rid, r) <->
  mediaRecorderRef (refs w) = Some rid /\ recorders (browser w) !! rid = Some r.
Proof.
  unfold boundRecorder. destruct (mediaRecorderRef (refs w)) as [i|].
  - destruct (recorders (browser w) !! i) as [x|] eqn:E; split.
    + intros [= -> ->]. auto.
    + intros [[= ->] H]. rewrite H in E. congruence.
    + discriminate.
    + intros [[= ->] H]. rewrite H in E. discriminate.
  - split; [discriminate|]. intros [H _]; discriminate.
Qed.

(** togglePauseResume on a recording recorder, status not paused. *)
Lemma pause_spec (w : World) rid r :
  boundRecorder w = Some (rid, r) ->
  rstate r = RRecording ->
  status (state w) <> Paused ->
  exists w',
    togglePauseResume w = Ok w' /\
    state w' = {| status := Paused;
                  recordingTime := recordingTime (state w);
                  recordingBlob := Some (newBlob (chunksRef (refs w)) (currentMimeType w));
                  blobUrl := Some (nextUrl (browser w));
                  error := error (state w) |} /\
    refs w' = {| mediaRecorderRef := Some rid;
                 mediaStreamRef := mediaStreamRef (refs w);
                 chunksRef := chunksRef (refs w);
                 timerIntervalRef := None;
                 mimeTypeRef := mimeTypeRef (refs w) |} /\
    recorders (browser w') =
      <[rid := add_resumeListener (with_rstate RPaused r)]> (recorders (browser w)) /\
    streams (browser w') = streams (browser w) /\
    intervals (browser w') = intervals (browser (_clearTimer w)) /\
    nextInterval (browser w') = nextInterval (browser w) /\
    objectUrls (browser w') =
      afterRevoke w ++ [(nextUrl (browser w),
                         newBlob (chunksRef (refs w)) (currentMimeType w))] /\
    nextUrl (browser w') = S (nextUrl (browser w)) /\
    pendingRequests (browser w') = pendingRequests (browser w) /\
    mimeCalls (browser w') = mimeCalls (browser w).
Proof.
  intros [Href Hr]%boundRecorder_Some Hst Hne.
  rewrite togglePauseResume_eq. unfold lookupRecorder. rewrite Href, Hr.
  cbn [mbind result_bind]. rewrite Hst.
  assert (Hbranch : forall A (a b : A),
             match status (state w) with Paused => a | _ => b end = b).
  { intros. destruct (status (state w)); congruence. }
  rewrite Hbranch. clear Hbranch Hne.
  eexists; split; [reflexivity|]. unfold afterRevoke.
  world w. cbn -[lookup insert alter] in *. subst mr.
  destruct ti, url; unfold onPause, modifyRecorder, updateRecorder;
    cbn -[lookup insert alter]; rewrite alter_insert_eq;
    repeat split; reflexivity.
Qed.

Lemma iter_onResume (n : nat) (w : World) :
  0 < n -> Nat.iter n onResume w = onResume w.
Proof.
  destruct n as [|n]; [lia|]. intros _.
  induction n as [|n IH]; [reflexivity|].
  change (Nat.iter (S (S n)) onResume w) with (onResume (Nat.iter (S n) onResume w)).
  rewrite IH. reflexivity.
Qed.

Lemma iter_onResume_frame (n : nat) (w : World) :
  refs (Nat.iter n onResume w) = refs w /\
  browser (Nat.iter n onResume w) = browser w /\
  recordingTime (state (Nat.iter n onResume w)) = recordingTime (state w) /\
  recordingBlob (state (Nat.iter n onResume w)) = recordingBlob (state w) /\
  blobUrl (state (Nat.iter n onResume w)) = blobUrl (state w) /\
  error (state (Nat.iter n onResume w)) = error (state w).
Proof.
  induction n as [|n IH]; [repeat split|].
  change (Nat.iter (S n) onResume w) with (onResume (Nat.iter n onResume w)).
  destruct IH as (H1 & H2 & H3 & H4 & H5 & H6). simpl.
  rewrite H1, H2, H3, H4, H5, H6. repeat split.
Qed.

(** togglePauseResume on a paused recorder that has a resume listener,
    status paused. *)
Lemma resume_spec (w : World) rid r :
  boundRecorder w = Some (rid, r) ->
  rstate r = RPaused ->
  0 < resumeListeners r ->
  status (state w) = Paused ->
  exists w',
    togglePauseResume w = Ok w' /\
    state w' = {| status := Recording;
                  recordingTime := recordingTime (state w);
                  recordingBlob := recordingBlob (state w);
                  blobUrl := blobUrl (state w);
                  error := error (state w) |} /\
    refs w' = {| mediaRecorderRef := Some rid;
                 mediaStreamRef := mediaStreamRef (refs w);
                 chunksRef := chunksRef (refs w);
                 timerIntervalRef := Some (nextInterval (browser w));
                 mimeTypeRef := mimeTypeRef (refs w) |} /\
    recorders (browser w') = <[rid := with_rstate RRecording r]> (recorders (browser w)) /\
    streams (browser w') = streams (browser w) /\
    intervals (browser w') = intervals (browser (_clearTimer w)) ++ [nextInterval (browser w)] /\
    nextInterval (browser w') = S (nextInterval (browser w)) /\
    objectUrls (browser w') = objectUrls (browser w) /\
    nextUrl (browser w') = nextUrl (browser w) /\
    pendingRequests (browser w') = pendingRequests (browser w) /\
    mimeCalls (browser w') = mimeCalls (browser w).
Proof.
  intros [Href Hr]%boundRecorder_Some Hst Hn Hp.
  rewrite togglePauseResume_eq. unfold lookupRecorder. rewrite Href, Hr.
  cbn [mbind result_bind]. rewrite Hst, Hp, (iter_onResume _ _ Hn).
  eexists; split; [reflexivity|].
  world w. cbn -[lookup insert alter] in *. subst mr st.
  destruct ti; repeat split; reflexivity.
Qed.

(** stopRecording on a recorder that is not inactive. *)
Lemma stop_spec (final : Blob) (w : World) rid r s :
  boundRecorder w = Some (rid, r) ->
  rstate r <> RInactive ->
  streams (browser w) !! rstream r = Some s ->
  let chunks := chunksRef (refs w) ++ keepNonEmpty [final] in
  exists w',
    stopRecording final w = Ok w' /\
    state w' = {| status := Stopped;
                  recordingTime := recordingTime (state w);
                  recordingBlob := Some (newBlob chunks (currentMimeType w));
                  blobUrl := Some (nextUrl (browser w));
                  error := error (state w) |} /\
    refs w' = {| mediaRecorderRef := Some rid;
                 mediaStreamRef := mediaStreamRef (refs w);
                 chunksRef := chunks;
                 timerIntervalRef := None;
                 mimeTypeRef := mimeTypeRef (refs w) |} /\
    recorders (browser w') = <[rid := with_rstate RInactive r]> (recorders (browser w)) /\
    streams (browser w') = <[rstream r := stopTracks s]> (streams (browser w)) /\
    intervals (browser w') = intervals (browser (_clearTimer w)) /\
    nextInterval (browser w') = nextInterval (browser w) /\
    objectUrls (browser w') =
      objectUrls (browser w) ++ [(nextUrl (browser w), newBlob chunks (currentMimeType w))] /\
    nextUrl (browser w') = S (nextUrl (browser w)) /\
    pendingRequests (browser w') = pendingRequests (browser w) /\
    mimeCalls (browser w') = mimeCalls (browser w).
Proof.
  intros [Href Hr]%boundRecorder_Some Hst Hs chunks.
  rewrite stopRecording_eq. unfold lookupRecorder. rewrite Href, Hr.
  cbn [mbind result_bind].
  assert (Hbranch : forall A (a b : A),
             match rstate r with RInactive => a | _ => b end = b).
  { intros. destruct (rstate r); congruence. }
  rewrite Hbranch.
  rewrite onDataAvailable_chunks.
  assert (Hlt : rid < length (recorders (browser w))) by (eapply lookup_lt_Some; eauto).
  subst chunks. clear Hbranch.
  world w. cbn -[lookup insert alter keepNonEmpty] in *. subst mr.
  destruct ti; unfold onStop, _cleanTracks, lookupRecorder, updateRecorder;
    cbn -[lookup insert alter keepNonEmpty];
    rewrite (list_lookup_insert_eq _ _ _ Hlt);
    cbn -[lookup insert alter keepNonEmpty]; rewrite Hs;
    (eexists; split; [reflexivity|]); repeat split; reflexivity.
Qed.

(** ** Every way a call can end *)

(** _cleanTracks changes the streams and nothing else. *)
Lemma cleanTracks_inv (o : option RecorderId) (w w' : World) :
  _cleanTracks o w = Ok w' ->
  exists ss, length ss = length (streams (browser w)) /\ w' = set_streams ss w.
Proof.
  unfold _cleanTracks, lookupRecorder. destruct o as [rid|].
  - destruct (recorders (browser w) !! rid) as [r|]; [|discriminate].
    cbn [mbind result_bind].
    destruct (streams (browser w) !! rstream r) as [s|]; [|discriminate].
    intros [= <-]. eexists; split; [apply length_insert|reflexivity].
  - intros [= <-]. exists (streams (browser w)). split; [reflexivity|].
    world w. reflexivity.
Qed.


Lemma stoppedBy_streams (w : World) :
  streams (browser (stoppedBy w)) = streams (browser w).
Proof.
  unfold stoppedBy. cbn [setState browser].
  rewrite clearTimer_streams. reflexivity.
Qed.

Lemma togglePauseResume_inv (w w' : World) :
  togglePauseResume w = Ok w' -> toggle_outcome w w'.
Proof.
  rewrite togglePauseResume_eq. unfold lookupRecorder.
  destruct (boundRecorder w) as [[rid r]|] eqn:Hb.
  - pose proof Hb as [Href Hr]%boundRecorder_Some. rewrite Href, Hr.
    cbn [mbind result_bind].
    destruct (rstate r) eqn:Hst.
    + intros [= <-]. apply toggle_ignored; [|reflexivity].
      unfold noActiveRecorder. rewrite Href, Hr, Hst. reflexivity.
    + destruct (decide (status (state w) = Paused)) as [Hp|Hp].
      * rewrite Hp. intros [= <-]. eapply toggle_resume_of_recording; eauto.
      * intros H. eapply toggle_paused; eauto.
        destruct (status (state w)); congruence.
    + destruct (decide (status (state w) = Paused)) as [Hp|Hp].
      * rewrite Hp. intros [= <-]. eapply toggle_resumed; eauto.
      * intros H. eapply toggle_pause_of_paused; eauto.
        destruct (status (state w)); congruence.
  - unfold boundRecorder in Hb.
    destruct (mediaRecorderRef (refs w)) as [rid|] eqn:Href.
    + destruct (recorders (browser w) !! rid); [discriminate|]. discriminate.
    + intros [= <-]. apply toggle_ignored; [|reflexivity].
      unfold noActiveRecorder. rewrite Href. reflexivity.
Qed.

Lemma stopRecording_inv (final : Blob) (w w' : World) :
  stopRecording final w = Ok w' -> stop_outcome final w w'.
Proof.
  rewrite stopRecording_eq. unfold lookupRecorder.
  destruct (boundRecorder w) as [[rid r]|] eqn:Hb.
  - pose proof Hb as [Href Hr]%boundRecorder_Some. rewrite Href, Hr.
    cbn [mbind result_bind].
    destruct (decide (rstate r = RInactive)) as [Hst|Hst].
    + rewrite Hst. intros [= <-]. apply stop_ignored; [|reflexivity].
      unfold noActiveRecorder. rewrite Href, Hr, Hst. reflexivity.
    + intros H.
      assert (H'' : onStop rid (onDataAvailable final
                      (updateRecorder rid (with_rstate RInactive r) (_clearTimer w)))
                    = Ok w')
        by (destruct (rstate r); congruence).
      rewrite onStop_unfold in H''. apply cleanTracks_inv in H'' as (ss & Hlen & ->).
      apply (stop_done final w _ rid r ss Hb Hst); [|reflexivity].
      rewrite Hlen, stoppedBy_streams, onDataAvailable_chunks.
      cbn [set_chunksRef with_refs browser updateRecorder set_recorders
           with_browser streams].
      rewrite clearTimer_streams. reflexivity.
  - unfold boundRecorder in Hb.
    destruct (mediaRecorderRef (refs w)) as [rid|] eqn:Href.
    + destruct (recorders (browser w) !! rid); discriminate.
    + intros [= <-]. apply stop_ignored; [|reflexivity].
      unfold noActiveRecorder. rewrite Href. reflexivity.
Qed.

Lemma cleanup_inv (final : Blob) (w w' : World) :
  cleanup final w = Ok w' -> unmount_outcome final w w'.
Proof.
  unfold cleanup, settle, Call.cleanup.
  destruct (mediaRecorderRef (refs w)) as [rid|] eqn:Href.
  - unfold _cleanTracks, lookupRecorder.
    destruct (recorders (browser w) !! rid) as [r|] eqn:Hr; [|discriminate].
    cbn [mbind result_bind].
    destruct (streams (browser w) !! rstream r) as [s|] eqn:Hs; [|discriminate].
    cbn [mbind result_bind].
    set (ss := <[rstream r := stopTracks s]> (streams (browser w))).
    assert (Hlen : length ss = length (streams (browser w))) by apply length_insert.
    unfold MediaRecorder_tracksEnded, lookupRecorder.
    rewrite clearTimer_recorders, clearTimer_streams.
    cbn [set_streams with_browser browser recorders streams]. rewrite Hr.
    cbn [mbind result_bind].
    assert (Hss : ss !! rstream r = Some (stopTracks s))
      by (eapply lookup_insert_same; eauto).
    rewrite Hss.
    assert (Hb : boundRecorder w = Some (rid, r)) by (apply boundRecorder_Some; auto).
    destruct (decide (rstate r = RInactive)) as [Hst|Hst].
    + rewrite Hst. cbn [mbind result_bind dispatchAll]. intros [= <-].
      eapply unmount_cleaned; eauto.
    + destruct s as [|t s]; cbn [stopTracks List.map hasTracks].
      * intros H. eapply (unmount_cleaned final w w' ss); [exact Hlen|].
        destruct (rstate r); cbn [mbind result_bind dispatchAll] in H; congruence.
      * intros H.
        assert (H' : onStop rid (onDataAvailable final
                       (updateRecorder rid (with_rstate RInactive r)
                          (_clearTimer (set_streams ss w)))) = Ok w').
        { destruct (rstate r); [contradiction|..];
            cbn [mbind result_bind dispatchAll dispatch] in H;
            rewrite bind_Ok in H; exact H. }
        rewrite onStop_unfold in H'. apply cleanTracks_inv in H' as (ss' & Hlen' & ->).
        eapply (unmount_stopped final w _ rid r ss ss'); eauto.
        rewrite Hlen', stoppedBy_streams, onDataAvailable_chunks.
        cbn [set_chunksRef with_refs browser updateRecorder set_recorders
             with_browser streams].
        rewrite clearTimer_streams. exact Hlen.
  - cbn [_cleanTracks mbind result_bind dispatchAll]. intros [= <-].
    apply (unmount_cleaned final w _ (streams (browser w))); [reflexivity|].
    world w. reflexivity.
Qed.

(** The cleanup with no recorder bound clears the timer and no more. *)
Lemma cleanup_unbound (final : Blob) (w : World) :
  mediaRecorderRef (refs w) = None -> cleanup final w = Ok (_clearTimer w).
Proof.
  intros Href. unfold cleanup, settle, Call.cleanup. rewrite Href. reflexivity.
Qed.

(** The cleanup with an inactive recorder bound, or one whose stream has
    no track: the tracks are ended, the timer cleared, and no event
    follows. *)
Lemma cleanup_inactive (final : Blob) (w : World) rid r (s : MediaStream) :
  boundRecorder w = Some (rid, r) ->
  streams (browser w) !! rstream r = Some s ->
  rstate r = RInactive \/ s = [] ->
  cleanup final w
  = Ok (_clearTimer (set_streams (<[rstream r := stopTracks s]> (streams (browser w))) w)).
Proof.
  intros [Href Hr]%boundRecorder_Some Hs Hcase.
  unfold cleanup, settle, Call.cleanup, _cleanTracks, lookupRecorder.
  rewrite Href, Hr. cbn [mbind result_bind]. rewrite Hs. cbn [mbind result_bind].
  unfold MediaRecorder_tracksEnded, lookupRecorder.
  rewrite clearTimer_recorders, clearTimer_streams.
  cbn [set_streams with_browser browser recorders streams]. rewrite Hr.
  cbn [mbind result_bind]. rewrite (lookup_insert_same _ _ _ _ Hs).
  destruct Hcase as [Hst| ->].
  - rewrite Hst. reflexivity.
  - destruct (rstate r); reflexivity.
Qed.

(** The stop listener finds the same chunks and recorder whether or not
    the tracks have been ended before it runs. *)
Lemma onStop_tracks_ended (final : Blob) (w : World) rid r (s : MediaStream) :
  recorders (browser w) !! rid = Some r ->
  streams (browser w) !! rstream r = Some s ->
  onStop rid (onDataAvailable final
    (updateRecorder rid (with_rstate RInactive r)
       (_clearTimer (set_streams (<[rstream r := stopTracks s]> (streams (browser w))) w))))
  = onStop rid (onDataAvailable final
      (updateRecorder rid (with_rstate RInactive r) (_clearTimer w))).
Proof.
  intros Hr Hs. rewrite !onDataAvailable_chunks.
  assert (Hlt : rid < length (recorders (browser w))) by (eapply lookup_lt_Some; eauto).
  assert (Hlt' : rstream r < length (streams (browser w)))
    by (eapply lookup_lt_Some; eauto).
  world w. cbn -[lookup insert keepNonEmpty] in *.
  destruct ti; unfold onStop, _cleanTracks, lookupRecorder, updateRecorder;
    cbn -[lookup insert keepNonEmpty];
    rewrite (list_lookup_insert_eq _ _ _ Hlt);
    cbn -[lookup insert keepNonEmpty];
    rewrite Hs, (list_lookup_insert_eq _ _ _ Hlt');
    cbn -[lookup insert keepNonEmpty];
    rewrite list_insert_insert_eq, stopTracks_idempotent; reflexivity.
Qed.

(** The cleanup with a bound recorder that is not inactive, on a stream
    with a track: the browser stops the recorder, and what follows is what
    follows stopRecording. *)
Lemma cleanup_active (final : Blob) (w : World) rid r (s : MediaStream) :
  boundRecorder w = Some (rid, r) -> rstate r <> RInactive ->
  streams (browser w) !! rstream r = Some s -> s <> [] ->
  cleanup final w = stopRecording final w.
Proof.
  intros [Href Hr]%boundRecorder_Some Hst Hs Hne.
  rewrite stopRecording_eq.
  unfold cleanup, settle, Call.cleanup, _cleanTracks, lookupRecorder.
  rewrite Href, Hr. cbn [mbind result_bind]. rewrite Hs. cbn [mbind result_bind].
  unfold MediaRecorder_tracksEnded, lookupRecorder.
  rewrite clearTimer_recorders, clearTimer_streams.
  cbn [set_streams with_browser browser recorders streams]. rewrite Hr.
  cbn [mbind result_bind]. rewrite (lookup_insert_same _ _ _ _ Hs).
  destruct s as [|t s]; [contradiction|]. cbn [stopTracks List.map hasTracks].
  pose proof (onStop_tracks_ended final w rid r (t :: s) Hr Hs) as E.
  cbn [stopTracks List.map] in E.
  destruct (rstate r); [contradiction|..];
    cbn [mbind result_bind dispatchAll dispatch]; rewrite bind_Ok; exact E.
Qed.

(** ** The timer and the URL registry as plain updates *)

Lemma clearTimer_shape (w : World) :
  _clearTimer w =
  set_timerIntervalRef None
    (set_intervals (clearedIntervals w) (nextInterval (browser w)) w).
Proof. world w. destruct ti; reflexivity. Qed.

Lemma startTimer_shape (w : World) :
  _startTimer w =
  set_timerIntervalRef (Some (nextInterval (browser w)))
    (set_intervals (clearedIntervals w ++ [nextInterval (browser w)])
                   (S (nextInterval (browser w))) w).
Proof. world w. destruct ti; reflexivity. Qed.

Lemma revokeCurrent_shape (w : World) :
  revokeCurrent w = set_objectUrls (afterRevoke w) (nextUrl (browser w)) w.
Proof. world w. destruct url; reflexivity. Qed.

Lemma reset_shape (w : World) :
  reset w =
  {| state := INITIAL_STATE;
     refs := {| mediaRecorderRef := None; mediaStreamRef := None; chunksRef := [];
                timerIntervalRef := None; mimeTypeRef := mimeTypeRef (refs w) |};
     browser := browser (set_intervals (clearedIntervals w) (nextInterval (browser w)) w) |}.
Proof. world w. destruct ti; reflexivity. Qed.

Lemma startRecording_shape (w : World) :
  startRecording w =
  set_pendingRequests (pendingRequests (browser w) ++ [nextRequest (browser w)])
                      (S (nextRequest (browser w))) (reset w).
Proof. world w. destruct ti; reflexivity. Qed.

Lemma iter_onResume_shape (n : nat) (w : World) :
  Nat.iter n onResume w =
  setState (fun prev =>
    {| status := match n with 0 => status prev | S _ => Recording end;
       recordingTime := recordingTime prev;
       recordingBlob := recordingBlob prev;
       blobUrl := blobUrl prev;
       error := error prev |}) w.
Proof.
  induction n as [|n IH]; [world w; reflexivity|].
  change (Nat.iter (S n) onResume w) with (onResume (Nat.iter n onResume w)).
  rewrite IH. reflexivity.
Qed.

(** Rewrites the hook's helpers into field updates and computes. *)
Ltac shapes :=
  unfold stoppedBy, onPause, onTick, modifyRecorder, updateRecorder,
    createObjectURL, settleRequest;
  rewrite ?startRecording_shape, ?reset_shape, ?startTimer_shape, ?clearTimer_shape,
    ?revokeCurrent_shape, ?onDataAvailable_chunks, ?iter_onResume_shape;
  unfold afterRevoke, clearedIntervals;
  cbn -[lookup insert alter keepNonEmpty].

(** ** Artifacts *)

Lemma step_Granted_inv (q : RequestId) (s : MediaStream) (mime : string) (w w' : World) :
  step (Granted q s mime) w = Ok w' ->
  (isPending q w = false /\ w' = w) \/
  (isPending q w = true /\
   state w' = {| status := Recording;
                 recordingTime := recordingTime (state w);
                 recordingBlob := None;
                 blobUrl := blobUrl (state w);
                 error := error (state w) |} /\
   refs w' = {| mediaRecorderRef := Some (length (recorders (browser w)));
                mediaStreamRef := Some (length (streams (browser w)));
                chunksRef := chunksRef (refs w);
                timerIntervalRef := Some (nextInterval (browser w));
                mimeTypeRef := Some mime |} /\
   mimeCalls (browser w') = S (mimeCalls (browser w))).
Proof.
  intros H. destruct (isPending q w) eqn:Hp.
  - right. split; [reflexivity|].
    destruct (step_Granted_spec q s mime w Hp) as (w2 & Hg & Hs & Hr & _ & _ & _ & _ & Hm).
    rewrite Hg in H. injection H as <-. auto.
  - left. unfold step in H. rewrite Hp in H. injection H as <-. auto.
Qed.

Lemma artifact_of_step (a : Action) (w w' : World) :
  step a w = Ok w' ->
  recordingBlob (state w') = recordingBlob (state w) \/
  recordingBlob (state w') = None \/
  (recordingBlob (state w') = Some (assembled w') /\
   (status (state w') = Paused \/ status (state w') = Stopped) /\
   exists u, blobUrl (state w') = Some u /\
             In (u, assembled w') (objectUrls (browser w'))).
Proof.
  intros H. destruct a; cbn [step] in H.
  - injection H as <-. right; left. shapes. reflexivity.
  - apply stopRecording_inv in H as [_ ->|rid r ss _ _ _ ->]; [left; reflexivity|].
    right; right. unfold assembled, currentMimeType. shapes.
    split; [reflexivity|]. split; [right; reflexivity|].
    eexists; split; [reflexivity|]. apply in_or_app; right; left; reflexivity.
  - apply togglePauseResume_inv in H
      as [_ ->|rid r _ _ _ ->|rid r _ _ _ ->|rid r _ _ _ ->|rid r _ _ _ ->].
    + left; reflexivity.
    + left. shapes. reflexivity.
    + left. shapes. reflexivity.
    + right; right. unfold assembled, currentMimeType. shapes.
      split; [reflexivity|]. split; [left; reflexivity|].
      eexists; split; [reflexivity|]. apply in_or_app; right; left; reflexivity.
    + left. shapes. reflexivity.
  - injection H as <-. right; left. shapes. reflexivity.
  - apply cleanup_inv in H as [ss _ ->|rid r ss ss' _ _ _ _ ->].
    + left. shapes. reflexivity.
    + right; right. unfold assembled, currentMimeType. shapes.
      split; [reflexivity|]. split; [right; reflexivity|].
      eexists; split; [reflexivity|]. apply in_or_app; right; left; reflexivity.
  - apply step_Granted_inv in H as [[_ ->]|(_ & Hs & _)]; [left; reflexivity|].
    right; left. rewrite Hs. reflexivity.
  - left. destruct (isPending q w); injection H as <-; reflexivity.
  - left. destruct (recorders (browser w) !! rid); injection H as <-;
      [shapes|]; reflexivity.
  - left. destruct (isFiring t w); injection H as <-; reflexivity.
  - apply step_GrantedUnsupported_inv in H as [_ ->]. left; reflexivity.
Qed.






(** ** Object URLs *)

(** The pause branch revokes the URL of the state before the pause
    listener issues the next one. *)
Lemma pause_revokes_then_issues (w : World) rid r u :
  boundRecorder w = Some (rid, r) -> rstate r = RRecording ->
  status (state w) <> Paused -> blobUrl (state w) = Some u ->
  exists w',
    togglePauseResume w = Ok w' /\
    blobUrl (state w') = Some (nextUrl (browser w)) /\
    objectUrls (browser w') =
      List.filter (fun p => negb (Nat.eqb (fst p) u)) (objectUrls (browser w))
      ++ [(nextUrl (browser w), assembled w)].
Proof.
  intros Hb Hst Hp Hu.
  destruct (pause_spec w rid r Hb Hst Hp) as (w' & Ht & Hs & _ & _ & _ & _ & _ & Ho & _).
  exists w'. split; [exact Ht|]. rewrite Hs, Ho. unfold afterRevoke. rewrite Hu.
  split; reflexivity.
Qed.

(** stopRecording revokes nothing: every URL that resolved before the stop
    still resolves after it, next to the new one. *)
Lemma stop_revokes_nothing (final : Blob) (w w' : World) rid r :
  boundRecorder w = Some (rid, r) -> rstate r <> RInactive ->
  stopRecording final w = Ok w' ->
  exists b, objectUrls (browser w') = objectUrls (browser w) ++ [(nextUrl (browser w), b)].
Proof.
  intros Hb Hst H. apply stopRecording_inv in H as [Hn _|rid' r' ss _ _ _ ->].
  - exfalso. apply boundRecorder_Some in Hb as [Href Hr].
    unfold noActiveRecorder in Hn. rewrite Href, Hr in Hn.
    apply bool_decide_eq_true in Hn. contradiction.
  - eexists. shapes. reflexivity.
Qed.

(** C5.  stopRecording on an active recorder issues the final URL next to
    every URL that resolved before, revoking none.  On the run start,
    grant, pause, resume, stop the URL issued at the pause (0) is the one
    in the state when stopRecording is called, and it still resolves after
    the stop listener has issued the final URL (1). *)
Theorem stop_issues_a_url_without_revoking_the_interim_one :
  (forall final w w' rid r,
     boundRecorder w = Some (rid, r) -> rstate r <> RInactive ->
     stopRecording final w = Ok w' ->
     exists b, objectUrls (browser w') =
               objectUrls (browser w) ++ [(nextUrl (browser w), b)]) /\
  (exists w1 w2,
     run [StartRecording; Granted 0 [Live] "audio/webm";
          DataAvailable 0 (zeros 3 "audio/webm");
          TogglePauseResume; TogglePauseResume] initial_world = Ok w1 /\
     blobUrl (state w1) = Some 0 /\
     List.map fst (objectUrls (browser w1)) = [0] /\
     step (StopRecording (zeros 2 "audio/webm")) w1 = Ok w2 /\
     status (state w2) = Stopped /\
     blobUrl (state w2) = Some 1 /\
     List.map fst (objectUrls (browser w2)) = [0; 1]).
Proof.
  split.
  - intros final w w' rid r Hb Hst H. exact (stop_revokes_nothing final w w' rid r Hb Hst H).
  - do 2 eexists. split; [evaluate|]. split; [evaluate|]. split; [evaluate|].
    split; [evaluate|]. vm_compute. repeat split.
Qed.

(** ** A session: start, grant, toggles and fragments, stop *)

Lemma togglePauseResume_total (w : World) rid r :
  boundRecorder w = Some (rid, r) -> exists w', togglePauseResume w = Ok w'.
Proof.
  intros [Href Hr]%boundRecorder_Some.
  rewrite togglePauseResume_eq. unfold lookupRecorder. rewrite Href, Hr.
  cbn [mbind result_bind].
  destruct (rstate r); [eauto|..]; destruct (status (state w)); eauto.
Qed.

Section Session.

Variables (rid : RecorderId) (mime : string).

Lemma inSession_bound (w : World) :
  inSession rid mime w ->
  exists r, boundRecorder w = Some (rid, r) /\ rstate r <> RInactive /\
            is_Some (streams (browser w) !! rstream r).
Proof.
  intros (Href & _ & r & Hr & Hst & Hs). exists r. split; [|auto].
  apply boundRecorder_Some. auto.
Qed.

(** One event of a session: it is processed without exception, appends the
    fragment when one is delivered with data, calls no collaborator, and
    leaves the hook in the session. *)
Lemma session_event_step (e : SessionEvent) (w : World) :
  inSession rid mime w ->
  exists w',
    step (sessionAction rid e) w = Ok w' /\
    inSession rid mime w' /\
    chunksRef (refs w') = chunksRef (refs w) ++ keepNonEmpty (fragmentsOf [e]) /\
    mimeCalls (browser w') = mimeCalls (browser w).
Proof.
  intros Hin. pose proof Hin as (Href & Hm & r0 & Hr0 & Hst0 & Hs0).
  destruct e as [|data|t]; cbn [sessionAction step fragmentsOf flat_map app].
  - destruct (inSession_bound _ Hin) as (r & Hb & Hst & Hs).
    destruct (togglePauseResume_total w rid r Hb) as (w' & Ht).
    exists w'. split; [exact Ht|].
    assert (Hr : recorders (browser w) !! rid = Some r)
      by (apply boundRecorder_Some in Hb; tauto).
    apply togglePauseResume_inv in Ht
      as [_ ->|i x Hb' Hx _ ->|i x Hb' Hx _ ->|i x Hb' Hx _ ->|i x Hb' Hx _ ->];
      try (rewrite Hb in Hb'; injection Hb' as <- <-);
      unfold inSession; shapes; rewrite ?app_nil_r, ?alter_insert_eq,
        ?(lookup_insert_same _ _ _ _ Hr);
      (split; [split; [first [reflexivity|exact Href]|split; [exact Hm|]]
              |split; reflexivity]).
    + exists r0. auto.
    + eexists; split; [reflexivity|]. split; [discriminate|exact Hs].
    + exists r. auto.
    + eexists; split; [reflexivity|]. split; [discriminate|exact Hs].
    + exists r. auto.
  - rewrite Hr0. eexists; split; [reflexivity|]. unfold inSession. shapes.
    split; [|split; reflexivity]. split; [exact Href|split; [exact Hm|]].
    exists r0. auto.
  - destruct (isFiring t w); (eexists; split; [reflexivity|]);
      unfold inSession; shapes; rewrite app_nil_r;
      (split; [|split; reflexivity]); (split; [exact Href|split; [exact Hm|]]);
      exists r0; auto.
Qed.

Lemma fragmentsOf_cons (e : SessionEvent) (evs : list SessionEvent) :
  fragmentsOf (e :: evs) = fragmentsOf [e] ++ fragmentsOf evs.
Proof. unfold fragmentsOf. simpl. rewrite app_nil_r. reflexivity. Qed.

Lemma keepNonEmpty_app (l1 l2 : list Blob) :
  keepNonEmpty (l1 ++ l2) = keepNonEmpty l1 ++ keepNonEmpty l2.
Proof. apply List.filter_app. Qed.

Lemma session_events_run (evs : list SessionEvent) (w : World) :
  inSession rid mime w ->
  exists w',
    run (List.map (sessionAction rid) evs) w = Ok w' /\
    inSession rid mime w' /\
    chunksRef (refs w') = chunksRef (refs w) ++ keepNonEmpty (fragmentsOf evs) /\
    mimeCalls (browser w') = mimeCalls (browser w).
Proof.
  revert w. induction evs as [|e evs IH]; intros w Hin.
  - exists w. simpl. rewrite app_nil_r. auto.
  - destruct (session_event_step e w Hin) as (w1 & Hs & Hin1 & Hc1 & Hm1).
    destruct (IH w1 Hin1) as (w2 & Hr & Hin2 & Hc2 & Hm2).
    exists w2. cbn [List.map run]. rewrite Hs. cbn [mbind result_bind].
    split; [exact Hr|]. split; [exact Hin2|]. split; [|congruence].
    rewrite Hc2, Hc1, (fragmentsOf_cons e evs), keepNonEmpty_app, app_assoc.
    reflexivity.
Qed.

End Session.

Lemma run_app (tr1 tr2 : list Action) (w : World) :
  run (tr1 ++ tr2) w = (w1 ← run tr1 w; run tr2 w1).
Proof.
  revert w; induction tr1 as [|a tr1 IH]; intros w; [reflexivity|].
  cbn [app run]. destruct (step a w) as [w1|]; [apply IH|reflexivity].
Qed.

(** A whole session from any world: it runs to the end; the chunks at the
    stop are the non-empty fragments in arrival order, the artifact is
    their assembly under the format selected at the grant, which was the
    only call of the collaborator. *)
Lemma session_run (w : World) (s : MediaStream) (mime : string)
    (evs : list SessionEvent) (final : Blob) :
  let fragments := keepNonEmpty (fragmentsOf evs ++ [final]) in
  exists w',
    run (session (nextRequest (browser w)) s mime
                 (length (recorders (browser w))) evs final) w = Ok w' /\
    status (state w') = Stopped /\
    chunksRef (refs w') = fragments /\
    recordingBlob (state w') = Some (newBlob fragments mime) /\
    mimeTypeRef (refs w') = Some mime /\
    mimeCalls (browser w') = S (mimeCalls (browser w)).
Proof.
  intros fragments. unfold session. cbn [run step mbind result_bind].
  destruct (step_Granted_spec (nextRequest (browser w)) s mime (startRecording w)
              (isPending_startRecording w))
    as (w1 & Hg & Hs1 & Hr1 & Hrec1 & Hst1 & _ & _ & Hm1).
  unfold step in Hg. rewrite Hg. clear Hg. cbn [mbind result_bind].
  assert (Hrs : recorders (browser (startRecording w)) = recorders (browser w))
    by (shapes; reflexivity).
  assert (Hss : streams (browser (startRecording w)) = streams (browser w))
    by (shapes; reflexivity).
  assert (Hmc : mimeCalls (browser (startRecording w)) = mimeCalls (browser w))
    by (shapes; reflexivity).
  assert (Hin1 : inSession (length (recorders (browser w))) mime w1).
  { unfold inSession. rewrite Hr1, Hrec1, Hst1, Hrs, Hss. cbn.
    split; [reflexivity|]. split; [reflexivity|].
    eexists. split; [apply lookup_snoc|]. split; [discriminate|].
    cbn. rewrite lookup_snoc. eauto. }
  destruct (session_events_run _ mime evs w1 Hin1) as (w2 & Hrun & Hin2 & Hc2 & Hm2).
  rewrite run_app, Hrun. cbn [run step mbind result_bind].
  destruct (inSession_bound _ _ _ Hin2) as (r & Hb & Hst & [s' Hs']).
  destruct (stop_spec final w2 _ r s' Hb Hst Hs')
    as (w3 & Hstop & Hs3 & Hr3 & _ & _ & _ & _ & _ & _ & _ & Hm3).
  rewrite Hstop. exists w3. split; [reflexivity|].
  destruct Hin2 as (_ & Hmime2 & _).
  assert (Hch : chunksRef (refs w2) ++ keepNonEmpty [final] = fragments).
  { subst fragments. rewrite Hc2, Hr1, startRecording_refs, keepNonEmpty_app.
    reflexivity. }
  rewrite Hs3, Hr3, Hm3, Hm2, Hm1, Hmc, Hch. unfold currentMimeType. rewrite Hmime2.
  repeat split; reflexivity.
Qed.

Lemma totalSize_keepNonEmpty (l : list Blob) :
  totalSize (keepNonEmpty l) = totalSize l.
Proof.
  unfold totalSize, keepNonEmpty.
  induction l as [|b l IH]; simpl; [reflexivity|].
  destruct (0 <? blobSize b)%Z eqn:E; simpl; rewrite IH; [reflexivity|].
  apply Z.ltb_ge in E. unfold blobSize in *. lia.
Qed.

Lemma concat_keepNonEmpty (l : list Blob) :
  List.concat (List.map blobData (keepNonEmpty l)) = List.concat (List.map blobData l).
Proof.
  unfold keepNonEmpty.
  induction l as [|b l IH]; simpl; [reflexivity|].
  destruct (0 <? blobSize b)%Z eqn:E; simpl; rewrite IH; [reflexivity|].
  apply Z.ltb_ge in E. unfold blobSize in E.
  destruct (blobData b); [reflexivity|simpl in E; lia].
Qed.

(** C1 as specified fails on this run: one fragment of 120 bytes arrives
    while status is recording, togglePauseResume pauses, and stopRecording
    is called while status is paused; stop() hands the 140 bytes the
    encoder still holds to the dataavailable listener, which appends them.
    The chunks at the stop are the fragments of 120 and 140 bytes and the
    artifact has 260 bytes, while the non-empty fragments delivered while
    status was recording are the one of 120 bytes. *)
Lemma fragment_delivered_while_paused_is_kept :
  exists w1 w2 artifact,
    run paused_after_one_fragment initial_world = Ok w1 /\
    status (state w1) = Paused /\
    step (StopRecording (zeros 140 "audio/webm")) w1 = Ok w2 /\
    status (state w2) = Stopped /\
    List.map blobSize (chunksRef (refs w2)) = [120; 140]%Z /\
    recordingBlob (state w2) = Some artifact /\
    blobSize artifact = 260%Z /\
    List.map blobSize
      (keepNonEmpty
         (deliveredWhileRecording
            (paused_after_one_fragment ++ [StopRecording (zeros 140 "audio/webm")])
            initial_world)) = [120]%Z /\
    chunksRef (refs w2) <>
      keepNonEmpty
        (deliveredWhileRecording
           (paused_after_one_fragment ++ [StopRecording (zeros 140 "audio/webm")])
           initial_world).
Proof.
  do 3 eexists. split; [evaluate|]. split; [evaluate|]. split; [evaluate|].
  split; [evaluate|]. split; [evaluate|]. split; [evaluate|]. split; [evaluate|].
  split; [evaluate|]. vm_compute. discriminate.
Qed.

(** C1, amended.  For every session (startRecording from any world, the
    request granted, then any sequence of togglePauseResume calls,
    delivered fragments and ticks, then stopRecording) the run completes
    with status stopped; the chunks at the stop are exactly the non-empty
    fragments delivered to the dataavailable listener between the grant
    and the stop, in arrival order, whatever the status when each arrived
    (the listener reads only the size), the final flush of stop() being
    the last of them; the artifact is their concatenation under the
    normalized format and its size is the sum of their sizes, to which
    empty fragments add nothing.  With fragments of 120, 130, 0 and 140
    bytes the artifact has 390 bytes and status is stopped. *)
Theorem session_artifact_is_the_delivered_fragments :
  (forall (w : World) (s : MediaStream) (mime : string)
          (evs : list SessionEvent) (final : Blob),
     let delivered := fragmentsOf evs ++ [final] in
     exists w' artifact,
       run (session (nextRequest (browser w)) s mime
                    (length (recorders (browser w))) evs final) w = Ok w' /\
       status (state w') = Stopped /\
       chunksRef (refs w') = keepNonEmpty delivered /\
       recordingBlob (state w') = Some artifact /\
       blobType artifact = normalizeType mime /\
       blobData artifact = List.concat (List.map blobData (keepNonEmpty delivered)) /\
       blobData artifact = List.concat (List.map blobData delivered) /\
       blobSize artifact = totalSize (keepNonEmpty delivered) /\
       blobSize artifact = totalSize delivered) /\
  (exists w' artifact,
     run (session 0 [Live] "audio/webm" 0
            [SFragment (zeros 120 "audio/webm"); SFragment (zeros 130 "audio/webm");
             SFragment (zeros 0 "audio/webm"); SFragment (zeros 140 "audio/webm")]
            (zeros 0 "audio/webm")) initial_world = Ok w' /\
     status (state w') = Stopped /\
     List.map blobSize (chunksRef (refs w')) = [120; 130; 140]%Z /\
     recordingBlob (state w') = Some artifact /\
     blobSize artifact = 390%Z) /\
  (exists w' artifact,
     run (session 0 [Live] "audio/webm" 0
            [SFragment (zeros 120 "audio/webm"); SToggle; SToggle;
             SFragment (zeros 130 "audio/webm"); SFragment (zeros 0 "audio/webm")]
            (zeros 140 "audio/webm")) initial_world = Ok w' /\
     status (state w') = Stopped /\
     List.map blobSize (chunksRef (refs w')) = [120; 130; 140]%Z /\
     recordingBlob (state w') = Some artifact /\
     blobSize artifact = 390%Z).
Proof.
  split; [|split].
  - intros w s mime evs final delivered.
    destruct (session_run w s mime evs final) as (w' & Hrun & Hst & Hc & Hb & _).
    fold delivered in Hc, Hb.
    exists w', (newBlob (keepNonEmpty delivered) mime).
    split; [exact Hrun|]. split; [exact Hst|]. split; [exact Hc|].
    split; [exact Hb|]. split; [reflexivity|]. split; [reflexivity|].
    split; [apply concat_keepNonEmpty|].
    rewrite blobSize_newBlob. fold (totalSize (keepNonEmpty delivered)).
    split; [reflexivity|apply totalSize_keepNonEmpty].
  - do 2 eexists. split; [evaluate|]. split; [evaluate|]. split; [evaluate|].
    split; [evaluate|]. evaluate.
  - do 2 eexists. split; [evaluate|]. split; [evaluate|]. split; [evaluate|].
    split; [evaluate|]. evaluate.
Qed.

(** ** The encoding format *)

(** One step either is a grant of a pending request, which calls
    getBestSupportedMimeType once and stores what it returns, or calls
    nothing and leaves the stored format. *)
Lemma format_of_step (a : Action) (w w' : World) :
  step a w = Ok w' ->
  (exists q s mime, a = Granted q s mime /\ isPending q w = true /\
                    mimeCalls (browser w') = S (mimeCalls (browser w)) /\
                    mimeTypeRef (refs w') = Some mime) \/
  (mimeCalls (browser w') = mimeCalls (browser w) /\
   mimeTypeRef (refs w') = mimeTypeRef (refs w)).
Proof.
  intros H. destruct a; cbn [step] in H.
  - injection H as <-. right. shapes. split; reflexivity.
  - apply stopRecording_inv in H as [_ ->|rid r ss _ _ _ ->]; right;
      [|shapes]; split; reflexivity.
  - apply togglePauseResume_inv in H
      as [_ ->|rid r _ _ _ ->|rid r _ _ _ ->|rid r _ _ _ ->|rid r _ _ _ ->];
      right; shapes; split; reflexivity.
  - injection H as <-. right. shapes. split; reflexivity.
  - apply cleanup_inv in H as [ss _ ->|rid r ss ss' _ _ _ _ ->];
      right; shapes; split; reflexivity.
  - apply step_Granted_inv in H as [[_ ->]|(Hp & _ & Hr & Hm)].
    + right. split; reflexivity.
    + left. exists q, stream, mime. rewrite Hr. auto.
  - right. destruct (isPending q w); injection H as <-; shapes; split; reflexivity.
  - right. destruct (recorders (browser w) !! rid); injection H as <-;
      shapes; split; reflexivity.
  - right. destruct (isFiring t w); injection H as <-; shapes; split; reflexivity.
  - apply step_GrantedUnsupported_inv in H as [_ ->]. right. split; reflexivity.
Qed.

(** C9 as specified fails on this run: one startRecording whose request
    is rejected makes no call of getBestSupportedMimeType and stores no
    format, so that start selects no format at all. *)
Lemma rejected_start_selects_no_format :
  exists w',
    run [StartRecording; Denied 0] initial_world = Ok w' /\
    mimeCalls (browser w') = 0 /\
    mimeTypeRef (refs w') = None.
Proof. eexists. split; [evaluate|]. vm_compute. split; reflexivity. Qed.

(** C9, amended.  The format is selected exactly once per startRecording
    whose request is granted, by one call of getBestSupportedMimeType
    inside the resolution callback, and never by startRecording itself, a
    rejection, togglePauseResume, stopRecording, reset, a fragment or a
    tick; through a whole session the collaborator is called once and the
    format stored at the stop is the one selected at the grant. *)
Theorem format_selected_once_per_granted_start :
  (forall (a : Action) (w w' : World),
     step a w = Ok w' ->
     (exists q s mime, a = Granted q s mime /\ isPending q w = true /\
                       mimeCalls (browser w') = S (mimeCalls (browser w)) /\
                       mimeTypeRef (refs w') = Some mime) \/
     (mimeCalls (browser w') = mimeCalls (browser w) /\
      mimeTypeRef (refs w') = mimeTypeRef (refs w))) /\
  (forall (w : World) (s : MediaStream) (mime : string)
          (evs : list SessionEvent) (final : Blob),
     exists w',
       run (session (nextRequest (browser w)) s mime
                    (length (recorders (browser w))) evs final) w = Ok w' /\
       mimeCalls (browser w') = S (mimeCalls (browser w)) /\
       mimeTypeRef (refs w') = Some mime /\
       exists artifact, recordingBlob (state w') = Some artifact /\
                        blobType artifact = normalizeType mime) /\
  (forall (w : World),
     exists w',
       run [StartRecording; Denied (nextRequest (browser w))] w = Ok w' /\
       mimeCalls (browser w') = mimeCalls (browser w) /\
       mimeTypeRef (refs w') = mimeTypeRef (refs w)).
Proof.
  split; [exact format_of_step|]. split.
  - intros w s mime evs final.
    destruct (session_run w s mime evs final) as (w' & Hrun & _ & _ & Hb & Hm & Hc).
    exists w'. split; [exact Hrun|]. split; [exact Hc|]. split; [exact Hm|].
    eexists; split; [exact Hb|reflexivity].
  - intros w. cbn [run step mbind result_bind].
    destruct (step_Denied_frame (nextRequest (browser w)) (startRecording w))
      as (w' & Hd & _ & Hr & _).
    unfold step in Hd. rewrite Hd. exists w'. split; [reflexivity|].
    assert (Hb : mimeCalls (browser w') = mimeCalls (browser (startRecording w))).
    { destruct (isPending (nextRequest (browser w)) (startRecording w));
        injection Hd as <-; shapes; reflexivity. }
    rewrite Hb, Hr. shapes. split; reflexivity.
Qed.

(** ** The stores, and the steps that throw *)

Lemma failedGrant_frame (q : RequestId) (s : MediaStream) (answer : option string)
    (w : World) :
  let w' := failedGrant q s answer w in
  state w' = state w /\
  mediaRecorderRef (refs w') = mediaRecorderRef (refs w) /\
  chunksRef (refs w') = chunksRef (refs w) /\
  timerIntervalRef (refs w') = timerIntervalRef (refs w) /\
  recorders (browser w') = recorders (browser w) /\
  streams (browser w') = streams (browser w) ++ [s] /\
  intervals (browser w') = intervals (browser w) /\
  objectUrls (browser w') = objectUrls (browser w) /\
  nextUrl (browser w') = nextUrl (browser w) /\
  mediaStreamRef (refs w') = Some (length (streams (browser w))) /\
  mimeCalls (browser w') = S (mimeCalls (browser w)) /\
  mimeTypeRef (refs w') = match answer with
                          | Some mime => Some mime
                          | None => mimeTypeRef (refs w)
                          end.
Proof. world w. destruct answer; repeat split. Qed.

Lemma map_rstream_insert (rs : list MediaRecorder) rid r r' :
  rs !! rid = Some r -> rstream r' = rstream r ->
  List.map rstream (<[rid := r']> rs) = List.map rstream rs.
Proof.
  revert rid; induction rs as [|x rs IH]; intros [|rid]; simpl; try discriminate.
  - intros [= ->] ->. reflexivity.
  - intros H E. f_equal. eapply IH; eauto.
Qed.

Lemma storeInv_frame (w w' : World) :
  storeInv w ->
  mediaRecorderRef (refs w') = mediaRecorderRef (refs w) \/
  mediaRecorderRef (refs w') = None ->
  List.map rstream (recorders (browser w')) = List.map rstream (recorders (browser w)) ->
  length (streams (browser w')) = length (streams (browser w)) ->
  storeInv w'.
Proof.
  unfold storeInv. intros [H1 H2] Hm Hr Hs. rewrite Hr, Hs. split; [|exact H2].
  intros rid Hrid. destruct Hm as [Hm|Hm]; rewrite Hm in Hrid; [auto|discriminate].
Qed.

Ltac same_store H3 :=
  apply (storeInv_frame _ _ H3); shapes; auto.

Lemma storeInv_step (a : Action) (w w' : World) :
  storeInv w -> step a w = Ok w' -> storeInv w'.
Proof.
  intros H3 H. destruct a; cbn [step] in H.
  - injection H as <-. same_store H3.
  - apply stopRecording_inv in H as [_ ->|rid r ss Hb _ Hlen ->]; [exact H3|].
    apply boundRecorder_Some in Hb as [Href Hr]. same_store H3.
    eapply map_rstream_insert; eauto.
  - apply togglePauseResume_inv in H
      as [_ ->|rid r Hb _ _ ->|rid r Hb _ _ ->|rid r Hb _ _ ->|rid r Hb _ _ ->];
      try exact H3; apply boundRecorder_Some in Hb as [Href Hr]; same_store H3;
      rewrite ?alter_insert_eq; eapply map_rstream_insert; eauto.
  - injection H as <-. same_store H3.
  - apply cleanup_inv in H as [ss Hlen ->|rid r ss ss' Hb _ Hlen Hlen' ->].
    + same_store H3.
    + apply boundRecorder_Some in Hb as [Href Hr]. same_store H3.
      eapply map_rstream_insert; eauto.
  - destruct (isPending q w) eqn:Hp.
    + destruct (step_Granted_spec q stream mime w Hp)
        as (w2 & Hg & _ & Hr & Hrec & Hst & _).
      unfold step in Hg. rewrite Hp in Hg. rewrite Hg in H.
      injection H as <-. destruct H3 as [H1 H2].
      unfold storeInv. rewrite Hr, Hrec, Hst. cbn [mediaRecorderRef].
      rewrite List.map_app, !length_app, length_map. cbn [List.map length rstream
        startedRecorder]. split.
      * intros rid [= <-]. lia.
      * apply Forall_app. split.
        -- eapply Forall_impl; [exact H2|]. cbn. intros; lia.
        -- constructor; [lia|constructor].
    + injection H as <-. exact H3.
  - destruct (isPending q w); injection H as <-; [same_store H3|exact H3].
  - destruct (recorders (browser w) !! rid); injection H as <-;
      [same_store H3|exact H3].
  - destruct (isFiring t w); injection H as <-; [same_store H3|exact H3].
  - apply step_GrantedUnsupported_inv in H as [_ ->]. exact H3.
Qed.

Lemma storeInv_failedGrant (q : RequestId) (s : MediaStream) (answer : option string)
    (w : World) :
  storeInv w -> storeInv (failedGrant q s answer w).
Proof.
  destruct (failedGrant_frame q s answer w) as (_ & Hm & _ & _ & Hr & Hs & _).
  unfold storeInv. rewrite Hm, Hr, Hs, length_app. intros [H1 H2].
  split; [exact H1|]. eapply Forall_impl; [exact H2|]. cbn. intros; lia.
Qed.

Lemma storeInv_bound (w : World) rid :
  storeInv w -> mediaRecorderRef (refs w) = Some rid ->
  exists r s, boundRecorder w = Some (rid, r) /\
              streams (browser w) !! rstream r = Some s.
Proof.
  intros [H1 H2] Href. specialize (H1 rid Href). rewrite length_map in H1.
  destruct (lookup_lt_is_Some_2 _ _ H1) as [r Hr].
  assert (Hin : In (rstream r) (List.map rstream (recorders (browser w)))).
  { apply in_map. apply list_elem_of_In. eapply list_elem_of_lookup_2; eauto. }
  rewrite Forall_forall in H2. apply list_elem_of_In, H2 in Hin.
  destruct (lookup_lt_is_Some_2 _ _ Hin) as [s Hs].
  exists r, s. split; [|exact Hs]. apply boundRecorder_Some. auto.
Qed.

(** The unmount cleanup never throws where the refs name objects of the
    stores. *)
Lemma cleanup_total (final : Blob) (w : World) :
  storeInv w -> exists w', cleanup final w = Ok w'.
Proof.
  intros H3.
  destruct (mediaRecorderRef (refs w)) as [rid|] eqn:Href;
    [|rewrite (cleanup_unbound final w Href); eauto].
  destruct (storeInv_bound w rid H3 Href) as (r & s & Hb & Hs).
  destruct (decide (rstate r = RInactive)) as [Hst|Hst];
    [rewrite (cleanup_inactive final w rid r s Hb Hs (or_introl Hst)); eauto|].
  destruct s as [|t s];
    [rewrite (cleanup_inactive final w rid r [] Hb Hs (or_intror eq_refl)); eauto|].
  rewrite (cleanup_active final w rid r (t :: s) Hb Hst Hs) by discriminate.
  destruct (stop_spec final w rid r (t :: s) Hb Hst Hs) as (w' & Hstop & _). eauto.
Qed.

(** Where the refs name objects of the stores every action is processed
    without exception, but a granted request whose callback throws. *)
Lemma step_total (w : World) (a : Action) :
  storeInv w ->
  (exists w', step a w = Ok w') \/
  (exists q s answer, a = GrantedUnsupported q s answer /\ isPending q w = true).
Proof.
  intros H3. destruct a; cbn [step]; eauto.
  - left. rewrite stopRecording_eq. unfold lookupRecorder.
    destruct (mediaRecorderRef (refs w)) as [rid|] eqn:Href; [|eauto].
    destruct (storeInv_bound w rid H3 Href) as (r & s & Hb & Hs).
    destruct (decide (rstate r = RInactive)) as [Hst|Hst].
    + apply boundRecorder_Some in Hb as [_ Hrec]. rewrite Hrec.
      cbn [mbind result_bind]. rewrite Hst. eauto.
    + destruct (stop_spec final w rid r s Hb Hst Hs) as (w' & Hstop & _).
      rewrite stopRecording_eq in Hstop. unfold lookupRecorder in Hstop.
      rewrite Href in Hstop. eauto.
  - left. destruct (mediaRecorderRef (refs w)) as [rid|] eqn:Href.
    + destruct (storeInv_bound w rid H3 Href) as (r & s & Hb & Hs).
      eapply togglePauseResume_total; eauto.
    + rewrite togglePauseResume_eq, Href. eauto.
  - left. apply cleanup_total, H3.
  - left. destruct (isPending q w) eqn:Hp; [|eauto].
    destruct (step_Granted_spec q stream mime w Hp) as (w' & Hg & _).
    unfold step in Hg. rewrite Hp in Hg. eauto.
  - left. destruct (isPending q w); eauto.
  - left. destruct (recorders (browser w) !! rid); eauto.
  - left. destruct (isFiring t w); eauto.
  - destruct (isPending q w) eqn:Hp; eauto 6.
Qed.

(** The only step that throws is a granted request whose callback
    throws. *)
Lemma step_throw_inv (a : Action) (e : Exn) (w w' : World) :
  storeInv w -> step a w = Throw e w' ->
  exists q s answer,
    a = GrantedUnsupported q s answer /\ isPending q w = true /\
    e = grantException answer /\ w' = failedGrant q s answer w.
Proof.
  intros H3 H. destruct (step_total w a H3) as [(w1 & E)|(q & s & answer & -> & Hp)].
  - congruence.
  - rewrite (step_GrantedUnsupported_spec q s answer w Hp) in H.
    injection H as <- <-. eauto 8.
Qed.

Lemma storeInv_reachable (w : World) : reachable w -> storeInv w.
Proof.
  induction 1 as [|a w w' _ IH H|a e w w' _ IH H].
  - split; [discriminate|constructor].
  - eapply storeInv_step; eauto.
  - destruct (step_throw_inv a e w w' IH H) as (q & s & answer & _ & _ & _ & ->).
    apply storeInv_failedGrant, IH.
Qed.

(** The world a throwing step of a reachable world leaves. *)
Lemma reachable_throw_inv (a : Action) (e : Exn) (w w' : World) :
  reachable w -> step a w = Throw e w' ->
  exists q s answer,
    a = GrantedUnsupported q s answer /\ isPending q w = true /\
    e = grantException answer /\ w' = failedGrant q s answer w.
Proof. intros Hr. apply step_throw_inv, storeInv_reachable, Hr. Qed.

(** ** Invariants of the reachable worlds *)

Lemma cleared_inv (w : World) :
  timerInv w -> cleared (timerIntervalRef (refs w)) (intervals (browser w)) = [].
Proof.
  unfold timerInv. intros ->. destruct (timerIntervalRef (refs w)) as [t|]; simpl;
    [rewrite Nat.eqb_refl|]; reflexivity.
Qed.

Lemma pausedInv_frame (w w' : World) :
  pausedInv w ->
  status (state w') = status (state w) ->
  (timerIntervalRef (refs w) = None -> timerIntervalRef (refs w') = None) ->
  mediaRecorderRef (refs w') = mediaRecorderRef (refs w) ->
  recorders (browser w') = recorders (browser w) ->
  pausedInv w'.
Proof.
  unfold pausedInv, boundRecorder. intros H Hs Ht Hm Hr Hp.
  rewrite Hs in Hp. destruct (H Hp) as (H1 & H2).
  rewrite Hm, Hr. auto.
Qed.

Lemma pausedInv_other (w : World) : status (state w) <> Paused -> pausedInv w.
Proof. unfold pausedInv. intros H Hp. contradiction. Qed.

Ltac timer_inv w H1 :=
  unfold timerInv; shapes; rewrite ?(cleared_inv w H1); first [reflexivity | exact H1].

Ltac same_paused H2 :=
  apply (pausedInv_frame _ _ H2); shapes; first [reflexivity | congruence | auto].

Lemma step_Granted_intervals (q : RequestId) (s : MediaStream) (mime : string)
    (w w' : World) :
  step (Granted q s mime) w = Ok w' ->
  isPending q w = true ->
  intervals (browser w') =
  intervals (browser (_clearTimer w)) ++ [nextInterval (browser w)].
Proof.
  intros H Hp. unfold step in H. rewrite Hp in H.
  destruct (newStream s (settleRequest q w)) as [sid w1] eqn:E.
  unfold newStream in E. injection E as <- <-.
  match type of H with onGranted ?x (Some ?y) true ?z = _ =>
    destruct (onGranted_spec x y z) as (w3 & Hg3 & _ & _ & _ & _ & Hi3 & _)
  end.
  rewrite Hg3 in H. injection H as <-. rewrite Hi3. shapes. reflexivity.
Qed.

Lemma invariants_step (a : Action) (w w' : World) :
  timerInv w /\ pausedInv w -> step a w = Ok w' -> timerInv w' /\ pausedInv w'.
Proof.
  intros [H1 H2] H. destruct a; cbn [step] in H.
  - injection H as <-. split; [timer_inv w H1|].
    apply pausedInv_other. shapes. discriminate.
  - apply stopRecording_inv in H as [_ ->|rid r ss _ _ _ ->]; [auto|].
    split; [timer_inv w H1|]. apply pausedInv_other. shapes. discriminate.
  - apply togglePauseResume_inv in H
      as [_ ->|rid r Hb Hst Hp ->|rid r Hb Hst Hp ->|rid r Hb Hst Hp ->|rid r Hb Hst Hp ->].
    + auto.
    + split; [timer_inv w H1|]. apply pausedInv_other. shapes.
      destruct (H2 Hp) as (_ & rid' & r' & Hb' & _ & Hn).
      rewrite Hb in Hb'. injection Hb' as <- <-.
      destruct (resumeListeners r); [lia|discriminate].
    + exfalso. destruct (H2 Hp) as (_ & rid' & r' & Hb' & Hst' & _).
      rewrite Hb in Hb'. injection Hb' as <- <-. congruence.
    + split; [timer_inv w H1|]. intros _. shapes. split; [reflexivity|].
      apply boundRecorder_Some in Hb as [Href Hr].
      exists rid, (add_resumeListener (with_rstate RPaused r)).
      split; [|split; [reflexivity|simpl; lia]].
      apply boundRecorder_Some. shapes. split; [exact Href|].
      rewrite alter_insert_eq. eapply lookup_insert_same; eauto.
    + split; [timer_inv w H1|]. apply pausedInv_other. shapes. exact Hp.
  - injection H as <-. split; [timer_inv w H1|].
    apply pausedInv_other. shapes. discriminate.
  - apply cleanup_inv in H as [ss _ ->|rid r ss ss' _ _ _ _ ->].
    + split; [timer_inv w H1|]. same_paused H2.
    + split; [timer_inv w H1|]. apply pausedInv_other. shapes. discriminate.
  - pose proof (step_Granted_intervals _ _ _ _ _ H) as Hi.
    apply step_Granted_inv in H as [[_ ->]|(Hp & Hs & Hr & _)]; [auto|].
    specialize (Hi Hp).
    split; [|apply pausedInv_other; rewrite Hs; discriminate].
    unfold timerInv. rewrite Hr, Hi. rewrite clearTimer_shape. shapes.
    rewrite (cleared_inv w H1). reflexivity.
  - destruct (isPending q w); injection H as <-; [|auto].
    split; [timer_inv w H1|]. same_paused H2.
  - destruct (recorders (browser w) !! rid); injection H as <-; [|auto].
    split; [timer_inv w H1|]. same_paused H2.
  - destruct (isFiring t w); injection H as <-; [|auto].
    split; [timer_inv w H1|]. same_paused H2.
  - apply step_GrantedUnsupported_inv in H as [_ ->]. auto.
Qed.

Lemma reachable_run (tr : list Action) (w w' : World) :
  reachable w -> run tr w = Ok w' -> reachable w'.
Proof.
  revert w; induction tr as [|a tr IH]; intros w Hw H; simpl in H.
  - injection H as <-. exact Hw.
  - destruct (step a w) as [w1|] eqn:E; [|discriminate].
    eapply IH; [|exact H]. eapply reachable_step; eauto.
Qed.

Lemma invariants_reachable (w : World) : reachable w -> timerInv w /\ pausedInv w.
Proof.
  induction 1 as [|a w w' _ IH H|a e w w' Hr IH H].
  - split; [reflexivity|]. apply pausedInv_other. discriminate.
  - eapply invariants_step; eauto.
  - destruct (reachable_throw_inv a e w w' Hr H) as (q & s & answer & _ & _ & _ & ->).
    destruct (failedGrant_frame q s answer w)
      as (Hs & Hm & _ & Ht & Hrec & _ & Hi & _).
    destruct IH as [H1 H2]. split.
    + unfold timerInv. rewrite Hi, Ht. exact H1.
    + apply (pausedInv_frame _ _ H2); [rewrite Hs| rewrite Ht|..]; auto.
Qed.

(** ** The elapsed time *)


Section WhilePaused.

Variable w : World.
Hypothesis Htimer : timerInv w.
Hypothesis Hpaused : pausedInv w.
Hypothesis Hstatus : status (state w) = Paused.



End WhilePaused.




(** ** The status mirrors the bound recorder *)

Lemma expectedStatus_frame (w w' : World) :
  mediaRecorderRef (refs w') = mediaRecorderRef (refs w) ->
  recorders (browser w') = recorders (browser w) ->
  expectedStatus w' = expectedStatus w.
Proof. unfold expectedStatus, boundRecorder. intros -> ->. reflexivity. Qed.

Lemma expectedStatus_update (w w' : World) rid r r' :
  boundRecorder w = Some (rid, r) ->
  mediaRecorderRef (refs w') = Some rid ->
  recorders (browser w') = <[rid := r']> (recorders (browser w)) ->
  expectedStatus w' = statusOfRecorder (rstate r').
Proof.
  intros [_ Hr]%boundRecorder_Some Href Hrec.
  unfold expectedStatus, boundRecorder.
  rewrite Href, Hrec, (lookup_insert_same _ _ _ _ Hr). reflexivity.
Qed.

Lemma expectedStatus_unbound (w : World) :
  mediaRecorderRef (refs w) = None -> expectedStatus w = Idle.
Proof. unfold expectedStatus, boundRecorder. intros ->. reflexivity. Qed.

Lemma statusInv_bound (w : World) rid r :
  statusInv w -> boundRecorder w = Some (rid, r) ->
  status (state w) = statusOfRecorder (rstate r).
Proof. unfold statusInv, expectedStatus. intros -> ->. reflexivity. Qed.

Ltac same_status H4 :=
  unfold statusInv; rewrite (expectedStatus_frame _ _) by (shapes; reflexivity);
  shapes; exact H4.

Lemma statusInv_step (a : Action) (w w' : World) :
  statusInv w -> pausedInv w -> step a w = Ok w' -> statusInv w'.
Proof.
  intros H4 H2 H. destruct a; cbn [step] in H.
  - injection H as <-. unfold statusInv.
    rewrite expectedStatus_unbound by (shapes; reflexivity). shapes. reflexivity.
  - apply stopRecording_inv in H as [_ ->|rid r ss Hb _ _ ->]; [exact H4|].
    unfold statusInv.
    rewrite (expectedStatus_update w _ rid r (with_rstate RInactive r) Hb);
      shapes; try reflexivity. apply boundRecorder_Some in Hb. tauto.
  - apply togglePauseResume_inv in H
      as [_ ->|rid r Hb Hst Hp ->|rid r Hb Hst Hp ->|rid r Hb Hst Hp ->|rid r Hb Hst Hp ->].
    + exact H4.
    + unfold statusInv.
      rewrite (expectedStatus_update w _ rid r (with_rstate RRecording r) Hb);
        shapes; try reflexivity; [|apply boundRecorder_Some in Hb; tauto].
      destruct (H2 Hp) as (_ & rid' & r' & Hb' & _ & Hn).
      rewrite Hb in Hb'. injection Hb' as <- <-.
      destruct (resumeListeners r); [lia|reflexivity].
    + exfalso. rewrite (statusInv_bound w rid r H4 Hb), Hst in Hp. discriminate.
    + unfold statusInv.
      rewrite (expectedStatus_update w _ rid r
                 (add_resumeListener (with_rstate RPaused r)) Hb);
        shapes; rewrite ?alter_insert_eq; try reflexivity.
      apply boundRecorder_Some in Hb. tauto.
    + exfalso. rewrite (statusInv_bound w rid r H4 Hb), Hst in Hp. contradiction.
  - injection H as <-. unfold statusInv.
    rewrite expectedStatus_unbound by (shapes; reflexivity). shapes. reflexivity.
  - apply cleanup_inv in H as [ss _ ->|rid r ss ss' Hb _ _ _ ->]; [same_status H4|].
    unfold statusInv.
    rewrite (expectedStatus_update w _ rid r (with_rstate RInactive r) Hb);
      shapes; try reflexivity. apply boundRecorder_Some in Hb. tauto.
  - destruct (isPending q w) eqn:Hp.
    + destruct (step_Granted_spec q stream mime w Hp) as (w2 & Hg & Hs & Hr & Hrec & _).
      unfold step in Hg. rewrite Hp in Hg. rewrite Hg in H. injection H as <-.
      unfold statusInv, expectedStatus, boundRecorder.
      rewrite Hs, Hr, Hrec. cbn [status mediaRecorderRef]. rewrite lookup_snoc.
      reflexivity.
    + injection H as <-. exact H4.
  - destruct (isPending q w); injection H as <-; [same_status H4|exact H4].
  - destruct (recorders (browser w) !! rid); injection H as <-;
      [same_status H4|exact H4].
  - destruct (isFiring t w); injection H as <-; [same_status H4|exact H4].
  - apply step_GrantedUnsupported_inv in H as [_ ->]. exact H4.
Qed.

Lemma statusInv_reachable (w : World) : reachable w -> statusInv w.
Proof.
  induction 1 as [|a w w' Hr IH H|a e w w' Hr IH H]; [reflexivity| |].
  - eapply statusInv_step; eauto. apply invariants_reachable, Hr.
  - destruct (reachable_throw_inv a e w w' Hr H) as (q & s & answer & _ & _ & _ & ->).
    destruct (failedGrant_frame q s answer w) as (Hs & Hm & _ & _ & Hrec & _).
    unfold statusInv. rewrite (expectedStatus_frame w _ Hm Hrec), Hs. exact IH.
Qed.

(** ** A timer only while recording *)




(** ** The object URLs *)

Lemma find_snoc_fresh (l : list (ObjectURL * Blob)) (n : ObjectURL) (b : Blob) :
  Forall (fun p => fst p < n) l ->
  List.find (fun p => Nat.eqb (fst p) n) (l ++ [(n, b)]) = Some (n, b).
Proof.
  induction 1 as [|p l Hp _ IH]; simpl; [rewrite Nat.eqb_refl; reflexivity|].
  destruct (Nat.eqb (fst p) n) eqn:E; [apply Nat.eqb_eq in E; lia|exact IH].
Qed.

Lemma Forall_revoked (P : ObjectURL * Blob -> Prop) o (l : list (ObjectURL * Blob)) :
  Forall P l -> Forall P (revoked o l).
Proof.
  intros H. destruct o as [u|]; simpl; [|exact H].
  rewrite Forall_forall in *. intros x Hx.
  apply list_elem_of_In, filter_In in Hx as [Hx _]. apply H, list_elem_of_In, Hx.
Qed.

Lemma Forall_older_snoc (l : list (ObjectURL * Blob)) (n : ObjectURL) (b : Blob) :
  Forall (fun p => fst p < n) l -> Forall (fun p => fst p < S n) (l ++ [(n, b)]).
Proof.
  intros H. apply Forall_app. split.
  - eapply Forall_impl; [exact H|]. cbn. intros; lia.
  - constructor; [simpl; lia|constructor].
Qed.

Lemma urlInv_frame (w w' : World) :
  urlInv w ->
  objectUrls (browser w') = objectUrls (browser w) ->
  nextUrl (browser w') = nextUrl (browser w) ->
  blobUrl (state w') = blobUrl (state w) \/ blobUrl (state w') = None ->
  recordingBlob (state w') = recordingBlob (state w) \/
  recordingBlob (state w') = None ->
  urlInv w'.
Proof.
  unfold urlInv, resolveURL. intros [HA HB] Ho Hn Hu Hb. rewrite Ho, Hn.
  split; [exact HA|]. intros u Hu'.
  destruct Hu as [Hu|Hu]; rewrite Hu in Hu'; [|discriminate].
  destruct (HB u Hu') as (b & Hres & Hsame). exists b. split; [exact Hres|].
  intros b' Hb'. destruct Hb as [Hb|Hb]; rewrite Hb in Hb'; [auto|discriminate].
Qed.

Ltac same_urls H6 :=
  apply (urlInv_frame _ _ H6); shapes; auto.

Lemma urlInv_issue (w w' : World) (l : list (ObjectURL * Blob)) (b : Blob) :
  Forall (fun p => fst p < nextUrl (browser w)) l ->
  objectUrls (browser w') = l ++ [(nextUrl (browser w), b)] ->
  nextUrl (browser w') = S (nextUrl (browser w)) ->
  blobUrl (state w') = Some (nextUrl (browser w)) ->
  recordingBlob (state w') = Some b ->
  urlInv w'.
Proof.
  unfold urlInv, resolveURL. intros Hl Ho Hn Hu Hb. rewrite Ho, Hn, Hu, Hb.
  split; [apply Forall_older_snoc, Hl|].
  intros u [= <-]. exists b. rewrite (find_snoc_fresh _ _ _ Hl).
  split; [reflexivity|]. intros b' [= <-]. reflexivity.
Qed.

Lemma step_Granted_urls (q : RequestId) (s : MediaStream) (mime : string)
    (w w' : World) :
  step (Granted q s mime) w = Ok w' ->
  objectUrls (browser w') = objectUrls (browser w) /\
  nextUrl (browser w') = nextUrl (browser w).
Proof.
  intros H. unfold step in H. destruct (isPending q w); [|injection H as <-; auto].
  destruct (newStream s (settleRequest q w)) as [sid w1] eqn:E.
  unfold newStream in E. injection E as <- <-.
  match type of H with onGranted ?x (Some ?y) true ?z = _ =>
    destruct (onGranted_spec x y z) as (w3 & Hg3 & _ & _ & _ & _ & _ & Ho3 & Hn3 & _)
  end.
  rewrite Hg3 in H. injection H as <-. rewrite Ho3, Hn3. shapes. auto.
Qed.

Lemma urlInv_step (a : Action) (w w' : World) :
  urlInv w -> statusInv w -> step a w = Ok w' -> urlInv w'.
Proof.
  intros H6 H4 H. pose proof H6 as [HA HB]. destruct a; cbn [step] in H.
  - injection H as <-. same_urls H6.
  - apply stopRecording_inv in H as [_ ->|rid r ss Hb _ _ ->]; [exact H6|].
    eapply (urlInv_issue w _ (objectUrls (browser w))); [exact HA|shapes; reflexivity..].
  - apply togglePauseResume_inv in H
      as [_ ->|rid r Hb Hst Hp ->|rid r Hb Hst Hp ->|rid r Hb Hst Hp ->|rid r Hb Hst Hp ->].
    + exact H6.
    + same_urls H6.
    + same_urls H6.
    + eapply (urlInv_issue w _ (revoked (blobUrl (state w)) (objectUrls (browser w))));
        [apply Forall_revoked, HA|shapes; reflexivity..].
    + exfalso. rewrite (statusInv_bound w rid r H4 Hb), Hst in Hp. contradiction.
  - injection H as <-. same_urls H6.
  - apply cleanup_inv in H as [ss _ ->|rid r ss ss' _ _ _ _ ->]; [same_urls H6|].
    eapply (urlInv_issue w _ (objectUrls (browser w))); [exact HA|shapes; reflexivity..].
  - destruct (step_Granted_urls _ _ _ _ _ H) as [Hou Hnu].
    apply step_Granted_inv in H as [[_ ->]|(_ & Hs & _)]; [exact H6|].
    apply (urlInv_frame _ _ H6); [exact Hou|exact Hnu|rewrite Hs; auto..].
  - destruct (isPending q w); injection H as <-; [same_urls H6|exact H6].
  - destruct (recorders (browser w) !! rid); injection H as <-;
      [same_urls H6|exact H6].
  - destruct (isFiring t w); injection H as <-; [same_urls H6|exact H6].
  - apply step_GrantedUnsupported_inv in H as [_ ->]. exact H6.
Qed.

Lemma urlInv_reachable (w : World) : reachable w -> urlInv w.
Proof.
  induction 1 as [|a w w' Hr IH H|a e w w' Hr IH H].
  - split; [constructor|discriminate].
  - eapply urlInv_step; eauto. apply statusInv_reachable, Hr.
  - destruct (reachable_throw_inv a e w w' Hr H) as (q & s & answer & _ & _ & _ & ->).
    destruct (failedGrant_frame q s answer w)
      as (Hs & _ & _ & _ & _ & _ & _ & Ho & Hn & _).
    apply (urlInv_frame _ _ IH); [exact Ho|exact Hn|rewrite Hs; auto..].
Qed.

(** ** The chunks and the artifact *)

Lemma Forall_keepNonEmpty (l : list Blob) :
  Forall (fun b => (0 < blobSize b)%Z) (keepNonEmpty l).
Proof.
  unfold keepNonEmpty. rewrite Forall_forall. intros b Hb.
  apply list_elem_of_In, filter_In in Hb as [_ Hb]. apply Z.ltb_lt, Hb.
Qed.

(** One step empties the chunks (startRecording, reset) or appends at most
    one blob, which is not empty. *)
Lemma chunks_of_step (a : Action) (w w' : World) :
  step a w = Ok w' ->
  ((a = StartRecording \/ a = ReleaseResources) /\ chunksRef (refs w') = []) \/
  (exists data, chunksRef (refs w') = chunksRef (refs w) ++ keepNonEmpty [data]) .
Proof.
  intros H. destruct a; cbn [step] in H.
  - injection H as <-. left. shapes. auto.
  - apply stopRecording_inv in H as [_ ->|rid r ss Hb _ _ ->]; right.
    + exists (zeros 0 ""). cbn. rewrite app_nil_r. reflexivity.
    + exists final. shapes. reflexivity.
  - right. exists (zeros 0 ""). cbn [keepNonEmpty List.filter zeros blobSize blobData
      repeat length Z.of_nat Z.ltb Z.compare]. rewrite app_nil_r.
    apply togglePauseResume_inv in H
      as [_ ->|rid r _ _ _ ->|rid r _ _ _ ->|rid r _ _ _ ->|rid r _ _ _ ->];
      shapes; reflexivity.
  - injection H as <-. left. shapes. auto.
  - right. apply cleanup_inv in H as [ss _ ->|rid r ss ss' _ _ _ _ ->].
    + exists (zeros 0 ""). cbn. rewrite app_nil_r. shapes. reflexivity.
    + exists final. shapes. reflexivity.
  - right. exists (zeros 0 ""). cbn. rewrite app_nil_r.
    apply step_Granted_inv in H as [[_ ->]|(_ & _ & Hr & _)]; [|rewrite Hr]; reflexivity.
  - right. exists (zeros 0 ""). cbn. rewrite app_nil_r.
    destruct (isPending q w); injection H as <-; reflexivity.
  - right. destruct (recorders (browser w) !! rid); injection H as <-.
    + exists data. shapes. reflexivity.
    + exists (zeros 0 ""). cbn. rewrite app_nil_r. reflexivity.
  - right. exists (zeros 0 ""). cbn. rewrite app_nil_r.
    destruct (isFiring t w); injection H as <-; reflexivity.
  - right. exists (zeros 0 ""). cbn. rewrite app_nil_r.
    apply step_GrantedUnsupported_inv in H as [_ ->]. reflexivity.
Qed.

Lemma chunksInv_reachable (w : World) : reachable w -> chunksInv w.
Proof.
  induction 1 as [|a w w' Hr IH H|a e w w' Hr IH H]; [constructor| |].
  - unfold chunksInv in *.
    destruct (chunks_of_step a w w' H) as [(_ & ->)|(data & ->)]; [constructor|].
    apply Forall_app. split; [exact IH|apply Forall_keepNonEmpty].
  - destruct (reachable_throw_inv a e w w' Hr H) as (q & s & answer & _ & _ & _ & ->).
    destruct (failedGrant_frame q s answer w) as (_ & _ & Hc & _).
    unfold chunksInv. rewrite Hc. exact IH.
Qed.

Lemma artifactInv_step (a : Action) (w w' : World) :
  artifactInv w -> step a w = Ok w' -> artifactInv w'.
Proof.
  intros H7 H.
  destruct (artifact_of_step a w w' H) as [Hkept|[Hnone|(Hnew & _)]].
  - intros b Hb. rewrite Hkept in Hb. destruct (H7 b Hb) as (rest & Hrest).
    destruct (chunks_of_step a w w' H) as [([-> | ->] & _)|(data & ->)].
    + injection H as <-. revert Hkept Hb. shapes. congruence.
    + injection H as <-. revert Hkept Hb. shapes. congruence.
    + exists (rest ++ List.concat (List.map blobData (keepNonEmpty [data]))).
      rewrite List.map_app, List.concat_app, Hrest, app_assoc. reflexivity.
  - intros b Hb. congruence.
  - intros b Hb. rewrite Hnew in Hb. injection Hb as <-.
    exists []. rewrite app_nil_r. reflexivity.
Qed.

Lemma artifactInv_reachable (w : World) : reachable w -> artifactInv w.
Proof.
  induction 1 as [|a w w' Hr IH H|a e w w' Hr IH H]; [discriminate| |].
  - eapply artifactInv_step; eauto.
  - destruct (reachable_throw_inv a e w w' Hr H) as (q & s & answer & _ & _ & _ & ->).
    destruct (failedGrant_frame q s answer w) as (Hs & _ & Hc & _).
    unfold artifactInv. rewrite Hs, Hc. exact IH.
Qed.

(** ** One stream per grant, one recorder per stream *)

Lemma map_made_insert (rs : list MediaRecorder) rid r r' :
  rs !! rid = Some r -> recorderMade r' = recorderMade r ->
  List.map recorderMade (<[rid := r']> rs) = List.map recorderMade rs.
Proof.
  revert rid; induction rs as [|x rs IH]; intros [|rid]; simpl; try discriminate.
  - intros [= ->] ->. reflexivity.
  - intros H E. f_equal. eapply IH; eauto.
Qed.

Lemma lookup_made (rs' rs : list MediaRecorder) (i : nat) r' :
  List.map recorderMade rs' = List.map recorderMade rs -> rs' !! i = Some r' ->
  exists r, rs !! i = Some r /\ recorderMade r' = recorderMade r.
Proof.
  revert rs i; induction rs' as [|x rs' IH]; intros [|y rs] i E Hi;
    cbn [List.map] in E; try discriminate.
  pose proof (f_equal (@hd_error _) E) as E1.
  pose proof (f_equal (@tl _) E) as E2. cbn [hd_error tl] in E1, E2.
  assert (E3 : recorderMade x = recorderMade y) by congruence.
  destruct i as [|i]; cbn in Hi |- *.
  - injection Hi as <-. eauto.
  - eapply IH; eauto.
Qed.

Lemma bookInv_keys (w w' : World) :
  bookInv w ->
  List.map recorderMade (recorders (browser w'))
  = List.map recorderMade (recorders (browser w)) ->
  length (streams (browser w')) = length (streams (browser w)) ->
  mimeCalls (browser w') = mimeCalls (browser w) ->
  bookInv w'.
Proof.
  unfold bookInv. intros (H1 & H2 & H3) Hrec Hs Hm. rewrite Hs, Hm.
  split; [exact H1|]. split.
  - intros i r' Hi. destruct (lookup_made _ _ i r' Hrec Hi) as (r & Hr & E).
    injection E as -> -> ->. eapply H2, Hr.
  - intros i j ri' rj' Hlt Hi Hj.
    destruct (lookup_made _ _ i ri' Hrec Hi) as (ri & Hri & Ei).
    destruct (lookup_made _ _ j rj' Hrec Hj) as (rj & Hrj & Ej).
    injection Ei as -> _ _. injection Ej as -> _ _. eapply H3; eauto.
Qed.

Ltac same_book H8 :=
  apply (bookInv_keys _ _ H8); shapes; rewrite ?alter_insert_eq; auto;
  try (eapply map_made_insert; [eassumption|reflexivity]).

Lemma bookInv_failedGrant (q : RequestId) (s : MediaStream) (answer : option string)
    (w : World) :
  bookInv w -> bookInv (failedGrant q s answer w).
Proof.
  destruct (failedGrant_frame q s answer w)
    as (_ & _ & _ & _ & Hr & Hs & _ & _ & _ & _ & Hm & _).
  unfold bookInv. rewrite Hr, Hs, Hm, length_app. cbn [length].
  intros (H1 & H2 & H3). split; [lia|]. split; [|exact H3].
  intros i r Hi. destruct (H2 i r Hi) as (E1 & E2 & E3). split; [lia|auto].
Qed.

Lemma bookInv_step (a : Action) (w w' : World) :
  bookInv w -> step a w = Ok w' -> bookInv w'.
Proof.
  intros H8 H. destruct a; cbn [step] in H.
  - injection H as <-. same_book H8.
  - apply stopRecording_inv in H as [_ ->|rid r ss Hb _ Hlen ->]; [exact H8|].
    apply boundRecorder_Some in Hb as [_ Hr]. same_book H8.
  - apply togglePauseResume_inv in H
      as [_ ->|rid r Hb _ _ ->|rid r Hb _ _ ->|rid r Hb _ _ ->|rid r Hb _ _ ->];
      try exact H8; apply boundRecorder_Some in Hb as [_ Hr]; same_book H8.
  - injection H as <-. same_book H8.
  - apply cleanup_inv in H as [ss Hlen ->|rid r ss ss' Hb _ Hlen Hlen' ->].
    + same_book H8.
    + apply boundRecorder_Some in Hb as [_ Hr]. same_book H8.
  - destruct (isPending q w) eqn:Hp.
    + destruct (step_Granted_spec q stream mime w Hp)
        as (w2 & Hg & _ & _ & Hrec & Hst & _ & _ & Hm).
      unfold step in Hg. rewrite Hp in Hg. rewrite Hg in H. injection H as <-.
      destruct H8 as (H1 & H2 & H3). unfold bookInv.
      rewrite Hrec, Hst, Hm, !length_app. cbn [length].
      split; [lia|]. split.
      * intros i r Hr. apply lookup_snoc_Some in Hr as [[_ Hr]|[_ <-]].
        -- destruct (H2 i r Hr) as (E1 & E2 & E3). split; [lia|auto].
        -- cbn. split; [lia|auto].
      * intros i j ri rj Hlt Hi Hj.
        apply lookup_snoc_Some in Hi as [[Hil Hi]|[-> <-]];
          apply lookup_snoc_Some in Hj as [[Hjl Hj]|[-> <-]].
        -- exact (H3 i j ri rj Hlt Hi Hj).
        -- cbn. apply (H2 i ri Hi).
        -- lia.
        -- lia.
    + injection H as <-. exact H8.
  - destruct (isPending q w); injection H as <-; [same_book H8|exact H8].
  - destruct (recorders (browser w) !! rid); injection H as <-;
      [same_book H8|exact H8].
  - destruct (isFiring t w); injection H as <-; [same_book H8|exact H8].
  - apply step_GrantedUnsupported_inv in H as [_ ->]. exact H8.
Qed.

Lemma bookInv_reachable (w : World) : reachable w -> bookInv w.
Proof.
  induction 1 as [|a w w' Hr IH H|a e w w' Hr IH H].
  - split; [reflexivity|]. split; intros; discriminate.
  - eapply bookInv_step; eauto.
  - destruct (reachable_throw_inv a e w w' Hr H) as (q & s & answer & _ & _ & _ & ->).
    apply bookInv_failedGrant, IH.
Qed.

(** One step keeps the recorders of the store, but for the recorder a
    granted request adds. *)
Lemma recorders_of_step (a : Action) (w w' : World) :
  step a w = Ok w' ->
  length (recorders (browser w')) = length (recorders (browser w)) \/
  exists q s mime,
    a = Granted q s mime /\ isPending q w = true /\
    recorders (browser w')
    = recorders (browser w) ++ [startedRecorder (length (streams (browser w))) mime].
Proof.
  intros H. destruct a; cbn [step] in H.
  - injection H as <-. left. shapes. reflexivity.
  - apply stopRecording_inv in H as [_ ->|rid r ss Hb _ _ ->]; left;
      [|shapes; rewrite length_insert]; reflexivity.
  - apply togglePauseResume_inv in H
      as [_ ->|rid r _ _ _ ->|rid r _ _ _ ->|rid r _ _ _ ->|rid r _ _ _ ->];
      left; shapes; rewrite ?alter_insert_eq, ?length_insert; reflexivity.
  - injection H as <-. left. shapes. reflexivity.
  - apply cleanup_inv in H as [ss _ ->|rid r ss ss' _ _ _ _ ->]; left; shapes;
      rewrite ?length_insert; reflexivity.
  - destruct (isPending q w) eqn:Hp.
    + destruct (step_Granted_spec q stream mime w Hp) as (w2 & Hg & _ & _ & Hrec & _).
      unfold step in Hg. rewrite Hp in Hg. rewrite Hg in H. injection H as <-.
      right. eauto 8.
    + injection H as <-. left. reflexivity.
  - left. destruct (isPending q w); injection H as <-; reflexivity.
  - left. destruct (recorders (browser w) !! rid); injection H as <-;
      [shapes|]; reflexivity.
  - left. destruct (isFiring t w); injection H as <-; reflexivity.
  - apply step_GrantedUnsupported_inv in H as [_ ->]. left. reflexivity.
Qed.

(** A recorder that is inactive stays in the store and stays inactive. *)
Lemma inactive_recorder_step (a : Action) (w w' : World) (i : RecorderId) r :
  step a w = Ok w' ->
  recorders (browser w) !! i = Some r -> rstate r = RInactive ->
  recorders (browser w') !! i = Some r.
Proof.
  intros H Hi Hst. destruct a; cbn [step] in H.
  - injection H as <-. shapes. exact Hi.
  - apply stopRecording_inv in H as [_ ->|rid r0 ss Hb Hst0 _ ->]; [exact Hi|].
    shapes. apply boundRecorder_Some in Hb as [_ Hr].
    rewrite list_lookup_insert_ne; [exact Hi|]. intros ->.
    rewrite Hi in Hr. injection Hr as <-. contradiction.
  - apply togglePauseResume_inv in H
      as [_ ->|rid r0 Hb Hst0 _ ->|rid r0 Hb Hst0 _ ->|rid r0 Hb Hst0 _ ->
         |rid r0 Hb Hst0 _ ->];
      try exact Hi; shapes; rewrite ?alter_insert_eq; try exact Hi;
      apply boundRecorder_Some in Hb as [_ Hr];
      (rewrite list_lookup_insert_ne; [exact Hi|]); intros ->;
      rewrite Hi in Hr; injection Hr as <-; congruence.
  - injection H as <-. shapes. exact Hi.
  - apply cleanup_inv in H as [ss _ ->|rid r0 ss ss' Hb Hst0 _ _ ->];
      [shapes; exact Hi|].
    shapes. apply boundRecorder_Some in Hb as [_ Hr].
    rewrite list_lookup_insert_ne; [exact Hi|]. intros ->.
    rewrite Hi in Hr. injection Hr as <-. contradiction.
  - destruct (isPending q w) eqn:Hp.
    + destruct (step_Granted_spec q stream mime w Hp) as (w2 & Hg & _ & _ & Hrec & _).
      unfold step in Hg. rewrite Hp in Hg. rewrite Hg in H. injection H as <-.
      rewrite Hrec. apply lookup_app_l_Some, Hi.
    + injection H as <-. exact Hi.
  - destruct (isPending q w); injection H as <-; [shapes|]; exact Hi.
  - destruct (recorders (browser w) !! rid); injection H as <-; [shapes|]; exact Hi.
  - destruct (isFiring t w); injection H as <-; [shapes|]; exact Hi.
  - apply step_GrantedUnsupported_inv in H as [_ ->]. exact Hi.
Qed.

(** ** Idle is the initial state *)

Lemma idleInv_other (w : World) : status (state w) <> Idle -> idleInv w.
Proof. unfold idleInv. intros H Hi. contradiction. Qed.

Lemma idleInv_step (a : Action) (w w' : World) :
  idleInv w -> timerInv w -> step a w = Ok w' -> idleInv w'.
Proof.
  intros H9 H1 H. destruct a; cbn [step] in H.
  - injection H as <-. intros _. shapes. auto.
  - apply stopRecording_inv in H as [_ ->|rid r ss Hb _ _ ->]; [exact H9|].
    apply idleInv_other. shapes. discriminate.
  - apply togglePauseResume_inv in H
      as [_ ->|rid r Hb Hst Hp ->|rid r Hb Hst Hp ->|rid r Hb Hst Hp ->|rid r Hb Hst Hp ->].
    + exact H9.
    + apply idleInv_other. shapes. rewrite Hp. destruct (resumeListeners r); discriminate.
    + apply idleInv_other. shapes. rewrite Hp. discriminate.
    + apply idleInv_other. shapes. discriminate.
    + intros Hi. revert Hi. shapes. intros Hi.
      destruct (H9 Hi) as (_ & Href & _). apply boundRecorder_Some in Hb as [Hb _].
      congruence.
  - injection H as <-. intros _. shapes. auto.
  - apply cleanup_inv in H as [ss _ ->|rid r ss ss' _ _ _ _ ->].
    + intros Hi. revert Hi. shapes. intros Hi.
      destruct (H9 Hi) as (E1 & E2 & _). auto.
    + apply idleInv_other. shapes. discriminate.
  - apply step_Granted_inv in H as [[_ ->]|(_ & Hs & _)]; [exact H9|].
    apply idleInv_other. rewrite Hs. discriminate.
  - destruct (isPending q w); injection H as <-; [|exact H9].
    intros Hi. revert Hi. shapes. exact H9.
  - destruct (recorders (browser w) !! rid); injection H as <-; [|exact H9].
    intros Hi. revert Hi. shapes. exact H9.
  - destruct (isFiring t w) eqn:Hf; injection H as <-; [|exact H9].
    intros Hi. revert Hi. shapes. intros Hi. exfalso.
    destruct (H9 Hi) as (_ & _ & Ht). unfold timerInv in H1. rewrite Ht in H1.
    unfold isFiring in Hf. rewrite H1 in Hf. discriminate.
  - apply step_GrantedUnsupported_inv in H as [_ ->]. exact H9.
Qed.

Lemma idleInv_reachable (w : World) : reachable w -> idleInv w.
Proof.
  induction 1 as [|a w w' Hr IH H|a e w w' Hr IH H].
  - intros _. repeat split.
  - eapply idleInv_step; eauto. apply invariants_reachable, Hr.
  - destruct (reachable_throw_inv a e w w' Hr H) as (q & s & answer & _ & _ & _ & ->).
    destruct (failedGrant_frame q s answer w) as (Hs & Hm & _ & Ht & _).
    unfold idleInv. rewrite Hs, Hm, Ht. exact IH.
Qed.

(** ** Worlds used as instances *)

Lemma reachable_of_run (tr : list Action) (w : World) :
  run tr initial_world = Ok w -> reachable w.
Proof. apply reachable_run, reachable_initial. Qed.

Lemma reachable_recording_after_one_second : reachable recording_after_one_second.
Proof. apply (reachable_of_run one_second_in). evaluate. Qed.

Lemma reachable_stopped_after_one_second : reachable stopped_after_one_second.
Proof.
  apply (reachable_of_run (one_second_in ++ [StopRecording (zeros 2 "audio/webm")])).
  evaluate.
Qed.

Lemma reachable_paused_after_two_seconds : reachable paused_after_two_seconds.
Proof. apply (reachable_of_run two_seconds_then_pause). evaluate. Qed.

(** ** An artifact while paused or stopped *)

Lemma producedInv_same (w w' : World) :
  producedInv w -> state w' = state w -> producedInv w'.
Proof. unfold producedInv. intros H ->. exact H. Qed.

Lemma producedInv_other (w : World) :
  status (state w) = Idle \/ status (state w) = Recording -> producedInv w.
Proof. unfold producedInv. intros [H|H] [H'|H']; congruence. Qed.

Lemma producedInv_step (a : Action) (w w' : World) :
  producedInv w -> step a w = Ok w' -> producedInv w'.
Proof.
  intros H10 H. destruct a; cbn [step] in H.
  - injection H as <-. apply producedInv_other. shapes. auto.
  - apply stopRecording_inv in H as [_ ->|rid r ss Hb _ _ ->]; [exact H10|].
    intros _. shapes. eauto.
  - apply togglePauseResume_inv in H
      as [_ ->|rid r Hb Hst Hp ->|rid r Hb Hst Hp ->|rid r Hb Hst Hp ->|rid r Hb Hst Hp ->].
    + exact H10.
    + destruct (H10 (or_introl Hp)) as (b & u & Hb' & Hu').
      intros _. shapes. eauto.
    + apply (producedInv_same _ _ H10). shapes. reflexivity.
    + intros _. shapes. eauto.
    + apply (producedInv_same _ _ H10). shapes. reflexivity.
  - injection H as <-. apply producedInv_other. shapes. auto.
  - apply cleanup_inv in H as [ss _ ->|rid r ss ss' _ _ _ _ ->].
    + apply (producedInv_same _ _ H10). shapes. reflexivity.
    + intros _. shapes. eauto.
  - apply step_Granted_inv in H as [[_ ->]|(_ & Hs & _)]; [exact H10|].
    apply producedInv_other. rewrite Hs. auto.
  - destruct (isPending q w); injection H as <-; [|exact H10].
    apply (producedInv_same _ _ H10). reflexivity.
  - destruct (recorders (browser w) !! rid); injection H as <-; [|exact H10].
    apply (producedInv_same _ _ H10). shapes. reflexivity.
  - destruct (isFiring t w); injection H as <-; [|exact H10].
    intros Hs. revert Hs. shapes. exact H10.
  - apply step_GrantedUnsupported_inv in H as [_ ->]. exact H10.
Qed.

Lemma producedInv_reachable (w : World) : reachable w -> producedInv w.
Proof.
  induction 1 as [|a w w' Hr IH H|a e w w' Hr IH H].
  - apply producedInv_other. auto.
  - eapply producedInv_step; eauto.
  - destruct (reachable_throw_inv a e w w' Hr H) as (q & s & answer & _ & _ & _ & ->).
    destruct (failedGrant_frame q s answer w) as (Hs & _).
    apply (producedInv_same _ _ IH Hs).
Qed.

(** ** What the status tells about the recorder *)

Lemma active_of_status (w : World) :
  reachable w ->
  status (state w) = Recording \/ status (state w) = Paused ->
  exists rid r s,
    boundRecorder w = Some (rid, r) /\ rstate r <> RInactive /\
    statusOfRecorder (rstate r) = status (state w) /\
    streams (browser w) !! rstream r = Some s.
Proof.
  intros Hr Hs. pose proof (statusInv_reachable w Hr) as H4.
  unfold statusInv, expectedStatus in H4.
  destruct (boundRecorder w) as [[rid r]|] eqn:Hb; [|destruct Hs; congruence].
  pose proof Hb as [Href _]%boundRecorder_Some.
  destruct (storeInv_bound w rid (storeInv_reachable w Hr) Href) as (r' & s & Hb' & Hst).
  rewrite Hb in Hb'. injection Hb' as <-.
  exists rid, r, s. split; [reflexivity|]. split; [|auto].
  intros E. rewrite E in H4. cbn in H4. destruct Hs; congruence.
Qed.

Lemma unbound_of_status (w : World) :
  reachable w ->
  status (state w) = Idle \/ status (state w) = Stopped ->
  noActiveRecorder w = true.
Proof.
  intros Hr Hs. pose proof (statusInv_reachable w Hr) as H4.
  unfold statusInv, expectedStatus in H4. unfold noActiveRecorder.
  destruct (mediaRecorderRef (refs w)) as [rid|] eqn:Href; [|reflexivity].
  destruct (storeInv_bound w rid (storeInv_reachable w Hr) Href) as (r & s & Hb & _).
  rewrite Hb in H4. apply boundRecorder_Some in Hb as [_ Hrec]. rewrite Hrec.
  apply bool_decide_eq_true. destruct (rstate r); [reflexivity|..];
    cbn in H4; destruct Hs; congruence.
Qed.

(** X1.  The only exceptions of the hook come from the resolution callback
    of getUserMedia, when getBestSupportedMimeType throws or when new
    MediaRecorder rejects the format it returned.  Such a callback throws
    after it has written mediaStreamRef (and mimeTypeRef, when the
    collaborator returned) and before it makes a recorder; the world it
    leaves is reachable, since nothing handles the exception and the hook
    goes on.  Every other call or callback of a reachable world completes
    without exception: the guards of stopRecording and togglePauseResume
    keep stop(), pause() and resume() away from an inactive recorder,
    start() is only called on the new recorder, and _cleanTracks always
    finds the recorder's stream; so every run without such a grant runs to
    its end.  (startRecording itself is modelled in a browser that has
    navigator.mediaDevices.) *)
Theorem only_the_resolution_callback_throws (w : World) :
  reachable w ->
  (forall a,
     (exists w', step a w = Ok w' /\ reachable w') \/
     (exists q s answer,
        a = GrantedUnsupported q s answer /\ isPending q w = true /\
        step a w = Throw (grantException answer) (failedGrant q s answer w) /\
        reachable (failedGrant q s answer w))) /\
  (forall tr,
     Forall (fun a => forall q s answer, a <> GrantedUnsupported q s answer) tr ->
     exists w', run tr w = Ok w' /\ reachable w').
Proof.
  intros Hr.
  assert (Hstep : forall w0 a, reachable w0 ->
            (exists w', step a w0 = Ok w' /\ reachable w') \/
            (exists q s answer,
               a = GrantedUnsupported q s answer /\ isPending q w0 = true /\
               step a w0 = Throw (grantException answer) (failedGrant q s answer w0) /\
               reachable (failedGrant q s answer w0))).
  { intros w0 a Hr0.
    destruct (step_total w0 a (storeInv_reachable w0 Hr0))
      as [(w' & Hs)|(q & s & answer & -> & Hp)].
    - left. exists w'. split; [exact Hs|]. eapply reachable_step; eauto.
    - right. exists q, s, answer.
      pose proof (step_GrantedUnsupported_spec q s answer w0 Hp) as Hs.
      do 3 (split; [reflexivity || assumption|]).
      eapply reachable_throw; eauto. }
  split; [intros a; apply Hstep, Hr|].
  intros tr. revert w Hr. induction tr as [|a tr IH]; intros w Hr Hall.
  - exists w. split; [reflexivity|exact Hr].
  - apply Forall_cons in Hall as [Ha Hall].
    destruct (Hstep w a Hr) as [(w1 & Hs & Hr1)|(q & s & answer & -> & _)].
    + destruct (IH w1 Hr1 Hall) as (w' & Hrun & Hr').
      exists w'. cbn [run]. rewrite Hs. auto.
    + exfalso. exact (Ha q s answer eq_refl).
Qed.

Lemma only_the_resolution_callback_throws_witness :
  reachable stopped_after_one_second /\
  (exists w',
     run [StopRecording (zeros 1 "audio/webm"); TogglePauseResume;
          Unmount (zeros 0 "audio/webm"); StartRecording; TogglePauseResume;
          Granted 1 [Live] "audio/ogg"; TogglePauseResume; TogglePauseResume;
          StopRecording (zeros 0 "audio/ogg")]
         stopped_after_one_second = Ok w' /\
     reachable w') /\
  step (GrantedUnsupported 1 [Live] (Some "audio/ogg"%string))
       (startRecording stopped_after_one_second)
  = Throw NotSupportedError
      (failedGrant 1 [Live] (Some "audio/ogg"%string)
         (startRecording stopped_after_one_second)).
Proof.
  split; [exact reachable_stopped_after_one_second|]. split.
  - apply (only_the_resolution_callback_throws stopped_after_one_second
             reachable_stopped_after_one_second).
    repeat (constructor; [intros; discriminate|]). constructor.
  - evaluate.
Defined.





(** ** Released tracks *)

Lemma allEnded_stopTracks (s : MediaStream) : allEnded (stopTracks s).
Proof. apply stopTracks_all_ended. Qed.







(** X4.  In a reachable world with status idle the whole state is
    INITIAL_STATE, no recorder and no timer is bound, and no interval
    fires; stopRecording and togglePauseResume do nothing there.
    (mediaStreamRef is null as well unless the callback of a granted
    request threw since the last reset, which leaves the stream bound: see
    X18.) *)
Theorem idle_is_the_initial_state (w : World) :
  reachable w -> status (state w) = Idle ->
  state w = INITIAL_STATE /\
  mediaRecorderRef (refs w) = None /\
  timerIntervalRef (refs w) = None /\
  intervals (browser w) = [] /\
  forall final, stopRecording final w = Ok w /\ togglePauseResume w = Ok w.
Proof.
  intros Hr Hi. destruct (idleInv_reachable w Hr Hi) as (E1 & E2 & E4).
  destruct (invariants_reachable w Hr) as [H1 _]. unfold timerInv in H1.
  rewrite E4 in H1. do 4 (split; [assumption|]).
  intros final. pose proof (unbound_of_status w Hr (or_introl Hi)) as Hn.
  split; [apply stopRecording_unbound|apply togglePauseResume_unbound]; exact Hn.
Qed.

Lemma idle_is_the_initial_state_witness :
  reachable (reset recording_after_one_second) /\
  status (state (reset recording_after_one_second)) = Idle /\
  state (reset recording_after_one_second) = INITIAL_STATE /\
  togglePauseResume (reset recording_after_one_second)
    = Ok (reset recording_after_one_second).
Proof.
  assert (Hr : reachable (reset recording_after_one_second)).
  { apply (reachable_step ReleaseResources recording_after_one_second);
      [exact reachable_recording_after_one_second|reflexivity]. }
  assert (Hi : status (state (reset recording_after_one_second)) = Idle) by evaluate.
  split; [exact Hr|]. split; [exact Hi|].
  destruct (idle_is_the_initial_state _ Hr Hi) as (E & _ & _ & _ & Hnoop).
  split; [exact E|]. apply (Hnoop (zeros 0 "audio/webm")).
Defined.



Lemma handler_one (c : HookCall) (w : World) :
  handler [c] w = settle (call (state w) c w).
Proof.
  unfold handler, settle. cbn [calls].
  destruct (call (state w) c w) as [[w1 evs]|e w1]; [|reflexivity].
  cbn [mbind result_bind]. rewrite app_nil_r. reflexivity.
Qed.

(** X6.  In a reachable world whose bound recorder is not inactive,
    stopRecording called alone in a handler, once the two events it queues
    are dispatched, has finished the session: status is stopped, the
    recorder inactive, every track of its stream ended, no interval fires,
    recordingTime is kept, the final flush joins the chunks when it has
    data, and the artifact is the assembly of those chunks; a second
    stopRecording, or a togglePauseResume, then changes nothing. *)
Theorem stop_finishes_the_session (w : World) (final : Blob) rid r :
  reachable w ->
  boundRecorder w = Some (rid, r) -> rstate r <> RInactive ->
  exists w' s,
    handler [CallStopRecording final] w = Ok w' /\
    stopRecording final w = Ok w' /\
    status (state w') = Stopped /\
    recordingTime (state w') = recordingTime (state w) /\
    chunksRef (refs w') = chunksRef (refs w) ++ keepNonEmpty [final] /\
    recordingBlob (state w') = Some (assembled w') /\
    boundRecorder w' = Some (rid, with_rstate RInactive r) /\
    streams (browser w') !! rstream r = Some s /\ allEnded s /\
    timerIntervalRef (refs w') = None /\
    intervals (browser w') = [] /\
    forall final', stopRecording final' w' = Ok w' /\ togglePauseResume w' = Ok w'.
Proof.
  intros Hr Hb Hst.
  pose proof Hb as [Href Hlook]%boundRecorder_Some.
  destruct (storeInv_bound w rid (storeInv_reachable w Hr) Href) as (r' & s & Hb' & Hss).
  rewrite Hb in Hb'. injection Hb' as <-.
  destruct (invariants_reachable w Hr) as [H1 _].
  destruct (stop_spec final w rid r s Hb Hst Hss)
    as (w' & Hstop & Hs' & Hr' & Hrec & Hstr & Hi & _).
  assert (Hb' : boundRecorder w' = Some (rid, with_rstate RInactive r)).
  { apply boundRecorder_Some. rewrite Hr', Hrec.
    split; [reflexivity|eapply lookup_insert_same; eauto]. }
  assert (Hn : noActiveRecorder w' = true).
  { apply boundRecorder_Some in Hb' as [E1 E2]. unfold noActiveRecorder.
    rewrite E1, E2. reflexivity. }
  exists w', (stopTracks s).
  split; [rewrite handler_one; exact Hstop|]. split; [exact Hstop|].
  unfold assembled, currentMimeType. rewrite Hs', Hr', Hstr, Hi, clearTimer_shape.
  shapes. rewrite (cleared_inv w H1).
  do 4 (split; [reflexivity|]). split; [exact Hb'|].
  split; [eapply lookup_insert_same; eauto|]. split; [apply allEnded_stopTracks|].
  do 2 (split; [reflexivity|]). intros final'.
  split; [apply stopRecording_unbound|apply togglePauseResume_unbound]; exact Hn.
Qed.

Lemma stop_finishes_the_session_witness :
  reachable paused_after_two_seconds /\
  boundRecorder paused_after_two_seconds
  = Some (0, add_resumeListener (with_rstate RPaused (startedRecorder 0 "audio/webm"))) /\
  exists w',
    stopRecording (zeros 3 "audio/webm") paused_after_two_seconds = Ok w' /\
    status (state w') = Stopped /\
    recordingTime (state w') = recordingTime (state paused_after_two_seconds).
Proof.
  assert (Hb : boundRecorder paused_after_two_seconds
               = Some (0, add_resumeListener
                            (with_rstate RPaused (startedRecorder 0 "audio/webm"))))
    by evaluate.
  split; [exact reachable_paused_after_two_seconds|]. split; [exact Hb|].
  destruct (stop_finishes_the_session paused_after_two_seconds (zeros 3 "audio/webm")
              _ _ reachable_paused_after_two_seconds Hb ltac:(discriminate))
    as (w' & s & _ & Hstop & Hst & Ht & _).
  exists w'. auto.
Defined.

(** X7.  The unmount cleanup of a reachable world never throws; after it
    no timer is set and no interval fires, and every track of the bound
    recorder's stream has ended.  With no recorder bound (after reset) it
    ends no track and changes nothing else; with an inactive recorder
    bound it leaves the state, the recorders and the URLs as they are.
    With a bound recorder that is not inactive, ending its tracks makes
    the browser stop it, and the refs and the browser end as stopRecording
    leaves them: the recorder is inactive, the dataavailable listener has
    appended the final flush to the chunks, and the stop listener of the
    hook has built the artifact from them and issued one more object URL
    for it, next to those already issued. *)
Theorem cleanup_ends_tracks_and_timer (w : World) (final : Blob) :
  reachable w ->
  exists w',
    step (Unmount final) w = Ok w' /\
    timerIntervalRef (refs w') = None /\
    intervals (browser w') = [] /\
    recordingTime (state w') = recordingTime (state w) /\
    (forall rid r, boundRecorder w = Some (rid, r) ->
       exists s, streams (browser w') !! rstream r = Some s /\ allEnded s) /\
    (mediaRecorderRef (refs w) = None ->
       state w' = state w /\
       streams (browser w') = streams (browser w) /\
       recorders (browser w') = recorders (browser w) /\
       objectUrls (browser w') = objectUrls (browser w)) /\
    (forall rid r, boundRecorder w = Some (rid, r) -> rstate r = RInactive ->
       state w' = state w /\
       recorders (browser w') = recorders (browser w) /\
       objectUrls (browser w') = objectUrls (browser w)) /\
    (forall rid r (s : MediaStream),
       boundRecorder w = Some (rid, r) -> rstate r <> RInactive ->
       streams (browser w) !! rstream r = Some s -> s <> [] ->
       (exists w2, stopRecording final w = Ok w2 /\
                   refs w' = refs w2 /\ browser w' = browser w2) /\
       recorders (browser w') !! rid = Some (with_rstate RInactive r) /\
       chunksRef (refs w') = chunksRef (refs w) ++ keepNonEmpty [final] /\
       objectUrls (browser w')
       = objectUrls (browser w) ++ [(nextUrl (browser w), assembled w')]).
Proof.
  intros Hr. cbn [step]. destruct (invariants_reachable w Hr) as [H1 _].
  destruct (mediaRecorderRef (refs w)) as [rid|] eqn:Href.
  - destruct (storeInv_bound w rid (storeInv_reachable w Hr) Href) as (r & s & Hb & Hs).
    pose proof Hb as [_ Hrec]%boundRecorder_Some.
    assert (Hquiet : rstate r = RInactive \/ s = [] ->
              exists w',
                cleanup final w = Ok w' /\
                w' = _clearTimer (set_streams
                       (<[rstream r := stopTracks s]> (streams (browser w))) w)).
    { intros Hcase. eexists. split; [apply (cleanup_inactive final w rid r s Hb Hs Hcase)|].
      reflexivity. }
    destruct (decide (rstate r = RInactive \/ s = [])) as [Hcase|Hcase].
    + destruct (Hquiet Hcase) as (w' & Hc & ->). eexists. split; [exact Hc|].
      shapes. rewrite (cleared_inv w H1).
      do 3 (split; [reflexivity|]). split; [|split; [discriminate|split]].
      * intros rid' r' Hb'. rewrite Hb in Hb'. injection Hb' as <- <-.
        exists (stopTracks s). split; [eapply lookup_insert_same; eauto|].
        apply allEnded_stopTracks.
      * intros rid' r' Hb' Hst. repeat split.
      * intros rid' r' s' Hb' Hst Hs' Hne. exfalso.
        rewrite Hb in Hb'. injection Hb' as <- <-.
        rewrite Hs in Hs'. injection Hs' as <-. tauto.
    + assert (Hst : rstate r <> RInactive) by tauto.
      assert (Hne : s <> []) by tauto.
      rewrite (cleanup_active final w rid r s Hb Hst Hs Hne).
      destruct (stop_spec final w rid r s Hb Hst Hs)
        as (w' & Hstop & Hs' & Hr' & Hrec' & Hstr & Hi & _ & Ho & _).
      exists w'. split; [exact Hstop|].
      assert (Hsame : exists w2, stopRecording final w = Ok w2 /\
                                 refs w' = refs w2 /\ browser w' = browser w2)
        by (exists w'; auto).
      revert Hsame.
      set (same := exists w2, stopRecording final w = Ok w2 /\ _). intros Hsame.
      unfold assembled, currentMimeType.
      rewrite Hs', Hr', Hrec', Hstr, Hi, Ho, clearTimer_shape. shapes.
      rewrite (cleared_inv w H1).
      do 3 (split; [reflexivity|]). split; [|split; [discriminate|split]].
      * intros rid' r' Hb'. rewrite Hb in Hb'. injection Hb' as <- <-.
        exists (stopTracks s). split; [eapply lookup_insert_same; eauto|].
        apply allEnded_stopTracks.
      * intros rid' r' Hb' Hst'. rewrite Hb in Hb'. injection Hb' as <- <-.
        contradiction.
      * intros rid' r' s' Hb' _ _ _. rewrite Hb in Hb'. injection Hb' as <- <-.
        split; [exact Hsame|].
        split; [eapply lookup_insert_same; eauto|]. repeat split.
  - rewrite (cleanup_unbound final w Href). eexists. split; [reflexivity|].
    shapes. rewrite (cleared_inv w H1).
    do 3 (split; [reflexivity|]). split; [|split; [intros _; repeat split|split]].
    + intros rid r Hb. apply boundRecorder_Some in Hb as [Hb _]. congruence.
    + intros rid r Hb. apply boundRecorder_Some in Hb as [Hb _]. congruence.
    + intros rid r s Hb. apply boundRecorder_Some in Hb as [Hb _]. congruence.
Qed.

Lemma cleanup_ends_tracks_and_timer_witness :
  reachable recording_after_one_second /\
  exists w',
    step (Unmount (zeros 2 "audio/webm")) recording_after_one_second = Ok w' /\
    intervals (browser w') = [] /\
    (exists s, streams (browser w') !! 0 = Some s /\ allEnded s) /\
    recorders (browser w') !! 0
    = Some (with_rstate RInactive (startedRecorder 0 "audio/webm")) /\
    List.map blobSize (chunksRef (refs w')) = [6; 2]%Z /\
    List.map fst (objectUrls (browser w')) = [0].
Proof.
  split; [exact reachable_recording_after_one_second|].
  destruct (cleanup_ends_tracks_and_timer recording_after_one_second
              (zeros 2 "audio/webm") reachable_recording_after_one_second)
    as (w' & Hc & _ & Hi & _ & Htr & _ & _ & Hactive).
  exists w'. split; [exact Hc|]. split; [exact Hi|].
  split; [apply (Htr 0 (startedRecorder 0 "audio/webm")); evaluate|].
  destruct (Hactive 0 (startedRecorder 0 "audio/webm") [Live; Live])
    as (_ & Hrec & Hch & Ho); try discriminate; try evaluate.
  split; [exact Hrec|]. split; [rewrite Hch; evaluate|]. rewrite Ho. evaluate.
Defined.

(** ** URLs, chunks and artifact of the reachable worlds *)

Lemma resolveURL_Some (u : ObjectURL) (w : World) (b : Blob) :
  resolveURL u w = Some b -> In (u, b) (objectUrls (browser w)).
Proof.
  unfold resolveURL.
  destruct (List.find _ _) as [[u' b']|] eqn:E; [|discriminate].
  intros [= <-]. apply find_some in E as [Hin Heq]. cbn in Heq.
  apply Nat.eqb_eq in Heq. subst u'. exact Hin.
Qed.

(** X8.  In a reachable world the URL the hook returns as audioUrl has
    not been revoked: it resolves, and to the blob returned as
    recordingBlob when there is one; while status is paused or stopped
    both are present. *)
Theorem audioUrl_resolves_to_the_artifact (w : World) :
  reachable w ->
  let h := useAudioRecorder w in
  (forall u, AudioRecorderHook.audioUrl h = Some u ->
     u < nextUrl (browser w) /\
     exists b, resolveURL u w = Some b /\
               forall b', AudioRecorderHook.recordingBlob h = Some b' -> b' = b) /\
  (AudioRecorderHook.isPaused h = true \/ AudioRecorderHook.isStopped h = true ->
   exists b u, AudioRecorderHook.recordingBlob h = Some b /\
               AudioRecorderHook.audioUrl h = Some u /\
               resolveURL u w = Some b).
Proof.
  intros Hr h. subst h. cbn [useAudioRecorder AudioRecorderHook.audioUrl
    AudioRecorderHook.recordingBlob AudioRecorderHook.isPaused
    AudioRecorderHook.isStopped].
  destruct (urlInv_reachable w Hr) as [HA HB]. split.
  - intros u Hu. destruct (HB u Hu) as (b & Hres & Hsame).
    split; [|eauto]. apply resolveURL_Some in Hres.
    rewrite Forall_forall in HA. apply list_elem_of_In, HA in Hres. exact Hres.
  - intros Hs.
    assert (Hs' : status (state w) = Paused \/ status (state w) = Stopped)
      by (destruct Hs as [Hs|Hs]; apply bool_decide_eq_true in Hs; auto).
    destruct (producedInv_reachable w Hr Hs') as (b & u & Hb & Hu).
    destruct (HB u Hu) as (b0 & Hres & Hsame).
    exists b, u. rewrite (Hsame b Hb). rewrite (Hsame b Hb) in Hb. auto.
Qed.

Lemma audioUrl_resolves_to_the_artifact_witness :
  reachable paused_after_two_seconds /\
  exists b u,
    recordingBlob (state paused_after_two_seconds) = Some b /\
    blobUrl (state paused_after_two_seconds) = Some u /\
    resolveURL u paused_after_two_seconds = Some b.
Proof.
  split; [exact reachable_paused_after_two_seconds|].
  pose proof (audioUrl_resolves_to_the_artifact paused_after_two_seconds
                reachable_paused_after_two_seconds) as H.
  cbv zeta in H.
  cbn [useAudioRecorder AudioRecorderHook.audioUrl AudioRecorderHook.recordingBlob
       AudioRecorderHook.isPaused AudioRecorderHook.isStopped] in H.
  destruct H as (_ & H). apply H. left. evaluate.
Defined.

Lemma In_revoked (o : option ObjectURL) (l : list (ObjectURL * Blob)) p :
  In p l -> In p (revoked o l) \/ o = Some (fst p).
Proof.
  intros Hin. destruct o as [u|]; simpl; [|auto].
  destruct (Nat.eqb (fst p) u) eqn:E.
  - right. apply Nat.eqb_eq in E. congruence.
  - left. apply filter_In. split; [exact Hin|].
    change (negb (Nat.eqb (fst p) u) = true). rewrite E. reflexivity.
Qed.

(** One step appends the URLs it issues to those that resolved before;
    only togglePauseResume may first revoke the URL of the state. *)
Lemma urls_of_step (a : Action) (w w' : World) :
  step a w = Ok w' ->
  exists l, objectUrls (browser w') = objectUrls (browser w) ++ l \/
            (a = TogglePauseResume /\
             objectUrls (browser w') =
               revoked (blobUrl (state w)) (objectUrls (browser w)) ++ l).
Proof.
  intros H. destruct a; cbn [step] in H.
  - injection H as <-. exists []. left. shapes. rewrite app_nil_r. reflexivity.
  - apply stopRecording_inv in H as [_ ->|rid r ss Hb _ _ ->].
    + exists []. left. rewrite app_nil_r. reflexivity.
    + eexists. left. shapes. reflexivity.
  - apply togglePauseResume_inv in H
      as [_ ->|rid r _ _ _ ->|rid r _ _ _ ->|rid r _ _ _ ->|rid r _ _ _ ->].
    + exists []. left. rewrite app_nil_r. reflexivity.
    + exists []. left. shapes. rewrite app_nil_r. reflexivity.
    + exists []. left. shapes. rewrite app_nil_r. reflexivity.
    + eexists. right. split; [reflexivity|]. shapes. reflexivity.
    + exists []. right. split; [reflexivity|]. shapes. rewrite app_nil_r. reflexivity.
  - injection H as <-. exists []. left. shapes. rewrite app_nil_r. reflexivity.
  - apply cleanup_inv in H as [ss _ ->|rid r ss ss' _ _ _ _ ->].
    + exists []. left. shapes. rewrite app_nil_r. reflexivity.
    + eexists. left. shapes. reflexivity.
  - apply step_Granted_urls in H as [-> _]. exists []. left.
    rewrite app_nil_r. reflexivity.
  - exists []. left. rewrite app_nil_r.
    destruct (isPending q w); injection H as <-; reflexivity.
  - exists []. left. rewrite app_nil_r.
    destruct (recorders (browser w) !! rid); injection H as <-; [shapes|]; reflexivity.
  - exists []. left. rewrite app_nil_r.
    destruct (isFiring t w); injection H as <-; reflexivity.
  - exists []. left. rewrite app_nil_r.
    apply step_GrantedUnsupported_inv in H as [_ ->]. reflexivity.
Qed.

(** X9.  Only togglePauseResume revokes a URL, and only the one in
    state.blobUrl: every other step (startRecording, reset, stopRecording,
    the unmount cleanup, every callback) keeps each URL that resolved
    before it and at most appends new ones, so the URL held at a reset, a
    start or a stop is never freed. *)
Theorem only_a_pause_revokes_a_url (a : Action) (w w' : World) :
  step a w = Ok w' ->
  (a <> TogglePauseResume ->
   exists l, objectUrls (browser w') = objectUrls (browser w) ++ l) /\
  (forall p, In p (objectUrls (browser w)) ->
     In p (objectUrls (browser w')) \/
     (a = TogglePauseResume /\ blobUrl (state w) = Some (fst p))).
Proof.
  intros H. destruct (urls_of_step a w w' H) as (l & [E|(Ha & E)]).
  - split; [eauto|]. intros p Hp. left. rewrite E. apply in_or_app. auto.
  - split; [intros Hne; contradiction|]. intros p Hp. rewrite E.
    destruct (In_revoked (blobUrl (state w)) _ p Hp) as [Hin|Ho]; [|auto].
    left. apply in_or_app. auto.
Qed.

Lemma only_a_pause_revokes_a_url_witness :
  step ReleaseResources paused_after_two_seconds
    = Ok (reset paused_after_two_seconds) /\
  blobUrl (state (reset paused_after_two_seconds)) = None /\
  exists l, objectUrls (browser (reset paused_after_two_seconds))
            = objectUrls (browser paused_after_two_seconds) ++ l.
Proof.
  split; [reflexivity|]. split; [evaluate|].
  apply (only_a_pause_revokes_a_url ReleaseResources paused_after_two_seconds
           (reset paused_after_two_seconds) eq_refl).
  discriminate.
Defined.

(** X10.  In a reachable world no chunk is empty, and one step either
    empties the chunks (startRecording and reset only) or keeps them all,
    in order, appending at most one blob: chunks are never dropped,
    reordered or rewritten inside a session. *)
Theorem chunks_only_grow_and_are_never_empty (w : World) :
  reachable w ->
  Forall (fun b => (0 < blobSize b)%Z) (chunksRef (refs w)) /\
  forall a w', step a w = Ok w' ->
    ((a = StartRecording \/ a = ReleaseResources) /\ chunksRef (refs w') = []) \/
    (exists l, chunksRef (refs w') = chunksRef (refs w) ++ l /\ length l <= 1 /\
               Forall (fun b => (0 < blobSize b)%Z) l).
Proof.
  intros Hr. split; [exact (chunksInv_reachable w Hr)|].
  intros a w' H. destruct (chunks_of_step a w w' H) as [Hl|(data & E)]; [auto|].
  right. exists (keepNonEmpty [data]). split; [exact E|].
  split; [|apply Forall_keepNonEmpty].
  unfold keepNonEmpty. cbn. destruct (0 <? blobSize data)%Z; cbn; lia.
Qed.

Lemma chunks_only_grow_and_are_never_empty_witness :
  reachable recording_after_one_second /\
  Forall (fun b => (0 < blobSize b)%Z) (chunksRef (refs recording_after_one_second)) /\
  List.map blobSize (chunksRef (refs recording_after_one_second)) = [6%Z].
Proof.
  split; [exact reachable_recording_after_one_second|].
  split; [|evaluate].
  apply (chunks_only_grow_and_are_never_empty recording_after_one_second
           reachable_recording_after_one_second).
Defined.

Lemma length_concat_blobData (l : list Blob) :
  Z.of_nat (length (List.concat (List.map blobData l))) = totalSize l.
Proof. exact (blobSize_newBlob l ""). Qed.

(** X11.  In a reachable world the bytes of the blob of the state, when
    there is one, are a prefix of the concatenation of the current chunks:
    an interim artifact is a snapshot of the first chunks of the session,
    and is never larger than what the chunks hold; there is none while
    status is idle. *)
Theorem artifact_is_a_prefix_of_the_chunks (w : World) :
  reachable w ->
  forall b, recordingBlob (state w) = Some b ->
    (exists rest,
       List.concat (List.map blobData (chunksRef (refs w))) = blobData b ++ rest) /\
    (blobSize b <= totalSize (chunksRef (refs w)))%Z /\
    status (state w) <> Idle.
Proof.
  intros Hr b Hb. destruct (artifactInv_reachable w Hr b Hb) as (rest & Hrest).
  split; [eauto|]. split.
  - rewrite <- length_concat_blobData, Hrest, length_app. unfold blobSize. lia.
  - intros Hi. destruct (idleInv_reachable w Hr Hi) as (E & _).
    rewrite E in Hb. discriminate.
Qed.

Lemma artifact_is_a_prefix_of_the_chunks_witness :
  reachable paused_after_two_seconds /\
  exists b, recordingBlob (state paused_after_two_seconds) = Some b /\
            blobSize b = 5%Z /\
            (blobSize b <= totalSize (chunksRef (refs paused_after_two_seconds)))%Z.
Proof.
  split; [exact reachable_paused_after_two_seconds|].
  exists (zeros 5 "audio/webm").
  assert (Hb : recordingBlob (state paused_after_two_seconds)
               = Some (zeros 5 "audio/webm")) by evaluate.
  split; [exact Hb|].
  destruct (artifact_is_a_prefix_of_the_chunks paused_after_two_seconds
              reachable_paused_after_two_seconds _ Hb) as (_ & Hsz & _).
  split; [evaluate|exact Hsz].
Defined.

(** ** A pause followed by a resume *)

(** X12.  In a reachable world with status recording, togglePauseResume
    called in one handler and, once the pause event it queued has been
    dispatched and the hook has rendered again, called in a second handler
    (a pause, then a resume) leads back to status recording on the same
    recorder, again recording, with the chunks, the format and
    recordingTime as before and exactly one interval firing; what the
    cycle leaves behind is the interim artifact of the chunks so far, its
    URL, and one more resume listener on the recorder.  (Two calls made in
    the same handler do not resume: see X16.) *)
Theorem pause_then_resume_continues_the_session (w : World) :
  reachable w -> status (state w) = Recording ->
  exists w1 w2 rid r r2,
    boundRecorder w = Some (rid, r) /\
    togglePauseResume w = Ok w1 /\ status (state w1) = Paused /\
    togglePauseResume w1 = Ok w2 /\ status (state w2) = Recording /\
    recordingTime (state w2) = recordingTime (state w) /\
    chunksRef (refs w2) = chunksRef (refs w) /\
    mimeTypeRef (refs w2) = mimeTypeRef (refs w) /\
    streams (browser w2) = streams (browser w) /\
    boundRecorder w2 = Some (rid, r2) /\
    rstate r2 = RRecording /\ rstream r2 = rstream r /\
    resumeListeners r2 = S (resumeListeners r) /\
    recordingBlob (state w2) = Some (assembled w) /\
    blobUrl (state w2) = Some (nextUrl (browser w)) /\
    resolveURL (nextUrl (browser w)) w2 = Some (assembled w) /\
    timerIntervalRef (refs w2) = Some (nextInterval (browser w)) /\
    intervals (browser w2) = [nextInterval (browser w)] /\
    handler [CallTogglePauseResume] w = Ok w1 /\
    handler [CallTogglePauseResume] w1 = Ok w2 /\
    run [TogglePauseResume; TogglePauseResume] w = Ok w2.
Proof.
  intros Hr Hs.
  destruct (active_of_status w Hr (or_introl Hs)) as (rid & r & s & Hb & _ & Hso & _).
  assert (Hst : rstate r = RRecording)
    by (rewrite Hs in Hso; destruct (rstate r); cbn in Hso; congruence).
  assert (Hnp : status (state w) <> Paused) by congruence.
  destruct (invariants_reachable w Hr) as [H1 _].
  destruct (urlInv_reachable w Hr) as [HA _].
  pose proof Hb as [_ Hlook]%boundRecorder_Some.
  destruct (pause_spec w rid r Hb Hst Hnp)
    as (w1 & Ht1 & Hs1 & Hr1 & Hrec1 & Hstr1 & Hi1 & Hni1 & Ho1 & Hnu1 & _).
  set (r1 := add_resumeListener (with_rstate RPaused r)) in *.
  assert (Hb1 : boundRecorder w1 = Some (rid, r1)).
  { apply boundRecorder_Some. rewrite Hr1, Hrec1.
    split; [reflexivity|eapply lookup_insert_same; eauto]. }
  assert (Hp1 : status (state w1) = Paused) by (rewrite Hs1; reflexivity).
  assert (Hn1 : 0 < resumeListeners r1) by (cbn; lia).
  destruct (resume_spec w1 rid r1 Hb1 eq_refl Hn1 Hp1)
    as (w2 & Ht2 & Hs2 & Hr2 & Hrec2 & Hstr2 & Hi2 & _ & Ho2 & _).
  assert (Hc1 : intervals (browser (_clearTimer w1)) = []).
  { rewrite clearTimer_shape. unfold clearedIntervals. shapes. rewrite Hr1. cbn.
    rewrite Hi1, clearTimer_shape. shapes. apply (cleared_inv w H1). }
  exists w1, w2, rid, r, (with_rstate RRecording r1).
  split; [exact Hb|]. split; [exact Ht1|]. split; [exact Hp1|].
  split; [exact Ht2|].
  assert (Hres : resolveURL (nextUrl (browser w)) w2 = Some (assembled w)).
  { unfold resolveURL. rewrite Ho2, Ho1. unfold afterRevoke.
    rewrite (find_snoc_fresh _ _ _ (Forall_revoked _ _ _ HA)). reflexivity. }
  rewrite Hs2, Hr2, Hstr2, Hi2, Hc1, Hs1, Hr1, Hstr1, Hni1.
  cbn [status recordingTime recordingBlob blobUrl chunksRef mimeTypeRef
       timerIntervalRef app].
  do 5 (split; [reflexivity|]). split.
  { apply boundRecorder_Some. rewrite Hr2, Hrec2, Hr1.
    split; [reflexivity|]. apply boundRecorder_Some in Hb1 as [_ Hl1].
    eapply lookup_insert_same; eauto. }
  do 5 (split; [reflexivity|]). split; [exact Hres|]. do 2 (split; [reflexivity|]).
  split; [rewrite handler_one; exact Ht1|]. split; [rewrite handler_one; exact Ht2|].
  cbn [run step]. rewrite Ht1. cbn [mbind result_bind]. rewrite Ht2. reflexivity.
Qed.

Lemma pause_then_resume_continues_the_session_witness :
  reachable recording_after_one_second /\
  status (state recording_after_one_second) = Recording /\
  exists w1 w2,
    togglePauseResume recording_after_one_second = Ok w1 /\
    togglePauseResume w1 = Ok w2 /\
    status (state w2) = Recording /\
    recordingTime (state w2) = recordingTime (state recording_after_one_second) /\
    chunksRef (refs w2) = chunksRef (refs recording_after_one_second).
Proof.
  assert (Hs : status (state recording_after_one_second) = Recording) by evaluate.
  split; [exact reachable_recording_after_one_second|]. split; [exact Hs|].
  destruct (pause_then_resume_continues_the_session recording_after_one_second
              reachable_recording_after_one_second Hs)
    as (w1 & w2 & rid & r & r2 & _ & H1 & _ & H2 & H3 & H4 & H5 & _).
  exists w1, w2. auto.
Defined.

(** ** A recorder left behind *)

Lemma onGranted_nextRequest (sid : StreamId) (mime : string) (w w' : World) :
  onGranted sid (Some mime) true w = Ok w' ->
  nextRequest (browser w') = nextRequest (browser w).
Proof.
  world w. unfold onGranted, getBestSupportedMimeType, MediaRecorder_new,
    MediaRecorder_start, lookupRecorder.
  cbn -[lookup insert]. rewrite lookup_snoc.
  cbn -[insert]. unfold updateRecorder. cbn -[insert].
  destruct ti; intros [= <-]; reflexivity.
Qed.

Lemma step_Granted_nextRequest (q : RequestId) (s : MediaStream) (mime : string)
    (w w' : World) :
  step (Granted q s mime) w = Ok w' ->
  nextRequest (browser w') = nextRequest (browser w).
Proof.
  intros H. unfold step in H. destruct (isPending q w); [|injection H as <-; auto].
  destruct (newStream s (settleRequest q w)) as [sid w1] eqn:E.
  unfold newStream in E. injection E as <- <-.
  apply onGranted_nextRequest in H. rewrite H. shapes. reflexivity.
Qed.

(** X13.  A second startRecording does not stop the recorder of the first
    session: after both requests are granted the first recorder is still
    recording on its stream, whose tracks are as granted, and a fragment it
    delivers is appended to the chunks of the second session and is part
    of the artifact built when the second session is stopped. *)
Theorem abandoned_recorder_feeds_the_next_session
    (w : World) (s1 s2 : MediaStream) (mime1 mime2 : string) (data final : Blob) :
  exists w',
    run (abandoned_then_stopped w s1 s2 mime1 mime2 data final) w = Ok w' /\
    status (state w') = Stopped /\
    mediaRecorderRef (refs w') = Some (S (length (recorders (browser w)))) /\
    chunksRef (refs w') = keepNonEmpty [data; final] /\
    recordingBlob (state w') = Some (newBlob (keepNonEmpty [data; final]) mime2) /\
    recorders (browser w') !! length (recorders (browser w))
      = Some (startedRecorder (length (streams (browser w))) mime1) /\
    streams (browser w') !! length (streams (browser w)) = Some s1 /\
    streams (browser w') !! S (length (streams (browser w))) = Some (stopTracks s2).
Proof.
  unfold abandoned_then_stopped. cbn [run step mbind result_bind].
  set (q := nextRequest (browser w)).
  (* the first session *)
  destruct (step_Granted_spec q s1 mime1 (startRecording w) (isPending_startRecording w))
    as (w2 & Hg2 & _ & Hr2 & Hrec2 & Hstr2 & _).
  pose proof (step_Granted_nextRequest _ _ _ _ _ Hg2) as Hq2.
  unfold step in Hg2. rewrite Hg2. clear Hg2. cbn [mbind result_bind].
  assert (Hq2' : nextRequest (browser w2) = S q) by (rewrite Hq2; shapes; reflexivity).
  assert (Hrec2' : recorders (browser w2) = recorders (browser w)
                     ++ [startedRecorder (length (streams (browser w))) mime1])
    by (rewrite Hrec2; shapes; reflexivity).
  assert (Hstr2' : streams (browser w2) = streams (browser w) ++ [s1])
    by (rewrite Hstr2; shapes; reflexivity).
  (* the second session *)
  pose proof (isPending_startRecording w2) as Hp3. rewrite Hq2' in Hp3.
  destruct (step_Granted_spec (S q) s2 mime2 (startRecording w2) Hp3)
    as (w4 & Hg4 & Hs4 & Hr4 & Hrec4 & Hstr4 & _).
  unfold step in Hg4. rewrite Hg4. clear Hg4. cbn [mbind result_bind].
  assert (Hrec3 : recorders (browser (startRecording w2)) = recorders (browser w2))
    by (shapes; reflexivity).
  assert (Hstr3 : streams (browser (startRecording w2)) = streams (browser w2))
    by (shapes; reflexivity).
  rewrite Hrec3 in Hr4, Hrec4. rewrite Hstr3 in Hr4, Hrec4, Hstr4.
  rewrite startRecording_refs in Hr4. cbn [chunksRef] in Hr4.
  (* the fragment of the first recorder *)
  assert (Hold : recorders (browser w4) !! (length (recorders (browser w)) : RecorderId)
                 = Some (startedRecorder (length (streams (browser w))) mime1)).
  { rewrite Hrec4, Hrec2'. apply lookup_app_l_Some, lookup_snoc. }
  rewrite Hold. cbn [mbind result_bind]. rewrite onDataAvailable_chunks.
  (* the stop of the second session *)
  set (w5 := set_chunksRef (chunksRef (refs w4) ++ keepNonEmpty [data]) w4).
  assert (Hb5 : boundRecorder w5
                = Some (length (recorders (browser w2)),
                        startedRecorder (length (streams (browser w2))) mime2)).
  { apply boundRecorder_Some. subst w5. shapes. rewrite Hr4, Hrec4.
    split; [reflexivity|apply lookup_snoc]. }
  assert (Hs5 : streams (browser w5)
                  !! rstream (startedRecorder (length (streams (browser w2))) mime2)
                = Some s2).
  { subst w5. shapes. rewrite Hstr4. apply lookup_snoc. }
  destruct (stop_spec final w5 _ _ s2 Hb5 ltac:(discriminate) Hs5)
    as (w6 & Hstop & Hs6 & Hr6 & Hrec6 & Hstr6 & _).
  rewrite Hstop. exists w6. split; [reflexivity|].
  rewrite Hs6, Hr6, Hrec6, Hstr6. unfold currentMimeType. subst w5. shapes.
  rewrite Hr4, Hrec4, Hstr4, Hrec2', Hstr2', !length_app. cbn [length app chunksRef
    mimeTypeRef]. rewrite !Nat.add_1_r.
  split; [reflexivity|]. split; [reflexivity|].
  assert (Hk : keepNonEmpty [data] ++ keepNonEmpty [final] = keepNonEmpty [data; final])
    by (symmetry; apply (keepNonEmpty_app [data] [final])).
  rewrite Hk.
  split; [reflexivity|]. split; [reflexivity|]. split.
  { rewrite list_lookup_insert_ne by lia. apply lookup_app_l_Some, lookup_snoc. }
  split.
  { rewrite list_lookup_insert_ne by lia. apply lookup_app_l_Some, lookup_snoc. }
  apply list_lookup_insert_eq. rewrite !length_app. cbn. lia.
Qed.

(** ** The stores *)

(** X14.  In a reachable world there is one granted stream per call of
    getBestSupportedMimeType, whether the callback that made the call ran
    to its end or threw, and at most one recorder per stream: every
    recorder records a stream of the store that no other recorder
    records, was made with audioBitsPerSecond 24000 and started with
    timeslice 100.  A recorder that is inactive is never started again or
    changed, a step adds a recorder only when it is a granted request
    whose callback runs to the end, which adds exactly one, and a callback
    that throws adds a stream and a call but no recorder: each session
    gets a recorder of its own. *)
Theorem one_recorder_per_grant_never_reused (w : World) :
  reachable w ->
  mimeCalls (browser w) = length (streams (browser w)) /\
  length (recorders (browser w)) <= length (streams (browser w)) /\
  (forall (i : RecorderId) r, recorders (browser w) !! i = Some r ->
     (exists s, streams (browser w) !! rstream r = Some s) /\
     rbitsPerSecond r = 24000%Z /\ rtimeslice r = Some 100%Z) /\
  (forall (i j : RecorderId) ri rj,
     recorders (browser w) !! i = Some ri -> recorders (browser w) !! j = Some rj ->
     rstream ri = rstream rj -> i = j) /\
  (forall a w' (i : RecorderId) r,
     step a w = Ok w' -> recorders (browser w) !! i = Some r ->
     rstate r = RInactive -> recorders (browser w') !! i = Some r) /\
  (forall a w', step a w = Ok w' ->
     length (recorders (browser w')) = length (recorders (browser w)) \/
     (exists q s mime, a = Granted q s mime) /\
     length (recorders (browser w')) = S (length (recorders (browser w)))) /\
  (forall a e w', step a w = Throw e w' ->
     recorders (browser w') = recorders (browser w) /\
     length (streams (browser w')) = S (length (streams (browser w))) /\
     mimeCalls (browser w') = S (mimeCalls (browser w))).
Proof.
  intros Hr. destruct (bookInv_reachable w Hr) as (H1 & H2 & H3).
  assert (Hinj : forall (i j : RecorderId) ri rj,
            recorders (browser w) !! i = Some ri ->
            recorders (browser w) !! j = Some rj ->
            rstream ri = rstream rj -> i = j).
  { intros i j ri rj Hi Hj E.
    destruct (Nat.lt_trichotomy i j) as [Hlt|[Heq|Hgt]]; [|exact Heq|].
    - pose proof (H3 i j ri rj Hlt Hi Hj). lia.
    - pose proof (H3 j i rj ri Hgt Hj Hi). lia. }
  assert (Hge : forall (n : RecorderId) r,
            recorders (browser w) !! n = Some r -> n <= rstream r).
  { induction n as [|n IHn]; intros r Hn; [lia|].
    assert (Hprev : n < length (recorders (browser w)))
      by (apply lookup_lt_Some in Hn; lia).
    destruct (lookup_lt_is_Some_2 _ _ Hprev) as [rp Hrp].
    pose proof (IHn rp Hrp).
    pose proof (H3 n (S n) rp r ltac:(lia) Hrp Hn). lia. }
  assert (Hlen : length (recorders (browser w)) <= length (streams (browser w))).
  { destruct (length (recorders (browser w))) as [|n] eqn:El; [lia|].
    assert (Hl : n < length (recorders (browser w))) by lia.
    destruct (lookup_lt_is_Some_2 _ _ Hl) as [r Hr0].
    pose proof (Hge n r Hr0). destruct (H2 n r Hr0) as (Hb & _). lia. }
  split; [exact H1|]. split; [exact Hlen|]. split; [|split; [exact Hinj|split; [|split]]].
  - intros i r Hi. destruct (H2 i r Hi) as (Hb & E2 & E3).
    split; [apply lookup_lt_is_Some_2, Hb|auto].
  - intros a w' i r H Hi Hst. exact (inactive_recorder_step a w w' i r H Hi Hst).
  - intros a w' H.
    destruct (recorders_of_step a w w' H) as [E|(q & s & mime & -> & _ & E)];
      [auto|].
    right. split; [eauto|]. rewrite E, length_app. cbn. lia.
  - intros a e w' H.
    destruct (reachable_throw_inv a e w w' Hr H) as (q & s & answer & _ & _ & _ & ->).
    destruct (failedGrant_frame q s answer w)
      as (_ & _ & _ & _ & Hrec & Hst & _ & _ & _ & _ & Hm & _).
    rewrite Hrec, Hst, Hm, length_app. cbn. split; [reflexivity|]. split; [lia|reflexivity].
Qed.

Lemma one_recorder_per_grant_never_reused_witness :
  reachable stopped_after_one_second /\
  length (streams (browser stopped_after_one_second)) = 1 /\
  mimeCalls (browser stopped_after_one_second) = 1.
Proof.
  split; [exact reachable_stopped_after_one_second|].
  destruct (one_recorder_per_grant_never_reused stopped_after_one_second
              reachable_stopped_after_one_second) as (H1 & _).
  split; [evaluate|]. rewrite H1. evaluate.
Defined.

(** ** Several calls in one handler *)

Lemma revoke_rendered (w : World) :
  match blobUrl (state w) with
  | Some url => revokeObjectURL url (_clearTimer w)
  | None => _clearTimer w
  end = revokeCurrent (_clearTimer w).
Proof. world w. destruct ti; reflexivity. Qed.

(** The call of togglePauseResume on a recording recorder, from a render
    whose status is not paused: the timer is cleared, the URL of the
    rendered state revoked, the recorder paused and its pause event
    queued. *)
Lemma call_pause (w : World) rid r :
  boundRecorder w = Some (rid, r) -> rstate r = RRecording ->
  status (state w) <> Paused ->
  Call.togglePauseResume (state w) w
  = Ok (updateRecorder rid (with_rstate RPaused r) (revokeCurrent (_clearTimer w)),
        [EPause rid]).
Proof.
  intros [Href Hr]%boundRecorder_Some Hst Hp.
  unfold Call.togglePauseResume, lookupRecorder. rewrite Href, Hr.
  cbn [mbind result_bind]. rewrite Hst.
  assert (E : forall A (x y : A), match status (state w) with Paused => x | _ => y end = y)
    by (intros; destruct (status (state w)); congruence).
  rewrite E, revoke_rendered. unfold MediaRecorder_pause, lookupRecorder.
  rewrite revokeCurrent_recorders, clearTimer_recorders, Hr.
  cbn [mbind result_bind]. rewrite Hst. reflexivity.
Qed.

Lemma filter_filter_same {A} (f : A -> bool) (l : list A) :
  List.filter f (List.filter f l) = List.filter f l.
Proof.
  induction l as [|x l IH]; [reflexivity|]. simpl.
  destruct (f x) eqn:E; simpl; rewrite ?E, IH; reflexivity.
Qed.

(** The call of stopRecording on a recorder that is not inactive: the
    timer is cleared, the recorder inactive, and the two events queued. *)
Lemma call_stop (final : Blob) (w : World) rid r :
  boundRecorder w = Some (rid, r) -> rstate r <> RInactive ->
  Call.stopRecording final w
  = Ok (updateRecorder rid (with_rstate RInactive r) (_clearTimer w),
        [EDataAvailable rid final; EStop rid]).
Proof.
  intros [Href Hr]%boundRecorder_Some Hst.
  unfold Call.stopRecording, lookupRecorder. rewrite Href, Hr.
  cbn [mbind result_bind]. unfold MediaRecorder_stop, lookupRecorder.
  rewrite clearTimer_recorders, Hr. cbn [mbind result_bind].
  destruct (rstate r); [contradiction|reflexivity..].
Qed.

(** X15.  stopRecording() and releaseResources() called one after the
    other in the same handler, on a bound recorder that is not inactive:
    stop() only queues its events, so reset runs first and the listeners
    after it.  The final flush lands in the chunks reset has just emptied,
    and the stop listener sets status to stopped over the reset state:
    the hook ends with status stopped, no recorder bound, recordingTime 0
    and an artifact made of the final flush alone, the fragments of the
    session being lost; the recorder is inactive and the tracks of its
    stream ended, and stopRecording and togglePauseResume do nothing
    there. *)
Theorem stop_then_reset_in_one_handler (w : World) (final : Blob) rid r :
  reachable w -> boundRecorder w = Some (rid, r) -> rstate r <> RInactive ->
  exists w' (s : MediaStream),
    handler [CallStopRecording final; CallReleaseResources] w = Ok w' /\
    status (state w') = Stopped /\
    mediaRecorderRef (refs w') = None /\
    recordingTime (state w') = 0%Z /\
    chunksRef (refs w') = keepNonEmpty [final] /\
    recordingBlob (state w')
    = Some (newBlob (keepNonEmpty [final]) (currentMimeType w)) /\
    blobUrl (state w') = Some (nextUrl (browser w)) /\
    recorders (browser w') !! rid = Some (with_rstate RInactive r) /\
    streams (browser w) !! rstream r = Some s /\
    streams (browser w') !! rstream r = Some (stopTracks s) /\
    (forall final', stopRecording final' w' = Ok w' /\ togglePauseResume w' = Ok w').
Proof.
  intros Hr Hb Hst.
  pose proof Hb as [Href Hlook]%boundRecorder_Some.
  destruct (storeInv_bound w rid (storeInv_reachable w Hr) Href) as (r' & s & Hb' & Hs).
  rewrite Hb in Hb'. injection Hb' as <-.
  unfold handler, settle. cbn [calls call].
  rewrite (call_stop final w rid r Hb Hst).
  cbn [mbind result_bind app dispatchAll dispatch]. rewrite bind_Ok.
  rewrite onDataAvailable_chunks.
  assert (Hlt : rid < length (recorders (browser w))) by (eapply lookup_lt_Some; eauto).
  assert (Hlt' : rstream r < length (streams (browser w)))
    by (eapply lookup_lt_Some; eauto).
  unfold currentMimeType.
  world w. cbn -[lookup insert alter keepNonEmpty] in *. subst mr.
  destruct ti; unfold onStop, _cleanTracks, lookupRecorder, updateRecorder, reset;
    cbn -[lookup insert alter keepNonEmpty];
    rewrite (list_lookup_insert_eq _ _ _ Hlt);
    cbn -[lookup insert alter keepNonEmpty]; rewrite Hs;
    (eexists; exists s; split; [reflexivity|]);
    cbn -[lookup insert alter keepNonEmpty stopRecording togglePauseResume];
    rewrite (list_lookup_insert_eq _ _ _ Hlt), (list_lookup_insert_eq _ _ _ Hlt');
    (do 9 (split; [reflexivity|])); intros final';
    (split; [apply stopRecording_unbound|apply togglePauseResume_unbound]);
    reflexivity.
Qed.

Lemma stop_then_reset_in_one_handler_witness :
  reachable recording_after_one_second /\
  exists w',
    handler [CallStopRecording (zeros 2 "audio/webm"); CallReleaseResources]
            recording_after_one_second = Ok w' /\
    status (state w') = Stopped /\
    mediaRecorderRef (refs w') = None /\
    List.map blobSize (chunksRef (refs w')) = [2%Z] /\
    List.map blobSize (chunksRef (refs recording_after_one_second)) = [6%Z].
Proof.
  split; [exact reachable_recording_after_one_second|].
  destruct (stop_then_reset_in_one_handler recording_after_one_second
              (zeros 2 "audio/webm") 0 (startedRecorder 0 "audio/webm")
              reachable_recording_after_one_second)
    as (w' & s & Hh & Hst & Href & _ & Hc & _); [evaluate|discriminate|].
  exists w'. split; [exact Hh|]. split; [exact Hst|]. split; [exact Href|].
  split; [rewrite Hc; evaluate|evaluate].
Defined.

Lemma revoke_again (w : World) rid r' :
  let w1 := updateRecorder rid r' (revokeCurrent (_clearTimer w)) in
  match blobUrl (state w) with
  | Some url => revokeObjectURL url (_clearTimer w1)
  | None => _clearTimer w1
  end = w1.
Proof.
  intros w1.
  assert (Hs : state (_clearTimer w) = state w)
    by (rewrite clearTimer_shape; reflexivity).
  assert (Ht : _clearTimer w1 = w1).
  { unfold _clearTimer.
    replace (timerIntervalRef (refs w1)) with (@None TimerId); [reflexivity|].
    subst w1. rewrite revokeCurrent_shape, clearTimer_shape. reflexivity. }
  rewrite Ht. destruct (blobUrl (state w)) as [url|] eqn:E; [|reflexivity].
  subst w1. unfold revokeCurrent. rewrite Hs, E.
  unfold updateRecorder, revokeObjectURL, set_recorders, set_objectUrls, with_browser.
  cbn [state refs browser objectUrls nextUrl recorders].
  rewrite filter_filter_same. reflexivity.
Qed.

(** A second call of togglePauseResume from the render of a state that is
    not paused, once the recorder is paused: it clears no timer, revokes
    the same URL again and calls pause() on a paused recorder, which does
    nothing and queues nothing. *)
Lemma call_pause_again (w : World) rid r :
  boundRecorder w = Some (rid, r) -> rstate r = RRecording ->
  status (state w) <> Paused ->
  let w1 := updateRecorder rid (with_rstate RPaused r) (revokeCurrent (_clearTimer w)) in
  Call.togglePauseResume (state w) w1 = Ok (w1, []).
Proof.
  intros [Href Hr]%boundRecorder_Some Hst Hp w1.
  assert (Href1 : mediaRecorderRef (refs w1) = Some rid).
  { subst w1. rewrite revokeCurrent_shape, clearTimer_shape. cbn. exact Href. }
  assert (Hr1 : recorders (browser w1) !! rid = Some (with_rstate RPaused r)).
  { subst w1. unfold updateRecorder. cbn -[lookup insert].
    rewrite revokeCurrent_recorders, clearTimer_recorders.
    eapply lookup_insert_same; eauto. }
  unfold Call.togglePauseResume, lookupRecorder. rewrite Href1, Hr1.
  cbn [mbind result_bind with_rstate rstate].
  assert (E : forall A (x y : A), match status (state w) with Paused => x | _ => y end = y)
    by (intros; destruct (status (state w)); congruence).
  rewrite E.
  pose proof (revoke_again w rid (with_rstate RPaused r)) as Hsame.
  cbv zeta in Hsame. fold w1 in Hsame. rewrite Hsame.
  unfold MediaRecorder_pause, lookupRecorder. rewrite Hr1. reflexivity.
Qed.

(** X16.  togglePauseResume called twice in the same handler while status
    is recording: both calls are made from the same render and read the
    same [state.status], so both take the pause branch.  The second call
    finds the recorder paused, where pause() does nothing: the hook ends
    as after one call, with status paused, the recorder paused and no
    timer.  It takes a second handler, after the pause event and the next
    render, to resume (X12). *)
Theorem second_toggle_in_one_handler_is_lost (w : World) :
  reachable w -> status (state w) = Recording ->
  exists w' rid r,
    togglePauseResume w = Ok w' /\
    handler [CallTogglePauseResume; CallTogglePauseResume] w = Ok w' /\
    status (state w') = Paused /\
    boundRecorder w' = Some (rid, r) /\ rstate r = RPaused /\
    timerIntervalRef (refs w') = None /\
    intervals (browser w') = [].
Proof.
  intros Hr Hs.
  destruct (active_of_status w Hr (or_introl Hs)) as (rid & r & s & Hb & _ & Hso & _).
  assert (Hst : rstate r = RRecording)
    by (rewrite Hs in Hso; destruct (rstate r); cbn in Hso; congruence).
  assert (Hnp : status (state w) <> Paused) by congruence.
  destruct (invariants_reachable w Hr) as [H1 _].
  pose proof Hb as [_ Hlook]%boundRecorder_Some.
  destruct (pause_spec w rid r Hb Hst Hnp)
    as (w' & Ht & Hs' & Hr' & Hrec & _ & Hi & _).
  exists w', rid, (add_resumeListener (with_rstate RPaused r)).
  split; [exact Ht|]. split.
  - rewrite <- Ht. unfold handler, togglePauseResume, settle. cbn [calls call].
    rewrite (call_pause w rid r Hb Hst Hnp). cbn [mbind result_bind].
    rewrite (call_pause_again w rid r Hb Hst Hnp). reflexivity.
  - rewrite Hs', Hr', Hi, clearTimer_shape. shapes. rewrite (cleared_inv w H1).
    split; [reflexivity|]. split; [|auto].
    apply boundRecorder_Some. rewrite Hr', Hrec.
    split; [reflexivity|eapply lookup_insert_same; eauto].
Qed.

Lemma second_toggle_in_one_handler_is_lost_witness :
  reachable recording_after_one_second /\
  status (state recording_after_one_second) = Recording /\
  exists w',
    handler [CallTogglePauseResume; CallTogglePauseResume]
            recording_after_one_second = Ok w' /\
    status (state w') = Paused.
Proof.
  assert (Hs : status (state recording_after_one_second) = Recording) by evaluate.
  split; [exact reachable_recording_after_one_second|]. split; [exact Hs|].
  destruct (second_toggle_in_one_handler_is_lost recording_after_one_second
              reachable_recording_after_one_second Hs)
    as (w' & rid & r & _ & Hh & Hp & _).
  exists w'. auto.
Defined.

(** X17.  togglePauseResume() and releaseResources() called one after the
    other in the same handler while status is recording: pause() only
    queues its event, so reset runs first and the pause listener after it.
    The listener builds an artifact from the chunks reset has emptied and
    sets status to paused over the reset state: the hook ends with status
    paused, no recorder bound, recordingTime 0 and an empty artifact; the
    recorder stays paused with its tracks as they were, and stopRecording
    and togglePauseResume do nothing there, so only startRecording or
    reset leave this state. *)
Theorem pause_then_reset_in_one_handler (w : World) :
  reachable w -> status (state w) = Recording ->
  exists w' rid r,
    boundRecorder w = Some (rid, r) /\
    handler [CallTogglePauseResume; CallReleaseResources] w = Ok w' /\
    status (state w') = Paused /\
    mediaRecorderRef (refs w') = None /\
    recordingTime (state w') = 0%Z /\
    chunksRef (refs w') = [] /\
    recordingBlob (state w') = Some (newBlob [] (currentMimeType w)) /\
    recorders (browser w') !! rid = Some (add_resumeListener (with_rstate RPaused r)) /\
    streams (browser w') = streams (browser w) /\
    (forall final, stopRecording final w' = Ok w' /\ togglePauseResume w' = Ok w').
Proof.
  intros Hr Hs.
  destruct (active_of_status w Hr (or_introl Hs)) as (rid & r & s & Hb & _ & Hso & _).
  assert (Hst : rstate r = RRecording)
    by (rewrite Hs in Hso; destruct (rstate r); cbn in Hso; congruence).
  assert (Hnp : status (state w) <> Paused) by congruence.
  pose proof Hb as [Href Hlook]%boundRecorder_Some.
  exists (onPause rid (reset (updateRecorder rid (with_rstate RPaused r)
                                (revokeCurrent (_clearTimer w))))), rid, r.
  split; [exact Hb|]. split.
  - unfold handler, settle. cbn [calls call].
    rewrite (call_pause w rid r Hb Hst Hnp). reflexivity.
  - set (w' := onPause rid _).
    assert (Hnull : mediaRecorderRef (refs w') = None)
      by (subst w'; shapes; reflexivity).
    assert (Hn : forall final, stopRecording final w' = Ok w' /\ togglePauseResume w' = Ok w')
      by (intros final;
          split; [apply stopRecording_unbound|apply togglePauseResume_unbound];
          unfold noActiveRecorder; rewrite Hnull; reflexivity).
    refine (conj _ (conj _ (conj _ (conj _ (conj _ (conj _ (conj _ Hn)))))));
      subst w'; unfold currentMimeType; shapes; rewrite ?alter_insert_eq;
      try reflexivity.
    eapply lookup_insert_same; eauto.
Qed.

Lemma pause_then_reset_in_one_handler_witness :
  reachable recording_after_one_second /\
  status (state recording_after_one_second) = Recording /\
  exists w',
    handler [CallTogglePauseResume; CallReleaseResources]
            recording_after_one_second = Ok w' /\
    status (state w') = Paused /\
    mediaRecorderRef (refs w') = None.
Proof.
  assert (Hs : status (state recording_after_one_second) = Recording) by evaluate.
  split; [exact reachable_recording_after_one_second|]. split; [exact Hs|].
  destruct (pause_then_reset_in_one_handler recording_after_one_second
              reachable_recording_after_one_second Hs)
    as (w' & rid & r & _ & Hh & Hp & Href & _).
  exists w'. auto.
Defined.

(** ** A granted request whose callback throws *)

(** X18.  When the request of a startRecording is granted but the
    callback throws, because getBestSupportedMimeType throws or because
    new MediaRecorder rejects the format it returned, the hook is left
    idle with the granted stream in mediaStreamRef: the state is
    INITIAL_STATE, no recorder is made or bound and no timer set, the
    collaborator has been called once, and the format it returned, when it
    returned, is stored.  Nothing of the hook can end the tracks of that
    stream afterwards: stopRecording and togglePauseResume do nothing,
    reset only forgets the stream, and the unmount cleanup ends no track,
    since each of them reaches a stream only through a recorder. *)
Theorem failed_grant_leaves_the_stream_bound
    (w : World) (s : MediaStream) (answer : option string) (final : Blob) :
  let q := nextRequest (browser w) in
  let w1 := startRecording w in
  let w2 := failedGrant q s answer w1 in
  step (GrantedUnsupported q s answer) w1 = Throw (grantException answer) w2 /\
  state w2 = INITIAL_STATE /\
  mediaRecorderRef (refs w2) = None /\
  timerIntervalRef (refs w2) = None /\
  mediaStreamRef (refs w2) = Some (length (streams (browser w))) /\
  streams (browser w2) = streams (browser w) ++ [s] /\
  recorders (browser w2) = recorders (browser w) /\
  mimeCalls (browser w2) = S (mimeCalls (browser w)) /\
  mimeTypeRef (refs w2) = match answer with
                          | Some mime => Some mime
                          | None => mimeTypeRef (refs w)
                          end /\
  isPending q w2 = false /\
  stopRecording final w2 = Ok w2 /\
  togglePauseResume w2 = Ok w2 /\
  mediaStreamRef (refs (reset w2)) = None /\
  streams (browser (reset w2)) = streams (browser w) ++ [s] /\
  exists w3, step (Unmount final) w2 = Ok w3 /\
             streams (browser w3) = streams (browser w) ++ [s].
Proof.
  intros q w1 w2.
  destruct (failedGrant_frame q s answer w1)
    as (Hs & Hm & _ & Ht & Hrec & Hst & _ & _ & _ & Hms & Hmc & Hmt).
  fold w2 in Hs, Hm, Ht, Hrec, Hst, Hms, Hmc, Hmt.
  assert (Hss : streams (browser w1) = streams (browser w))
    by (subst w1; shapes; reflexivity).
  assert (Href : mediaRecorderRef (refs w2) = None)
    by (rewrite Hm; subst w1; rewrite startRecording_refs; reflexivity).
  assert (Hn : noActiveRecorder w2 = true)
    by (unfold noActiveRecorder; rewrite Href; reflexivity).
  split; [apply step_GrantedUnsupported_spec, isPending_startRecording|].
  split; [rewrite Hs; apply startRecording_state|]. split; [exact Href|].
  split; [rewrite Ht; subst w1; rewrite startRecording_refs; reflexivity|].
  split; [rewrite Hms, Hss; reflexivity|]. split; [rewrite Hst, Hss; reflexivity|].
  split; [rewrite Hrec; subst w1; shapes; reflexivity|].
  split; [rewrite Hmc; subst w1; shapes; reflexivity|].
  split; [rewrite Hmt; subst w1; rewrite startRecording_refs; reflexivity|].
  split.
  { subst w2 w1 q. world w. unfold isPending.
    destruct ti, answer; cbn; rewrite List.filter_app; cbn;
      rewrite Nat.eqb_refl; cbn; rewrite app_nil_r; apply existsb_eqb_filter_ne. }
  split; [apply stopRecording_unbound, Hn|].
  split; [apply togglePauseResume_unbound, Hn|].
  split; [apply reset_clears|].
  split; [destruct (reset_browser_frame w2) as (_ & E & _); rewrite E, Hst, Hss;
          reflexivity|].
  cbn [step]. rewrite (cleanup_unbound final w2 Href). eexists. split; [reflexivity|].
  rewrite clearTimer_streams, Hst, Hss. reflexivity.
Qed.

(** ** Handlers that make any number of calls *)

(** Every update the calls and listeners are made of keeps [soundInv]. *)
Ltac keeps_sound :=
  let w := fresh "w" in let H3 := fresh "H3" in let H1 := fresh "H1" in
  let Hc := fresh "Hc" in let H8 := fresh "H8" in
  intros w (H3 & H1 & Hc & H8);
  split;
  [split; [same_store H3|split; [timer_inv w H1|split;
     [unfold chunksInv in *; shapes; auto|same_book H8]]]
  |shapes; reflexivity].

Lemma keepsSound_clearTimer : keepsSound _clearTimer.
Proof. keeps_sound. Qed.

Lemma keepsSound_startTimer : keepsSound _startTimer.
Proof. keeps_sound. Qed.

Lemma keepsSound_reset : keepsSound reset.
Proof. keeps_sound. Qed.

Lemma keepsSound_startRecording : keepsSound startRecording.
Proof. keeps_sound. Qed.

Lemma keepsSound_revokeObjectURL (u : ObjectURL) : keepsSound (revokeObjectURL u).
Proof. unfold revokeObjectURL. keeps_sound. Qed.

Lemma keepsSound_stoppedBy : keepsSound stoppedBy.
Proof. keeps_sound. Qed.

Lemma keepsSound_iter_onResume (n : nat) : keepsSound (Nat.iter n onResume).
Proof. keeps_sound. Qed.

Lemma keepsSound_onDataAvailable (data : Blob) : keepsSound (onDataAvailable data).
Proof.
  intros w (H3 & H1 & Hc & H8).
  split; [split; [same_store H3|split; [timer_inv w H1|split; [|same_book H8]]]
         |shapes; reflexivity].
  unfold chunksInv in *. shapes. apply Forall_app. split; [exact Hc|].
  apply Forall_keepNonEmpty.
Qed.

Lemma map_alter_same {B} (g : MediaRecorder -> B) (f : MediaRecorder -> MediaRecorder)
    (rs : list MediaRecorder) (rid : RecorderId) :
  (forall r, g (f r) = g r) ->
  List.map g (alter f rid rs) = List.map g rs.
Proof.
  intros Hf. revert rid; induction rs as [|x rs IH]; intros [|rid]; simpl;
    try reflexivity.
  - rewrite Hf. reflexivity.
  - f_equal. apply IH.
Qed.

Lemma keepsSound_onPause (rid : RecorderId) : keepsSound (onPause rid).
Proof.
  intros w (H3 & H1 & Hc & H8).
  split; [split; [|split; [timer_inv w H1|split;
            [unfold chunksInv in *; shapes; auto|]]]|].
  - same_store H3. apply map_alter_same. reflexivity.
  - apply (bookInv_keys _ _ H8); shapes; auto. apply map_alter_same. reflexivity.
  - shapes. apply length_alter.
Qed.

Lemma keepsSound_updateRecorder (w : World) (rid : RecorderId) (r r' : MediaRecorder) :
  soundInv w -> recorders (browser w) !! rid = Some r ->
  recorderMade r' = recorderMade r ->
  soundInv (updateRecorder rid r' w) /\
  length (recorders (browser (updateRecorder rid r' w))) = length (recorders (browser w)).
Proof.
  intros (H3 & H1 & Hc & H8) Hr E.
  split; [split; [|split; [timer_inv w H1|split;
            [unfold chunksInv in *; shapes; auto|]]]|].
  - same_store H3. eapply map_rstream_insert; eauto.
    unfold recorderMade in E. congruence.
  - apply (bookInv_keys _ _ H8); shapes; auto. eapply map_made_insert; eauto.
  - shapes. apply length_insert.
Qed.

Lemma keepsSound_cleanTracks (o : option RecorderId) (w : World) :
  soundInv w ->
  (forall rid, o = Some rid -> rid < length (recorders (browser w))) ->
  exists w', _cleanTracks o w = Ok w' /\ soundInv w' /\
             length (recorders (browser w')) = length (recorders (browser w)).
Proof.
  intros (H3 & H1 & Hc & H8) Ho.
  destruct o as [rid|];
    [|exists w; split; [reflexivity|]; split; [unfold soundInv; tauto|reflexivity]].
  specialize (Ho rid eq_refl).
  unfold _cleanTracks, lookupRecorder.
  destruct (recorders (browser w) !! rid) as [r|] eqn:Hr;
    [|apply lookup_ge_None in Hr; lia].
  cbn [mbind result_bind].
  assert (Hin : In (rstream r) (List.map rstream (recorders (browser w)))).
  { apply in_map. apply list_elem_of_In. eapply list_elem_of_lookup_2; eauto. }
  destruct H3 as [Hb Hall]. pose proof Hall as Hall'.
  rewrite Forall_forall in Hall'. apply list_elem_of_In, Hall' in Hin.
  destruct (streams (browser w) !! rstream r) as [s|] eqn:Hs;
    [|apply lookup_ge_None in Hs; lia].
  eexists. split; [reflexivity|].
  split; [split; [|split; [timer_inv w H1|split;
            [unfold chunksInv in *; shapes; auto|]]]|].
  - apply (storeInv_frame w); [split; assumption|shapes; auto..].
    apply length_insert.
  - apply (bookInv_keys _ _ H8); shapes; auto. apply length_insert.
  - shapes. reflexivity.
Qed.

Lemma callSound_quiet (w w' : World) :
  soundInv w' -> length (recorders (browser w')) = length (recorders (browser w)) ->
  callSound w (Ok (w', [])).
Proof.
  intros Hs Hl. exists w', []. split; [reflexivity|]. split; [exact Hs|].
  split; [exact Hl|constructor].
Qed.

Lemma stopRecording_call_sound (final : Blob) (w : World) :
  soundInv w -> callSound w (Call.stopRecording final w).
Proof.
  intros Hs. pose proof Hs as (H3 & H1 & Hc & H8).
  destruct (mediaRecorderRef (refs w)) as [rid|] eqn:Href.
  2: { unfold Call.stopRecording. rewrite Href. apply callSound_quiet; auto. }
  destruct (storeInv_bound w rid H3 Href) as (r & s & Hb & Hss).
  pose proof Hb as [_ Hrec]%boundRecorder_Some.
  destruct (decide (rstate r = RInactive)) as [Hst|Hst].
  - unfold Call.stopRecording, lookupRecorder. rewrite Href, Hrec.
    cbn [mbind result_bind]. rewrite Hst. apply callSound_quiet; auto.
  - rewrite (call_stop final w rid r Hb Hst).
    destruct (keepsSound_clearTimer w Hs) as [Hs1 Hl1].
    assert (Hrec1 : recorders (browser (_clearTimer w)) !! rid = Some r)
      by (rewrite clearTimer_recorders; exact Hrec).
    destruct (keepsSound_updateRecorder (_clearTimer w) rid r (with_rstate RInactive r)
                Hs1 Hrec1 eq_refl) as [Hs2 Hl2].
    eexists _, _. split; [reflexivity|]. split; [exact Hs2|]. split; [congruence|].
    assert (Hlt : rid < length (recorders (browser w)))
      by (eapply lookup_lt_Some; eauto).
    repeat constructor; exact Hlt.
Qed.

Lemma togglePauseResume_call_sound (rendered : AudioRecorderState) (w : World) :
  soundInv w -> callSound w (Call.togglePauseResume rendered w).
Proof.
  intros Hs. pose proof Hs as (H3 & H1 & Hc & H8).
  destruct (mediaRecorderRef (refs w)) as [rid|] eqn:Href.
  2: { unfold Call.togglePauseResume. rewrite Href. apply callSound_quiet; auto. }
  destruct (storeInv_bound w rid H3 Href) as (r & s & Hb & Hss).
  pose proof Hb as [_ Hrec]%boundRecorder_Some.
  assert (Hlt : rid < length (recorders (browser w)))
    by (eapply lookup_lt_Some; eauto).
  unfold Call.togglePauseResume, lookupRecorder. rewrite Href, Hrec.
  cbn [mbind result_bind].
  destruct (decide (rstate r = RInactive)) as [Hst|Hst];
    [rewrite Hst; apply callSound_quiet; auto|].
  assert (E : forall A (x y : A),
            match rstate r with RInactive => x | _ => y end = y)
    by (intros; destruct (rstate r); congruence).
  rewrite E. clear E.
  destruct (decide (status rendered = Paused)) as [Hp|Hp].
  - rewrite Hp. unfold MediaRecorder_resume, lookupRecorder. rewrite Hrec.
    cbn [mbind result_bind].
    destruct (rstate r) eqn:Hr; [contradiction| |]; cbn [mbind result_bind].
    + destruct (keepsSound_startTimer w Hs) as [Hs1 Hl1].
      apply callSound_quiet; auto.
    + destruct (keepsSound_updateRecorder w rid r (with_rstate RRecording r)
                  Hs Hrec eq_refl) as [Hs1 Hl1].
      destruct (keepsSound_startTimer _ Hs1) as [Hs2 Hl2].
      eexists _, _. split; [reflexivity|]. split; [exact Hs2|]. split; [congruence|].
      repeat constructor; exact Hlt.
  - assert (E : forall A (x y : A),
              match status rendered with Paused => x | _ => y end = y)
      by (intros; destruct (status rendered); congruence).
    rewrite E. clear E.
    set (w1 := match blobUrl rendered with
               | Some url => revokeObjectURL url (_clearTimer w)
               | None => _clearTimer w
               end).
    destruct (keepsSound_clearTimer w Hs) as [Hs0 Hl0].
    assert (H : soundInv w1 /\
                length (recorders (browser w1)) = length (recorders (browser w)) /\
                recorders (browser w1) !! rid = Some r).
    { subst w1. destruct (blobUrl rendered) as [u|].
      - destruct (keepsSound_revokeObjectURL u _ Hs0) as [Hs1 Hl1].
        split; [exact Hs1|]. split; [congruence|].
        unfold revokeObjectURL. shapes. exact Hrec.
      - split; [exact Hs0|]. split; [exact Hl0|].
        rewrite clearTimer_recorders. exact Hrec. }
    destruct H as (Hs1 & Hl1 & Hrec1).
    unfold MediaRecorder_pause, lookupRecorder. rewrite Hrec1.
    cbn [mbind result_bind].
    destruct (rstate r) eqn:Hr; [contradiction| |].
    + destruct (keepsSound_updateRecorder w1 rid r (with_rstate RPaused r)
                  Hs1 Hrec1 eq_refl) as [Hs2 Hl2].
      eexists _, _. split; [reflexivity|]. split; [exact Hs2|]. split; [congruence|].
      repeat constructor; exact Hlt.
    + apply callSound_quiet; auto.
Qed.

Lemma call_sound (rendered : AudioRecorderState) (c : HookCall) (w : World) :
  soundInv w -> callSound w (call rendered c w).
Proof.
  intros Hs. destruct c; cbn [call].
  - destruct (keepsSound_startRecording w Hs). apply callSound_quiet; auto.
  - apply stopRecording_call_sound, Hs.
  - apply togglePauseResume_call_sound, Hs.
  - destruct (keepsSound_reset w Hs). apply callSound_quiet; auto.
Qed.

Lemma eventsFor_length (w w' : World) (evs : list RecorderEvent) :
  length (recorders (browser w')) = length (recorders (browser w)) ->
  eventsFor w evs -> eventsFor w' evs.
Proof. unfold eventsFor. intros ->. auto. Qed.

Lemma calls_sound (rendered : AudioRecorderState) (cs : list HookCall) (w : World) :
  soundInv w -> callSound w (calls rendered cs w).
Proof.
  revert w; induction cs as [|c cs IH]; intros w Hs; cbn [calls].
  - apply callSound_quiet; auto.
  - destruct (call_sound rendered c w Hs) as (w1 & evs1 & -> & Hs1 & Hl1 & He1).
    cbn [mbind result_bind].
    destruct (IH w1 Hs1) as (w2 & evs2 & -> & Hs2 & Hl2 & He2).
    cbn [mbind result_bind].
    exists w2, (evs1 ++ evs2). split; [reflexivity|]. split; [exact Hs2|].
    split; [congruence|]. apply Forall_app. split; [exact He1|].
    eapply eventsFor_length; [|exact He2]. auto.
Qed.

Lemma dispatch_sound (e : RecorderEvent) (w : World) :
  soundInv w -> eventRecorder e < length (recorders (browser w)) ->
  exists w', dispatch e w = Ok w' /\ soundInv w' /\
             length (recorders (browser w')) = length (recorders (browser w)).
Proof.
  intros Hs Hlt. destruct e as [rid data|rid|rid|rid]; cbn [dispatch eventRecorder] in *.
  - destruct (keepsSound_onDataAvailable data w Hs). eauto.
  - rewrite onStop_unfold. destruct (keepsSound_stoppedBy w Hs) as [Hs1 Hl1].
    destruct (keepsSound_cleanTracks (Some rid) (stoppedBy w) Hs1)
      as (w' & Hc & Hs2 & Hl2).
    + intros rid' [= <-]. rewrite Hl1. exact Hlt.
    + exists w'. split; [exact Hc|]. split; [exact Hs2|]. congruence.
  - destruct (keepsSound_onPause rid w Hs). eauto.
  - unfold lookupRecorder.
    destruct (recorders (browser w) !! rid) as [r|] eqn:Hr;
      [|apply lookup_ge_None in Hr; lia].
    cbn [mbind result_bind].
    destruct (keepsSound_iter_onResume (resumeListeners r) w Hs). eauto.
Qed.

Lemma dispatchAll_sound (evs : list RecorderEvent) (w : World) :
  soundInv w -> eventsFor w evs ->
  exists w', dispatchAll evs w = Ok w' /\ soundInv w' /\
             length (recorders (browser w')) = length (recorders (browser w)).
Proof.
  revert w; induction evs as [|e evs IH]; intros w Hs He; cbn [dispatchAll].
  - eauto.
  - apply Forall_cons in He as [He1 He].
    destruct (dispatch_sound e w Hs He1) as (w1 & -> & Hs1 & Hl1).
    cbn [mbind result_bind].
    destruct (IH w1 Hs1 (eventsFor_length _ _ _ Hl1 He)) as (w2 & Hd & Hs2 & Hl2).
    exists w2. split; [exact Hd|]. split; [exact Hs2|]. congruence.
Qed.

Lemma settle_sound (w : World) (r : result (World * list RecorderEvent)) :
  callSound w r ->
  exists w', settle r = Ok w' /\ soundInv w' /\
             length (recorders (browser w')) = length (recorders (browser w)).
Proof.
  intros (w1 & evs & -> & Hs1 & Hl1 & He). unfold settle. cbn [mbind result_bind].
  destruct (dispatchAll_sound evs w1 Hs1 (eventsFor_length _ _ _ Hl1 He))
    as (w2 & Hd & Hs2 & Hl2).
  exists w2. split; [exact Hd|]. split; [exact Hs2|]. congruence.
Qed.

Lemma handler_sound (cs : list HookCall) (w : World) :
  soundInv w ->
  exists w', handler cs w = Ok w' /\ soundInv w' /\
             length (recorders (browser w')) = length (recorders (browser w)).
Proof. intros Hs. apply settle_sound, calls_sound, Hs. Qed.

Lemma timerInv_step (a : Action) (w w' : World) :
  timerInv w -> step a w = Ok w' -> timerInv w'.
Proof.
  intros H1 H. destruct a; cbn [step] in H.
  - injection H as <-. timer_inv w H1.
  - apply stopRecording_inv in H as [_ ->|rid r ss _ _ _ ->]; [auto|timer_inv w H1].
  - apply togglePauseResume_inv in H
      as [_ ->|rid r _ _ _ ->|rid r _ _ _ ->|rid r _ _ _ ->|rid r _ _ _ ->];
      [auto|timer_inv w H1..].
  - injection H as <-. timer_inv w H1.
  - apply cleanup_inv in H as [ss _ ->|rid r ss ss' _ _ _ _ ->]; timer_inv w H1.
  - pose proof (step_Granted_intervals _ _ _ _ _ H) as Hi.
    apply step_Granted_inv in H as [[_ ->]|(Hp & Hs & Hr & _)]; [auto|].
    specialize (Hi Hp).
    unfold timerInv. rewrite Hr, Hi. rewrite clearTimer_shape. shapes.
    rewrite (cleared_inv w H1). reflexivity.
  - destruct (isPending q w); injection H as <-; [timer_inv w H1|auto].
  - destruct (recorders (browser w) !! rid); injection H as <-; [timer_inv w H1|auto].
  - destruct (isFiring t w); injection H as <-; [timer_inv w H1|auto].
  - apply step_GrantedUnsupported_inv in H as [_ ->]. auto.
Qed.

Lemma step_sound (a : Action) (w w' : World) :
  soundInv w -> step a w = Ok w' -> soundInv w'.
Proof.
  intros (H3 & H1 & Hc & H8) H.
  split; [eapply storeInv_step; eauto|]. split; [eapply timerInv_step; eauto|].
  split; [|eapply bookInv_step; eauto]. unfold chunksInv in *.
  destruct (chunks_of_step a w w' H) as [(_ & ->)|(data & ->)]; [constructor|].
  apply Forall_app. split; [exact Hc|apply Forall_keepNonEmpty].
Qed.

Lemma failedGrant_sound (q : RequestId) (s : MediaStream) (answer : option string)
    (w : World) :
  soundInv w -> soundInv (failedGrant q s answer w).
Proof.
  intros (H3 & H1 & Hc & H8).
  destruct (failedGrant_frame q s answer w) as (_ & _ & Hch & Ht & _ & _ & Hi & _).
  split; [apply storeInv_failedGrant, H3|]. split; [|split].
  - unfold timerInv. rewrite Hi, Ht. exact H1.
  - unfold chunksInv. rewrite Hch. exact Hc.
  - apply bookInv_failedGrant, H8.
Qed.

Lemma reachable_byHandlers (w : World) : reachable w -> reachableByHandlers w.
Proof.
  induction 1 as [|a w w' _ IH H|a e w w' _ IH H].
  - constructor.
  - apply (byHandlers_step (TAction a) w w' IH H).
  - apply (byHandlers_throw (TAction a) e w w' IH H).
Qed.

Lemma perform_throw_inv (t : Task) (e : Exn) (w w' : World) :
  soundInv w -> perform t w = Throw e w' ->
  exists q s answer,
    t = TAction (GrantedUnsupported q s answer) /\ isPending q w = true /\
    e = grantException answer /\ w' = failedGrant q s answer w.
Proof.
  intros Hs H. destruct t as [cs|a]; cbn [perform] in H.
  - destruct (handler_sound cs w Hs) as (w1 & E & _). congruence.
  - destruct (step_throw_inv a e w w' (proj1 Hs) H) as (q & s & answer & -> & Hp & -> & ->).
    eauto 8.
Qed.

Lemma soundInv_byHandlers (w : World) : reachableByHandlers w -> soundInv w.
Proof.
  induction 1 as [|t w w' _ IH H|t e w w' _ IH H].
  - split; [split; [discriminate|constructor]|]. split; [reflexivity|].
    split; [constructor|]. split; [reflexivity|]. split; intros; discriminate.
  - destruct t as [cs|a]; cbn [perform] in H.
    + destruct (handler_sound cs w IH) as (w1 & E & Hs1 & _).
      rewrite E in H. injection H as <-. exact Hs1.
    + eapply step_sound; eauto.
  - destruct (perform_throw_inv t e w w' IH H) as (q & s & answer & _ & _ & _ & ->).
    apply failedGrant_sound, IH.
Qed.

(** X19.  Whatever calls of the hook an event handler makes, and however
    handlers, callbacks and failing grants follow each other, no call and
    no listener of the hook throws: the only exception is still the one of
    a resolution callback whose collaborator or recorder constructor
    throws.  In every world reached that way a recorder in
    mediaRecorderRef is a recorder of the store whose stream exists, the
    only interval that fires is the one in timerIntervalRef, no chunk is
    empty, there is one granted stream per call of the collaborator, and
    every recorder records a stream of its own with the options of
    RECORDER_OPTIONS.  (What such handlers do to status is another matter:
    X15 to X17.) *)
Theorem any_handler_keeps_the_hook_sound (w : World) :
  reachableByHandlers w ->
  (forall rid, mediaRecorderRef (refs w) = Some rid ->
     exists r s, boundRecorder w = Some (rid, r) /\
                 streams (browser w) !! rstream r = Some s) /\
  intervals (browser w)
  = match timerIntervalRef (refs w) with Some t => [t] | None => [] end /\
  Forall (fun b => (0 < blobSize b)%Z) (chunksRef (refs w)) /\
  mimeCalls (browser w) = length (streams (browser w)) /\
  (forall (i : RecorderId) r, recorders (browser w) !! i = Some r ->
     (exists s, streams (browser w) !! rstream r = Some s) /\
     rbitsPerSecond r = 24000%Z /\ rtimeslice r = Some 100%Z) /\
  (forall (i j : RecorderId) ri rj,
     recorders (browser w) !! i = Some ri -> recorders (browser w) !! j = Some rj ->
     rstream ri = rstream rj -> i = j) /\
  (forall cs, exists w', handler cs w = Ok w' /\ reachableByHandlers w') /\
  (forall t,
     (exists w', perform t w = Ok w' /\ reachableByHandlers w') \/
     (exists q s answer,
        t = TAction (GrantedUnsupported q s answer) /\ isPending q w = true /\
        perform t w = Throw (grantException answer) (failedGrant q s answer w) /\
        reachableByHandlers (failedGrant q s answer w))).
Proof.
  intros Hr. pose proof (soundInv_byHandlers w Hr) as Hs.
  pose proof Hs as (H3 & H1 & Hc & H8 & H9 & H10).
  split; [intros rid Href; apply (storeInv_bound w rid H3 Href)|].
  split; [exact H1|]. split; [exact Hc|]. split; [exact H8|]. split.
  { intros i r Hi. destruct (H9 i r Hi) as (Hb & E2 & E3).
    split; [apply lookup_lt_is_Some_2, Hb|auto]. }
  split.
  { intros i j ri rj Hi Hj E.
    destruct (Nat.lt_trichotomy i j) as [Hlt|[Heq|Hgt]]; [|exact Heq|].
    - pose proof (H10 i j ri rj Hlt Hi Hj). lia.
    - pose proof (H10 j i rj ri Hgt Hj Hi). lia. }
  assert (Hh : forall cs, exists w', handler cs w = Ok w' /\ reachableByHandlers w').
  { intros cs. destruct (handler_sound cs w Hs) as (w' & E & _).
    exists w'. split; [exact E|]. apply (byHandlers_step (THandler cs) w w' Hr E). }
  split; [exact Hh|].
  intros [cs|a]; [left; apply Hh|]. cbn [perform].
  destruct (step_total w a H3) as [(w' & E)|(q & s & answer & -> & Hp)].
  - left. exists w'. split; [exact E|]. apply (byHandlers_step (TAction a) w w' Hr E).
  - right. exists q, s, answer.
    pose proof (step_GrantedUnsupported_spec q s answer w Hp) as E.
    split; [reflexivity|]. split; [exact Hp|]. split; [exact E|].
    apply (byHandlers_throw (TAction (GrantedUnsupported q s answer)) _ w _ Hr E).
Qed.

Lemma any_handler_keeps_the_hook_sound_witness :
  reachableByHandlers stopped_and_reset_at_once /\
  status (state stopped_and_reset_at_once) = Stopped /\
  mediaRecorderRef (refs stopped_and_reset_at_once) = None /\
  intervals (browser stopped_and_reset_at_once) = [] /\
  exists w',
    handler [CallTogglePauseResume; CallStartRecording;
             CallStopRecording (zeros 1 "audio/webm"); CallTogglePauseResume]
            stopped_and_reset_at_once = Ok w'.
Proof.
  assert (Hr : reachableByHandlers stopped_and_reset_at_once).
  { apply (byHandlers_step
             (THandler [CallStopRecording (zeros 2 "audio/webm"); CallReleaseResources])
             recording_after_one_second).
    - apply reachable_byHandlers, reachable_recording_after_one_second.
    - vm_compute. reflexivity. }
  split; [exact Hr|]. split; [evaluate|]. split; [evaluate|].
  destruct (any_handler_keeps_the_hook_sound stopped_and_reset_at_once Hr)
    as (_ & Hi & _ & _ & _ & _ & Hh & _).
  split; [rewrite Hi; evaluate|].
  destruct (Hh [CallTogglePauseResume; CallStartRecording;
                CallStopRecording (zeros 1 "audio/webm"); CallTogglePauseResume])
    as (w' & E & _).
  exists w'. exact E.
Defined.
